(** * postgraphql: the schema forges and the cursor codec

    A shallow embedding of [src/graphql/forge/ConnectionForge.ts] and
    [src/graphql/forge/CollectionForge.ts], with the properties their
    specification states about them.

    - [JS]: the values of the language that the forges handle.
    - [Utf8], [Base64], [JsonText], [JSON]: what [Buffer] and [JSON] do
      to a cursor on its way into a token and back.
    - [Catalog], [GraphQL]: the catalog the forges read and the schema
      objects they make.
    - [ConnectionForge]: the cursor codec, the resolver of a connection
      field, the resolvers of the connection, edge and page info types,
      and the construction of the field.
    - [CollectionForge]: the memoized [getType] and the root fields.

    JavaScript strings are sequences of UTF-16 code units, and the bytes
    of a [Buffer] are integers in [0, 256); both are lists of [Z] here.
    Objects made with [new] have an address in a heap, which is their
    identity. Calls that may nest without end take a bound on the depth
    of the calls. *)

From Stdlib Require Import ZArith Lia Ascii String List Bool.
From stdpp Require Import base option list gmap strings.

(** ** JavaScript values *)

Module JS.

(** A string is the list of its UTF-16 code units. *)
Definition jsstring : Type := list Z.

(** The code units of an ASCII literal of the source text. *)
Definition lit (s : string) : jsstring :=
  map (fun a => Z.of_nat (nat_of_ascii a)) (list_ascii_of_string s).

(** The values a resolver handles: [undefined], and what JSON holds.
    Numbers are the integers (a double that is not an integer is outside
    the embedding); an object is the list of its own properties in the
    order in which they are enumerated. *)
#[local] Unset Elimination Schemes.
Inductive value : Type :=
| VUndef
| VNull
| VBool (b : bool)
| VNum (n : Z)
| VStr (s : jsstring)
| VArr (l : list value)
| VObj (kvs : list (jsstring * value)).
#[local] Set Elimination Schemes.

(** What [throw] carries. *)
Inductive exn : Type :=
| JsError (msg : jsstring)
| JsTypeError (msg : jsstring)
| JsSyntaxError (msg : jsstring).

(** A call returns or throws. *)
Inductive outcome (A : Type) : Type :=
| Ok (a : A)
| Throw (e : exn).
Arguments Ok {A} a.
Arguments Throw {A} e.

(** [ToBoolean]. *)
Definition truthy (v : value) : bool :=
  match v with
  | VUndef | VNull => false
  | VBool b => b
  | VNum n => negb (n =? 0)%Z
  | VStr s => match s with [] => false | _ => true end
  | VArr _ | VObj _ => true
  end.

(** [a === b]. Arrays and objects are compared by reference; every use
    below has a string or [null] on the right, which no array or object
    is identical to. *)
Definition strict_eq (a b : value) : bool :=
  match a, b with
  | VUndef, VUndef => true
  | VNull, VNull => true
  | VBool x, VBool y => eqb x y
  | VNum x, VNum y => (x =? y)%Z
  | VStr x, VStr y => bool_decide (x = y)
  | _, _ => false
  end.

(** [a !== b]. *)
Definition strict_ne (a b : value) : bool := negb (strict_eq a b).

(** [l[i]]: [undefined] (here [None]) outside the list. *)
Definition index {A : Type} (l : list A) (i : Z) : option A :=
  if (i <? 0)%Z then None else l !! Z.to_nat i.

Lemma strict_eq_str (a : value) (s : jsstring) :
  strict_eq a (VStr s) = true <-> a = VStr s.
Proof.
  destruct a; simpl; try (split; [discriminate | intros H; discriminate H]).
  rewrite bool_decide_eq_true. split; congruence.
Qed.

Lemma strict_eq_null (a : value) :
  strict_eq a VNull = true <-> a = VNull.
Proof.
  destruct a; simpl; split; intros H; try discriminate H; reflexivity.
Qed.

End JS.
Export JS.

(** ** Tactics *)

(** Settles the comparisons of the goal that [lia] decides. *)
Ltac decide_cmp :=
  repeat progress
    (repeat match goal with
       | |- context [(?a <? ?b)%Z] =>
           first [ rewrite (proj2 (Z.ltb_lt a b)) by lia
                 | rewrite (proj2 (Z.ltb_ge a b)) by lia ]
       | |- context [(?a <=? ?b)%Z] =>
           first [ rewrite (proj2 (Z.leb_le a b)) by lia
                 | rewrite (proj2 (Z.leb_gt a b)) by lia ]
       | |- context [(?a =? ?b)%Z] =>
           first [ rewrite (proj2 (Z.eqb_eq a b)) by lia
                 | rewrite (proj2 (Z.eqb_neq a b)) by lia ]
       end;
     cbn [andb orb negb]).

(** ** Buffer: UTF-8 *)

Module Utf8.
Local Open Scope Z_scope.

(** The two halves of a surrogate pair. *)
Definition is_high (u : Z) : bool := (0xD800 <=? u) && (u <=? 0xDBFF).
Definition is_low (u : Z) : bool := (0xDC00 <=? u) && (u <=? 0xDFFF).

(** U+FFFD, which stands for what cannot be encoded or decoded. *)
Definition replacement : list Z := [0xEF; 0xBF; 0xBD].

(** [new Buffer(string)]: the UTF-8 bytes of the code units. A surrogate
    pair is one code point of four bytes; a surrogate without its other
    half is replaced. *)
Fixpoint encode (units : list Z) : list Z :=
  match units with
  | [] => []
  | u :: rest =>
      if u <? 0x80 then u :: encode rest
      else if u <? 0x800 then
        (0xC0 + u / 64) :: (0x80 + u mod 64) :: encode rest
      else if is_high u then
        match rest with
        | v :: rest' =>
            if is_low v then
              let cp := 0x10000 + (u - 0xD800) * 1024 + (v - 0xDC00) in
              (0xF0 + cp / 262144) :: (0x80 + cp / 4096 mod 64)
              :: (0x80 + cp / 64 mod 64) :: (0x80 + cp mod 64)
              :: encode rest'
            else replacement ++ encode rest
        | [] => replacement
        end
      else if is_low u then replacement ++ encode rest
      else
        (0xE0 + u / 4096) :: (0x80 + u / 64 mod 64) :: (0x80 + u mod 64)
        :: encode rest
  end.

Definition is_continuation (b : Z) : bool := (0x80 <=? b) && (b <=? 0xBF).

(** The second byte of a sequence of three: not an overlong form, not a
    surrogate. *)
Definition second_of_three (b0 b1 : Z) : bool :=
  if b0 =? 0xE0 then (0xA0 <=? b1) && (b1 <=? 0xBF)
  else if b0 =? 0xED then (0x80 <=? b1) && (b1 <=? 0x9F)
  else is_continuation b1.

(** The second byte of a sequence of four: not an overlong form, not
    above U+10FFFF. *)
Definition second_of_four (b0 b1 : Z) : bool :=
  if b0 =? 0xF0 then (0x90 <=? b1) && (b1 <=? 0xBF)
  else if b0 =? 0xF4 then (0x80 <=? b1) && (b1 <=? 0x8F)
  else is_continuation b1.

(** [buffer.toString()]: the code units of the UTF-8 bytes. A sequence
    that breaks off gives U+FFFD, and decoding goes on at the byte that
    broke it. *)
Fixpoint decode (bytes : list Z) : list Z :=
  match bytes with
  | [] => []
  | b0 :: r0 =>
      if b0 <? 0x80 then b0 :: decode r0
      else if (0xC2 <=? b0) && (b0 <=? 0xDF) then
        match r0 with
        | b1 :: r1 =>
            if is_continuation b1
            then ((b0 - 0xC0) * 64 + (b1 - 0x80)) :: decode r1
            else 0xFFFD :: decode r0
        | [] => [0xFFFD]
        end
      else if (0xE0 <=? b0) && (b0 <=? 0xEF) then
        match r0 with
        | b1 :: r1 =>
            if second_of_three b0 b1 then
              match r1 with
              | b2 :: r2 =>
                  if is_continuation b2
                  then ((b0 - 0xE0) * 4096 + (b1 - 0x80) * 64 + (b2 - 0x80))
                       :: decode r2
                  else 0xFFFD :: decode r1
              | [] => [0xFFFD]
              end
            else 0xFFFD :: decode r0
        | [] => [0xFFFD]
        end
      else if (0xF0 <=? b0) && (b0 <=? 0xF4) then
        match r0 with
        | b1 :: r1 =>
            if second_of_four b0 b1 then
              match r1 with
              | b2 :: r2 =>
                  if is_continuation b2 then
                    match r2 with
                    | b3 :: r3 =>
                        if is_continuation b3 then
                          let cp := (b0 - 0xF0) * 262144 + (b1 - 0x80) * 4096
                                    + (b2 - 0x80) * 64 + (b3 - 0x80) in
                          (0xD800 + (cp - 0x10000) / 1024)
                          :: (0xDC00 + (cp - 0x10000) mod 1024)
                          :: decode r3
                        else 0xFFFD :: decode r2
                    | [] => [0xFFFD]
                    end
                  else 0xFFFD :: decode r1
              | [] => [0xFFFD]
              end
            else 0xFFFD :: decode r0
        | [] => [0xFFFD]
        end
      else 0xFFFD :: decode r0
  end.

(** A string is well formed when its code units are in range and its
    surrogates come in pairs, a high one and then a low one. *)
Fixpoint well_formed (units : list Z) : bool :=
  match units with
  | [] => true
  | u :: rest =>
      if is_high u then
        match rest with
        | v :: rest' => is_low v && well_formed rest'
        | [] => false
        end
      else negb (is_low u) && (0 <=? u) && (u <=? 0xFFFF) && well_formed rest
  end.

(** The code points of a string, as iterating the string gives them: a
    surrogate pair is one code point, any other code unit is one. *)
Fixpoint code_points (units : list Z) : list (list Z) :=
  match units with
  | [] => []
  | u :: rest =>
      if is_high u then
        match rest with
        | v :: rest' =>
            if is_low v then [u; v] :: code_points rest'
            else [u] :: code_points rest
        | [] => [[u]]
        end
      else [u] :: code_points rest
  end.

Lemma is_high_true u : is_high u = true <-> 0xD800 <= u <= 0xDBFF.
Proof. unfold is_high. rewrite andb_true_iff, !Z.leb_le. reflexivity. Qed.

Lemma is_low_true u : is_low u = true <-> 0xDC00 <= u <= 0xDFFF.
Proof. unfold is_low. rewrite andb_true_iff, !Z.leb_le. reflexivity. Qed.

Lemma is_high_false u : is_high u = false <-> u < 0xD800 \/ 0xDBFF < u.
Proof.
  unfold is_high. rewrite andb_false_iff, !Z.leb_gt. reflexivity.
Qed.

Lemma is_low_false u : is_low u = false <-> u < 0xDC00 \/ 0xDFFF < u.
Proof.
  unfold is_low. rewrite andb_false_iff, !Z.leb_gt. reflexivity.
Qed.

(** Induction over a string, one code unit or one pair at a time. *)
Lemma list_ind_pairs {A : Type} (P : list A -> Prop) :
  P [] -> (forall a l, P l -> P (tail l) -> P (a :: l)) -> forall l, P l.
Proof.
  intros H0 Hstep.
  assert (H : forall l, P l /\ P (tail l)).
  { induction l as [|x l (IH1 & IH2)]; [easy|]. split; [now apply Hstep|easy]. }
  intros l. apply H.
Qed.

(** What [well_formed] says of the first code unit or pair. *)
Lemma well_formed_cons u rest :
  well_formed (u :: rest) = true ->
  (exists v rest', rest = v :: rest' /\ 0xD800 <= u <= 0xDBFF
                   /\ 0xDC00 <= v <= 0xDFFF /\ well_formed rest' = true)
  \/ ((0 <= u < 0xD800 \/ 0xDFFF < u <= 0xFFFF) /\ well_formed rest = true).
Proof.
  cbn [well_formed]. destruct (is_high u) eqn:Hh.
  - destruct rest as [|v rest']; [discriminate|].
    intros (Hl & Hwf)%andb_prop. left. exists v, rest'.
    apply is_high_true in Hh. apply is_low_true in Hl. easy.
  - intros H. apply andb_prop in H as (H & Hwf).
    apply andb_prop in H as (H & H2). apply andb_prop in H as (Hl & H1).
    apply negb_true_iff, is_low_false in Hl. apply is_high_false in Hh.
    apply Z.leb_le in H1, H2. right. split; [lia | assumption].
Qed.

Lemma encode_pair u v rest :
  0xD800 <= u <= 0xDBFF -> 0xDC00 <= v <= 0xDFFF ->
  encode (u :: v :: rest)
  = (let cp := 0x10000 + (u - 0xD800) * 1024 + (v - 0xDC00) in
     (0xF0 + cp / 262144) :: (0x80 + cp / 4096 mod 64)
     :: (0x80 + cp / 64 mod 64) :: (0x80 + cp mod 64) :: encode rest).
Proof.
  intros Hu Hv. cbn [encode].
  rewrite (proj2 (is_high_true u) Hu), (proj2 (is_low_true v) Hv).
  now decide_cmp.
Qed.

Lemma encode_single u rest :
  0 <= u < 0xD800 \/ 0xDFFF < u <= 0xFFFF ->
  encode (u :: rest)
  = (if u <? 0x80 then [u]
     else if u <? 0x800 then [0xC0 + u / 64; 0x80 + u mod 64]
     else [0xE0 + u / 4096; 0x80 + u / 64 mod 64; 0x80 + u mod 64])
    ++ encode rest.
Proof.
  intros Hu. cbn [encode].
  destruct (Z.ltb_spec u 0x80); [reflexivity|].
  destruct (Z.ltb_spec u 0x800); [reflexivity|].
  rewrite (proj2 (is_high_false u)), (proj2 (is_low_false u)) by lia.
  reflexivity.
Qed.

(** The bytes of the code points, and what they add up to. *)
Lemma two_bytes u :
  0x80 <= u < 0x800 ->
  0xC2 <= 0xC0 + u / 64 <= 0xDF /\ 0x80 <= 0x80 + u mod 64 <= 0xBF
  /\ (0xC0 + u / 64 - 0xC0) * 64 + (0x80 + u mod 64 - 0x80) = u.
Proof. intros. Z.div_mod_to_equations. lia. Qed.

Lemma three_bytes u :
  0x800 <= u <= 0xFFFF ->
  0xE0 <= 0xE0 + u / 4096 <= 0xEF
  /\ 0x80 <= 0x80 + u / 64 mod 64 <= 0xBF
  /\ 0x80 <= 0x80 + u mod 64 <= 0xBF
  /\ (0xE0 + u / 4096 = 0xE0 -> 0xA0 <= 0x80 + u / 64 mod 64)
  /\ (0xE0 + u / 4096 = 0xED -> u < 0xD800 \/ 0xDFFF < u ->
      0x80 + u / 64 mod 64 <= 0x9F)
  /\ (0xE0 + u / 4096 - 0xE0) * 4096 + (0x80 + u / 64 mod 64 - 0x80) * 64
     + (0x80 + u mod 64 - 0x80) = u.
Proof.
  intros.
  replace (u / 4096) with (u / 64 / 64)
    by (rewrite !Z.div_div by lia; reflexivity).
  Z.div_mod_to_equations. lia.
Qed.

Lemma four_bytes cp :
  0x10000 <= cp <= 0x10FFFF ->
  0xF0 <= 0xF0 + cp / 262144 <= 0xF4
  /\ 0x80 <= 0x80 + cp / 4096 mod 64 <= 0xBF
  /\ 0x80 <= 0x80 + cp / 64 mod 64 <= 0xBF
  /\ 0x80 <= 0x80 + cp mod 64 <= 0xBF
  /\ (0xF0 + cp / 262144 = 0xF0 -> 0x90 <= 0x80 + cp / 4096 mod 64)
  /\ (0xF0 + cp / 262144 = 0xF4 -> 0x80 + cp / 4096 mod 64 <= 0x8F)
  /\ (0xF0 + cp / 262144 - 0xF0) * 262144
     + (0x80 + cp / 4096 mod 64 - 0x80) * 4096
     + (0x80 + cp / 64 mod 64 - 0x80) * 64 + (0x80 + cp mod 64 - 0x80) = cp.
Proof.
  intros.
  replace (cp / 262144) with (cp / 64 / 64 / 64)
    by (rewrite !Z.div_div by lia; reflexivity).
  replace (cp / 4096) with (cp / 64 / 64)
    by (rewrite !Z.div_div by lia; reflexivity).
  Z.div_mod_to_equations. lia.
Qed.

Lemma pair_of_code_point u v :
  0xD800 <= u <= 0xDBFF -> 0xDC00 <= v <= 0xDFFF ->
  let cp := 0x10000 + (u - 0xD800) * 1024 + (v - 0xDC00) in
  0x10000 <= cp <= 0x10FFFF
  /\ 0xD800 + (cp - 0x10000) / 1024 = u
  /\ 0xDC00 + (cp - 0x10000) mod 1024 = v.
Proof. intros. subst cp. Z.div_mod_to_equations. lia. Qed.

(** One step of [decode]. *)
Lemma decode_cons b0 r0 :
  decode (b0 :: r0)
  = ltac:(let t := eval cbn [decode] in (decode (b0 :: r0)) in exact t).
Proof. reflexivity. Qed.

(** The sequences that [decode] takes as one code point. *)
Lemma decode_one b rest :
  b < 0x80 -> decode (b :: rest) = b :: decode rest.
Proof. intros. rewrite decode_cons. now decide_cmp. Qed.

Lemma decode_two b0 b1 rest :
  0xC2 <= b0 <= 0xDF -> 0x80 <= b1 <= 0xBF ->
  decode (b0 :: b1 :: rest) = ((b0 - 0xC0) * 64 + (b1 - 0x80)) :: decode rest.
Proof.
  intros. rewrite decode_cons. decide_cmp.
  unfold is_continuation. now decide_cmp.
Qed.

Lemma decode_three b0 b1 b2 rest :
  0xE0 <= b0 <= 0xEF -> 0x80 <= b1 <= 0xBF -> 0x80 <= b2 <= 0xBF ->
  (b0 = 0xE0 -> 0xA0 <= b1) -> (b0 = 0xED -> b1 <= 0x9F) ->
  decode (b0 :: b1 :: b2 :: rest)
  = ((b0 - 0xE0) * 4096 + (b1 - 0x80) * 64 + (b2 - 0x80)) :: decode rest.
Proof.
  intros H0 H1 H2 HE0 HED. rewrite decode_cons. decide_cmp.
  assert (S : second_of_three b0 b1 = true).
  { unfold second_of_three, is_continuation.
    destruct (Z.eqb_spec b0 0xE0) as [E|NE];
      [specialize (HE0 E)
      |destruct (Z.eqb_spec b0 0xED) as [E|NE']; [specialize (HED E)|]];
      now decide_cmp. }
  rewrite S. unfold is_continuation. now decide_cmp.
Qed.

Lemma decode_four b0 b1 b2 b3 rest :
  0xF0 <= b0 <= 0xF4 -> 0x80 <= b1 <= 0xBF -> 0x80 <= b2 <= 0xBF ->
  0x80 <= b3 <= 0xBF ->
  (b0 = 0xF0 -> 0x90 <= b1) -> (b0 = 0xF4 -> b1 <= 0x8F) ->
  decode (b0 :: b1 :: b2 :: b3 :: rest)
  = (let cp := (b0 - 0xF0) * 262144 + (b1 - 0x80) * 4096
               + (b2 - 0x80) * 64 + (b3 - 0x80) in
     (0xD800 + (cp - 0x10000) / 1024) :: (0xDC00 + (cp - 0x10000) mod 1024)
     :: decode rest).
Proof.
  intros H0 H1 H2 H3 HF0 HF4. rewrite decode_cons. decide_cmp.
  assert (S : second_of_four b0 b1 = true).
  { unfold second_of_four, is_continuation.
    destruct (Z.eqb_spec b0 0xF0) as [E|NE];
      [specialize (HF0 E)
      |destruct (Z.eqb_spec b0 0xF4) as [E|NE']; [specialize (HF4 E)|]];
      now decide_cmp. }
  rewrite S. unfold is_continuation. now decide_cmp.
Qed.

(** The bytes of a well-formed string are bytes. *)
Lemma encode_bytes units :
  well_formed units = true -> Forall (fun b => 0 <= b < 256) (encode units).
Proof.
  induction units as [|u rest IH IH'] using list_ind_pairs; intros Hwf.
  - constructor.
  - apply well_formed_cons in Hwf
      as [(v & rest' & -> & Hu & Hv & Hwf) | (Hu & Hwf)].
    + rewrite encode_pair by assumption. cbv zeta.
      destruct (pair_of_code_point u v Hu Hv) as (Hcp & _).
      destruct (four_bytes _ Hcp) as (B0 & B1 & B2 & B3 & _).
      repeat (apply Forall_cons; split; [lia|]).
      now apply IH'.
    + rewrite encode_single by assumption. apply Forall_app.
      split; [|now apply IH].
      destruct (Z.ltb_spec u 0x80); [|destruct (Z.ltb_spec u 0x800)].
      * repeat (apply Forall_cons; split; [lia|]). constructor.
      * destruct (two_bytes u) as (B0 & B1 & _); [lia|].
        repeat (apply Forall_cons; split; [lia|]). constructor.
      * destruct (three_bytes u) as (B0 & B1 & B2 & _); [lia|].
        repeat (apply Forall_cons; split; [lia|]). constructor.
Qed.

(** Decoding the bytes of a well-formed string gives the string. *)
Lemma utf8_decode_encode units :
  well_formed units = true -> decode (encode units) = units.
Proof.
  induction units as [|u rest IH IH'] using list_ind_pairs; intros Hwf.
  - reflexivity.
  - apply well_formed_cons in Hwf
      as [(v & rest' & -> & Hu & Hv & Hwf) | (Hu & Hwf)].
    + rewrite encode_pair by assumption. cbv zeta.
      destruct (pair_of_code_point u v Hu Hv) as (Hcp & Ehi & Elo).
      destruct (four_bytes _ Hcp) as (B0 & B1 & B2 & B3 & HF0 & HF4 & E).
      rewrite decode_four by assumption. cbv zeta.
      rewrite E, Ehi, Elo. cbn [tail] in IH'. now rewrite (IH' Hwf).
    + rewrite encode_single by assumption.
      destruct (Z.ltb_spec u 0x80); [|destruct (Z.ltb_spec u 0x800)];
        cbn [app].
      * rewrite decode_one by assumption. now rewrite (IH Hwf).
      * destruct (two_bytes u) as (B0 & B1 & E); [lia|].
        rewrite decode_two by assumption. now rewrite E, (IH Hwf).
      * destruct (three_bytes u) as (B0 & B1 & B2 & HE0 & HED & E); [lia|].
        assert (HED' : 0xE0 + u / 4096 = 0xED -> 0x80 + u / 64 mod 64 <= 0x9F)
          by (intros; apply HED; [assumption | lia]).
        rewrite decode_three by assumption.
        now rewrite E, (IH Hwf).
Qed.

Lemma well_formed_app a b :
  well_formed a = true -> well_formed b = true -> well_formed (a ++ b) = true.
Proof.
  intros Ha Hb. revert Ha.
  induction a as [|u rest IH IH'] using list_ind_pairs; intros Ha;
    [assumption|].
  apply well_formed_cons in Ha
    as [(v & rest' & -> & Hu & Hv & Hwf) | (Hu & Hwf)].
  - cbn [app well_formed].
    rewrite (proj2 (is_high_true u) Hu), (proj2 (is_low_true v) Hv).
    now apply IH'.
  - cbn [app well_formed].
    rewrite (proj2 (is_high_false u)), (proj2 (is_low_false u)) by lia.
    rewrite (IH Hwf). now decide_cmp.
Qed.

(** A string of ASCII characters is well formed. *)
Lemma well_formed_ascii units :
  Forall (fun u => 0 <= u < 128) units -> well_formed units = true.
Proof.
  induction 1 as [|u rest Hu _ IH]; [reflexivity|].
  cbn [well_formed].
  rewrite (proj2 (is_high_false u)), (proj2 (is_low_false u)) by lia.
  rewrite IH. now decide_cmp.
Qed.

End Utf8.

(** ** Buffer: base64 *)

Module Base64.
Local Open Scope Z_scope.

(** The character of a group of six bits. *)
Definition encode_sextet (n : Z) : Z :=
  if n <? 26 then 65 + n
  else if n <? 52 then 97 + (n - 26)
  else if n <? 62 then 48 + (n - 52)
  else if n =? 62 then 43
  else 47.

(** The six bits of a character, of the usual alphabet or of the one for
    URLs; [None] for any other character. *)
Definition decode_char (c : Z) : option Z :=
  if (65 <=? c) && (c <=? 90) then Some (c - 65)
  else if (97 <=? c) && (c <=? 122) then Some (c - 97 + 26)
  else if (48 <=? c) && (c <=? 57) then Some (c - 48 + 52)
  else if (c =? 43) || (c =? 45) then Some 62
  else if (c =? 47) || (c =? 95) then Some 63
  else None.

(** [buffer.toString('base64')]: three bytes give four characters, and
    the last one or two bytes are padded with [=]. *)
Fixpoint encode (bytes : list Z) : list Z :=
  match bytes with
  | [] => []
  | [a] =>
      [encode_sextet (a / 4); encode_sextet (a mod 4 * 16); 61; 61]
  | [a; b] =>
      [encode_sextet (a / 4); encode_sextet (a mod 4 * 16 + b / 16);
       encode_sextet (b mod 16 * 4); 61]
  | a :: b :: c :: rest =>
      encode_sextet (a / 4) :: encode_sextet (a mod 4 * 16 + b / 16)
      :: encode_sextet (b mod 16 * 4 + c / 64) :: encode_sextet (c mod 64)
      :: encode rest
  end.

(** The groups of six bits of a text: the decoder of [new Buffer(s,
    'base64')] passes over the characters outside the alphabets and stops
    at the first [=]. *)
Fixpoint sextets (chars : list Z) : list Z :=
  match chars with
  | [] => []
  | c :: rest =>
      match decode_char c with
      | Some n => n :: sextets rest
      | None => if c =? 61 then [] else sextets rest
      end
  end.

(** The bytes of the groups: a byte is written as soon as its bits are
    there, so two groups left over give one byte and three give two. *)
Fixpoint pack (groups : list Z) : list Z :=
  match groups with
  | a :: b :: c :: d :: rest =>
      (a * 4 + b / 16) :: (b mod 16 * 16 + c / 4) :: (c mod 4 * 64 + d)
      :: pack rest
  | [a; b; c] => [a * 4 + b / 16; b mod 16 * 16 + c / 4]
  | [a; b] => [a * 4 + b / 16]
  | _ => []
  end.

Definition decode (chars : list Z) : list Z := pack (sextets chars).

Definition is_byte (b : Z) : Prop := 0 <= b < 256.

Lemma sextet_bounds a b c :
  is_byte a -> is_byte b -> is_byte c ->
  0 <= a / 4 < 64 /\ 0 <= a mod 4 * 16 < 64
  /\ 0 <= a mod 4 * 16 + b / 16 < 64 /\ 0 <= b mod 16 * 4 < 64
  /\ 0 <= b mod 16 * 4 + c / 64 < 64 /\ 0 <= c mod 64 < 64.
Proof. unfold is_byte. intros. Z.div_mod_to_equations. lia. Qed.

Lemma pack_bytes a b c :
  is_byte a -> is_byte b -> is_byte c ->
  a / 4 * 4 + (a mod 4 * 16 + b / 16) / 16 = a
  /\ (a mod 4 * 16 + b / 16) mod 16 * 16 + (b mod 16 * 4 + c / 64) / 4 = b
  /\ (b mod 16 * 4 + c / 64) mod 4 * 64 + c mod 64 = c.
Proof. unfold is_byte. intros. Z.div_mod_to_equations. lia. Qed.

Lemma pack_bytes_end a b :
  is_byte a -> is_byte b ->
  a / 4 * 4 + a mod 4 * 16 / 16 = a
  /\ (a mod 4 * 16 + b / 16) mod 16 * 16 + b mod 16 * 4 / 4 = b.
Proof. unfold is_byte. intros. Z.div_mod_to_equations. lia. Qed.

Lemma decode_encode_sextet n :
  0 <= n < 64 ->
  decode_char (encode_sextet n) = Some n.
Proof.
  intros H. unfold encode_sextet.
  destruct (Z.ltb_spec n 26);
    [|destruct (Z.ltb_spec n 52);
      [|destruct (Z.ltb_spec n 62); [|destruct (Z.eqb_spec n 62)]]];
    unfold decode_char; decide_cmp; f_equal; lia.
Qed.

Lemma sextets_encode_sextet n rest :
  0 <= n < 64 ->
  sextets (encode_sextet n :: rest) = n :: sextets rest.
Proof.
  intros H. simpl. now rewrite decode_encode_sextet.
Qed.

Lemma sextets_pad rest : sextets (61 :: rest) = [].
Proof. reflexivity. Qed.

Lemma list_ind3 {A : Type} (P : list A -> Prop) :
  P [] -> (forall a, P [a]) -> (forall a b, P [a; b]) ->
  (forall a b c l, P l -> P (a :: b :: c :: l)) ->
  forall l, P l.
Proof.
  intros H0 H1 H2 H3.
  assert (H : forall l, P l /\ (forall a, P (a :: l))
                        /\ (forall a b, P (a :: b :: l))).
  { induction l as [|x l (IH0 & IH1 & IH2)]; [easy|].
    split; [apply IH1|]. split; [intros a; apply IH2|].
    intros a b. now apply H3. }
  intros l. apply H.
Qed.

(** Decoding gives back the bytes that were encoded. *)
Lemma base64_decode_encode bytes :
  Forall is_byte bytes -> decode (encode bytes) = bytes.
Proof.
  unfold decode.
  induction bytes as [|a|a b|a b c rest IH] using list_ind3; intros HB.
  - reflexivity.
  - apply Forall_cons in HB as (Ha & _).
    destruct (sextet_bounds a a a) as (B1 & B2 & _); try assumption.
    destruct (pack_bytes_end a a) as (P1 & _); try assumption.
    cbn [encode]. rewrite !sextets_encode_sextet, sextets_pad by assumption.
    cbn [pack]. now rewrite P1.
  - apply Forall_cons in HB as (Ha & HB).
    apply Forall_cons in HB as (Hb & _).
    destruct (sextet_bounds a b b) as (B1 & _ & B3 & B4 & _); try assumption.
    destruct (pack_bytes a b b) as (P1 & _); try assumption.
    destruct (pack_bytes_end a b) as (_ & P2); try assumption.
    cbn [encode]. rewrite !sextets_encode_sextet, sextets_pad by assumption.
    cbn [pack]. now rewrite P1, P2.
  - apply Forall_cons in HB as (Ha & HB).
    apply Forall_cons in HB as (Hb & HB).
    apply Forall_cons in HB as (Hc & HB).
    destruct (sextet_bounds a b c) as (B1 & _ & B3 & _ & B5 & B6);
      try assumption.
    destruct (pack_bytes a b c) as (P1 & P2 & P3); try assumption.
    cbn [encode]. rewrite !sextets_encode_sextet by assumption.
    cbn [pack]. now rewrite P1, P2, P3, (IH HB).
Qed.

End Base64.

(** ** JSON: numbers and strings *)

Module JsonText.
Local Open Scope Z_scope.

(** *** Numbers *)

Definition is_digit (c : Z) : bool := (48 <=? c) && (c <=? 57).

(** The decimal digits of a positive integer, the first one first. An
    integer below 10^21 is written with all its digits; [fuel] is the
    greatest number of them. *)
Fixpoint digits (fuel : nat) (n : Z) : list Z :=
  match fuel with
  | O => []
  | S fuel' =>
      if n <? 10 then [48 + n]
      else digits fuel' (n / 10) ++ [48 + n mod 10]
  end.

(** [String(n)] for an integer [n]. *)
Definition number_to_string (n : Z) : list Z :=
  if n =? 0 then [48]
  else if n <? 0 then 45 :: digits 21 (- n)
  else digits 21 n.

(** The number that a run of digits denotes, after [acc], and the text
    after the run. *)
Fixpoint parse_digits (s : list Z) (acc : Z) : Z * list Z :=
  match s with
  | [] => (acc, [])
  | c :: rest =>
      if is_digit c then parse_digits rest (acc * 10 + (c - 48))
      else (acc, s)
  end.

(** Where a number has a fraction or an exponent, which the embedding
    does not hold. *)
Definition continues_number (s : list Z) : bool :=
  match s with
  | c :: _ => (c =? 46) || (c =? 101) || (c =? 69)
  | [] => false
  end.

(** The digits of a JSON number, without the sign: [0], or a digit that
    is not [0] and the digits after it. *)
Definition parse_unsigned (s : list Z) : option (Z * list Z) :=
  match s with
  | [] => None
  | c :: rest =>
      if c =? 48 then
        if continues_number rest then None else Some (0, rest)
      else if is_digit c then
        let '(n, rest') := parse_digits rest (c - 48) in
        if continues_number rest' then None else Some (n, rest')
      else None
  end.

Definition parse_number (s : list Z) : option (Z * list Z) :=
  match s with
  | [] => None
  | c :: rest =>
      if c =? 45 then
        match parse_unsigned rest with
        | Some (n, rest') => Some (- n, rest')
        | None => None
        end
      else parse_unsigned s
  end.

(** *** Strings *)

Definition hex_digit (n : Z) : Z :=
  if n <? 10 then 48 + n else 97 + (n - 10).

Definition hex_value (c : Z) : option Z :=
  if (48 <=? c) && (c <=? 57) then Some (c - 48)
  else if (97 <=? c) && (c <=? 102) then Some (c - 97 + 10)
  else if (65 <=? c) && (c <=? 70) then Some (c - 65 + 10)
  else None.

(** How [JSON.stringify] writes one code unit of a string. *)
Definition quote_unit (c : Z) : list Z :=
  if c =? 34 then [92; 34]
  else if c =? 92 then [92; 92]
  else if c =? 8 then [92; 98]
  else if c =? 12 then [92; 102]
  else if c =? 10 then [92; 110]
  else if c =? 13 then [92; 114]
  else if c =? 9 then [92; 116]
  else if c <? 32 then
    [92; 117; 48; 48; hex_digit (c / 16); hex_digit (c mod 16)]
  else [c].

(** [Quote]: the string between double quotes. *)
Definition quote (s : jsstring) : list Z :=
  34 :: flat_map quote_unit s ++ [34].

(** The code unit that the character after a backslash stands for. *)
Definition unescape (e : Z) : option Z :=
  if e =? 34 then Some 34
  else if e =? 92 then Some 92
  else if e =? 47 then Some 47
  else if e =? 98 then Some 8
  else if e =? 102 then Some 12
  else if e =? 110 then Some 10
  else if e =? 114 then Some 13
  else if e =? 116 then Some 9
  else None.

Definition hex4 (h1 h2 h3 h4 : Z) : option Z :=
  match hex_value h1, hex_value h2, hex_value h3, hex_value h4 with
  | Some a, Some b, Some c, Some d => Some (((a * 16 + b) * 16 + c) * 16 + d)
  | _, _, _, _ => None
  end.

(** The string that starts after an opening double quote, and the text
    after its closing one. *)
Fixpoint parse_string (s : list Z) : option (jsstring * list Z) :=
  match s with
  | [] => None
  | c :: rest =>
      if c =? 34 then Some ([], rest)
      else if c =? 92 then
        match rest with
        | [] => None
        | e :: rest' =>
            if e =? 117 then
              match rest' with
              | h1 :: h2 :: h3 :: h4 :: rest'' =>
                  match hex4 h1 h2 h3 h4 with
                  | Some u =>
                      match parse_string rest'' with
                      | Some (str, after) => Some (u :: str, after)
                      | None => None
                      end
                  | None => None
                  end
              | _ => None
              end
            else
              match unescape e with
              | Some u =>
                  match parse_string rest' with
                  | Some (str, after) => Some (u :: str, after)
                  | None => None
                  end
              | None => None
              end
        end
      else if c <? 32 then None
      else
        match parse_string rest with
        | Some (str, after) => Some (c :: str, after)
        | None => None
        end
  end.

Definition digit_step (acc c : Z) : Z := acc * 10 + (c - 48).

(** The text that may follow a value: nothing, or a comma or a closing
    bracket or brace. *)
Definition follows_value (rest : list Z) : Prop :=
  match rest with
  | [] => True
  | c :: _ => c = 44 \/ c = 93 \/ c = 125
  end.

(** An integer that a double holds exactly. *)
Definition safe_integer (n : Z) : bool :=
  (- 2 ^ 53 <? n) && (n <? 2 ^ 53).

(** *** Reading back what was written *)

Lemma parse_digits_app run rest acc :
  Forall (fun c => is_digit c = true) run ->
  parse_digits (run ++ rest) acc = parse_digits rest (fold_left digit_step run acc).
Proof.
  intros H. revert acc. induction H as [|c run Hc _ IH]; intros acc.
  - reflexivity.
  - cbn [app parse_digits fold_left]. rewrite Hc. apply IH.
Qed.

Lemma parse_digits_stop rest acc :
  match rest with c :: _ => is_digit c = false | [] => True end ->
  parse_digits rest acc = (acc, rest).
Proof.
  destruct rest as [|c rest]; [reflexivity|]. cbn [parse_digits].
  now intros ->.
Qed.

(** The digits of [n] are digits, the first is not [0], and they denote
    [n]. *)
Lemma digits_spec fuel :
  forall n, 0 < n < 10 ^ Z.of_nat fuel ->
    Forall (fun c => is_digit c = true) (digits fuel n)
    /\ (exists c run, digits fuel n = c :: run /\ 49 <= c <= 57)
    /\ fold_left digit_step (digits fuel n) 0 = n.
Proof.
  induction fuel as [|fuel IH]; intros n Hn.
  - change (10 ^ Z.of_nat 0) with 1 in Hn. lia.
  - rewrite Nat2Z.inj_succ, Z.pow_succ_r in Hn by lia.
    cbn [digits]. destruct (Z.ltb_spec n 10) as [Hlt | Hge].
    + split; [|split].
      * constructor; [|constructor]. unfold is_digit. now decide_cmp.
      * exists (48 + n), []. split; [reflexivity | lia].
      * cbn [fold_left]. unfold digit_step. lia.
    + destruct (IH (n / 10)) as (Hd & (c & run & E & Hc) & Hv);
        [Z.div_mod_to_equations; lia|].
      split; [|split].
      * apply Forall_app. split; [assumption|].
        constructor; [|constructor]. unfold is_digit.
        assert (0 <= n mod 10 < 10) by (Z.div_mod_to_equations; lia).
        now decide_cmp.
      * exists c, (run ++ [48 + n mod 10]). rewrite E. easy.
      * rewrite fold_left_app, Hv. cbn [fold_left]. unfold digit_step.
        Z.div_mod_to_equations. lia.
Qed.

Lemma follows_value_no_digit rest :
  follows_value rest ->
  match rest with c :: _ => is_digit c = false | [] => True end.
Proof.
  destruct rest as [|c rest]; [easy|].
  unfold is_digit. intros [-> | [-> | ->]]; reflexivity.
Qed.

Lemma follows_value_ends_number rest :
  follows_value rest -> continues_number rest = false.
Proof.
  destruct rest as [|c rest]; [easy|].
  intros [-> | [-> | ->]]; reflexivity.
Qed.

Lemma parse_unsigned_digits n rest :
  0 < n < 10 ^ 21 -> follows_value rest ->
  parse_unsigned (digits 21 n ++ rest) = Some (n, rest).
Proof.
  intros Hn Hrest.
  destruct (digits_spec 21 n Hn) as (Hd & (c & run & E & Hc) & Hv).
  rewrite E in *. apply Forall_cons in Hd as (_ & Hd).
  cbn [app]. unfold parse_unsigned.
  assert (Hdc : is_digit c = true) by (unfold is_digit; now decide_cmp).
  rewrite Hdc. decide_cmp.
  rewrite parse_digits_app by assumption.
  rewrite parse_digits_stop by now apply follows_value_no_digit.
  rewrite follows_value_ends_number by assumption.
  cbn [fold_left] in Hv. unfold digit_step at 2 in Hv.
  replace (0 * 10 + (c - 48)) with (c - 48) in Hv by lia.
  now rewrite Hv.
Qed.

Lemma parse_number_to_string n rest :
  safe_integer n = true -> follows_value rest ->
  parse_number (number_to_string n ++ rest) = Some (n, rest).
Proof.
  unfold safe_integer. intros (Hlo & Hhi)%andb_prop Hrest.
  apply Z.ltb_lt in Hlo, Hhi.
  assert (2 ^ 53 < 10 ^ 21) by reflexivity.
  unfold number_to_string.
  destruct (Z.eqb_spec n 0) as [-> | Hne].
  - cbn. now rewrite follows_value_ends_number.
  - destruct (Z.ltb_spec n 0) as [Hneg | Hpos].
    + cbn [app parse_number]. decide_cmp.
      rewrite parse_unsigned_digits by (assumption || lia).
      f_equal. f_equal. lia.
    + destruct (digits_spec 21 n ltac:(lia)) as (_ & (c & run & E & Hc) & _).
      pose proof (parse_unsigned_digits n rest ltac:(lia) Hrest) as P.
      rewrite E in *. cbn [app parse_number]. now decide_cmp.
Qed.

(** One step of [parse_string]. *)
Lemma parse_string_cons c rest :
  parse_string (c :: rest)
  = ltac:(let t := eval cbn [parse_string] in (parse_string (c :: rest)) in
          exact t).
Proof. reflexivity. Qed.

Lemma hex_value_digit n :
  0 <= n < 16 -> hex_value (hex_digit n) = Some n.
Proof.
  intros H. unfold hex_digit.
  destruct (Z.ltb_spec n 10); unfold hex_value; decide_cmp; f_equal; lia.
Qed.

(** Reading one code unit as [quote_unit] wrote it. *)
Lemma parse_string_quote_unit c rest :
  0 <= c ->
  parse_string (quote_unit c ++ rest)
  = match parse_string rest with
    | Some (str, after) => Some (c :: str, after)
    | None => None
    end.
Proof.
  intros Hc. unfold quote_unit.
  destruct (Z.eqb_spec c 34) as [-> | ?]; [reflexivity|].
  destruct (Z.eqb_spec c 92) as [-> | ?]; [reflexivity|].
  destruct (Z.eqb_spec c 8) as [-> | ?]; [reflexivity|].
  destruct (Z.eqb_spec c 12) as [-> | ?]; [reflexivity|].
  destruct (Z.eqb_spec c 10) as [-> | ?]; [reflexivity|].
  destruct (Z.eqb_spec c 13) as [-> | ?]; [reflexivity|].
  destruct (Z.eqb_spec c 9) as [-> | ?]; [reflexivity|].
  destruct (Z.ltb_spec c 32) as [Hlt | Hge].
  - cbn [app]. rewrite parse_string_cons. cbn [Z.eqb Pos.eqb].
    unfold hex4. change (hex_value 48) with (Some 0).
    rewrite !hex_value_digit by (Z.div_mod_to_equations; lia).
    replace (((0 * 16 + 0) * 16 + c / 16) * 16 + c mod 16) with c
      by (Z.div_mod_to_equations; lia).
    reflexivity.
  - cbn [app]. rewrite parse_string_cons. now decide_cmp.
Qed.

Lemma parse_string_quote s rest :
  Forall (fun c => 0 <= c) s ->
  parse_string (flat_map quote_unit s ++ 34 :: rest) = Some (s, rest).
Proof.
  induction 1 as [|c s Hc _ IH]; [reflexivity|].
  cbn [flat_map]. rewrite <- app_assoc, parse_string_quote_unit by assumption.
  now rewrite IH.
Qed.

End JsonText.

(** ** JSON: values *)

Module JSON.
Import JsonText.
Local Open Scope Z_scope.

(** Induction over values, through the lists of arrays and objects. *)
Definition value_ind (P : value -> Prop)
    (HUndef : P VUndef) (HNull : P VNull)
    (HBool : forall b, P (VBool b)) (HNum : forall n, P (VNum n))
    (HStr : forall s, P (VStr s))
    (HArr : forall l, Forall P l -> P (VArr l))
    (HObj : forall kvs, Forall (fun kv => P (snd kv)) kvs -> P (VObj kvs))
  : forall v, P v :=
  fix go (v : value) : P v :=
    match v with
    | VUndef => HUndef
    | VNull => HNull
    | VBool b => HBool b
    | VNum n => HNum n
    | VStr s => HStr s
    | VArr l =>
        HArr l ((fix go_list (l : list value) : Forall P l :=
                   match l with
                   | [] => @Stdlib.Lists.List.Forall_nil _ P
                   | v :: l' => @Stdlib.Lists.List.Forall_cons _ P v l' (go v) (go_list l')
                   end) l)
    | VObj kvs =>
        HObj kvs
          ((fix go_list (kvs : list (jsstring * value))
              : Forall (fun kv => P (snd kv)) kvs :=
              match kvs with
              | [] => @Stdlib.Lists.List.Forall_nil _ _
              | kv :: kvs' =>
                  @Stdlib.Lists.List.Forall_cons _
                    (fun kv => P (snd kv)) kv kvs'
                    (go (snd kv)) (go_list kvs')
              end) kvs)
    end.

(** The texts of a list with commas between them. *)
Fixpoint join (texts : list (list Z)) : list Z :=
  match texts with
  | [] => []
  | [t] => t
  | t :: rest => t ++ 44 :: join rest
  end.

(** [JSON.stringify(v)], for [v] inside an array or an object, or an
    array or object itself. In an array [undefined] is written [null]; a
    property whose value is [undefined] is left out. *)
Fixpoint stringify (v : value) : list Z :=
  match v with
  | VUndef | VNull => lit "null"
  | VBool true => lit "true"
  | VBool false => lit "false"
  | VNum n => number_to_string n
  | VStr s => quote s
  | VArr l => 91 :: join (map stringify l) ++ [93]
  | VObj kvs =>
      123 :: join ((fix members (kvs : list (jsstring * value)) :=
                      match kvs with
                      | [] => []
                      | (k, VUndef) :: rest => members rest
                      | (k, v) :: rest =>
                          (quote k ++ 58 :: stringify v) :: members rest
                      end) kvs) ++ [125]
  end.

Definition is_whitespace (c : Z) : bool :=
  (c =? 32) || (c =? 9) || (c =? 10) || (c =? 13).

Fixpoint skip_whitespace (s : list Z) : list Z :=
  match s with
  | [] => []
  | c :: rest => if is_whitespace c then skip_whitespace rest else s
  end.

(** The text after [word], where the text starts with it. *)
Fixpoint expect (word s : list Z) : option (list Z) :=
  match word, s with
  | [], _ => Some s
  | w :: word', c :: rest => if w =? c then expect word' rest else None
  | _ :: _, [] => None
  end.

(** Setting a property: a new key comes last, a key that is there keeps
    its place and takes the new value. *)
Fixpoint set_property (kvs : list (jsstring * value)) (k : jsstring)
    (v : value) : list (jsstring * value) :=
  match kvs with
  | [] => [(k, v)]
  | (k', v') :: rest =>
      if bool_decide (k' = k) then (k, v) :: rest
      else (k', v') :: set_property rest k v
  end.

(** The object of the members of an object text, set in their order. *)
Definition build_object (members : list (jsstring * value))
  : list (jsstring * value) :=
  fold_left (fun kvs kv => set_property kvs (fst kv) (snd kv)) members [].

(** The value that starts the text, and the text after it. Arrays and
    objects nest, and [fuel] bounds the calls. *)
Fixpoint parse_value (fuel : nat) (s : list Z) : option (value * list Z) :=
  match fuel with
  | O => None
  | S fuel' =>
      match skip_whitespace s with
      | [] => None
      | c :: rest =>
          if c =? 110 then
            match expect (lit "ull") rest with
            | Some after => Some (VNull, after)
            | None => None
            end
          else if c =? 116 then
            match expect (lit "rue") rest with
            | Some after => Some (VBool true, after)
            | None => None
            end
          else if c =? 102 then
            match expect (lit "alse") rest with
            | Some after => Some (VBool false, after)
            | None => None
            end
          else if c =? 34 then
            match parse_string rest with
            | Some (str, after) => Some (VStr str, after)
            | None => None
            end
          else if c =? 91 then
            match skip_whitespace rest with
            | [] => None
            | c' :: rest' =>
                if c' =? 93 then Some (VArr [], rest')
                else
                  match parse_elements fuel' rest with
                  | Some (l, after) => Some (VArr l, after)
                  | None => None
                  end
            end
          else if c =? 123 then
            match skip_whitespace rest with
            | [] => None
            | c' :: rest' =>
                if c' =? 125 then Some (VObj [], rest')
                else
                  match parse_members fuel' rest with
                  | Some (members, after) =>
                      Some (VObj (build_object members), after)
                  | None => None
                  end
            end
          else
            match parse_number (c :: rest) with
            | Some (n, after) => Some (VNum n, after)
            | None => None
            end
      end
  end

with parse_elements (fuel : nat) (s : list Z)
  : option (list value * list Z) :=
  match fuel with
  | O => None
  | S fuel' =>
      match parse_value fuel' s with
      | None => None
      | Some (v, rest) =>
          match skip_whitespace rest with
          | [] => None
          | c :: rest' =>
              if c =? 44 then
                match parse_elements fuel' rest' with
                | Some (l, after) => Some (v :: l, after)
                | None => None
                end
              else if c =? 93 then Some ([v], rest')
              else None
          end
      end
  end

with parse_members (fuel : nat) (s : list Z)
  : option (list (jsstring * value) * list Z) :=
  match fuel with
  | O => None
  | S fuel' =>
      match skip_whitespace s with
      | [] => None
      | q :: rest =>
          if q =? 34 then
            match parse_string rest with
            | None => None
            | Some (k, rest1) =>
                match skip_whitespace rest1 with
                | [] => None
                | colon :: rest2 =>
                    if colon =? 58 then
                      match parse_value fuel' rest2 with
                      | None => None
                      | Some (v, rest3) =>
                          match skip_whitespace rest3 with
                          | [] => None
                          | c :: rest4 =>
                              if c =? 44 then
                                match parse_members fuel' rest4 with
                                | Some (members, after) =>
                                    Some ((k, v) :: members, after)
                                | None => None
                                end
                              else if c =? 125 then Some ([(k, v)], rest4)
                              else None
                          end
                      end
                    else None
                end
            end
          else None
      end
  end.

Definition unexpected_token : exn := JsSyntaxError (lit "Unexpected token").

(** [JSON.parse(text)]: one value, and only whitespace after it. *)
Definition parse (text : list Z) : outcome value :=
  match parse_value (S (length text)) text with
  | Some (v, rest) =>
      match skip_whitespace rest with
      | [] => Ok v
      | _ :: _ => Throw unexpected_token
      end
  | None => Throw unexpected_token
  end.

(** The values that [JSON.parse] gives back as [JSON.stringify] was given
    them: no [undefined], integers that a double holds, well-formed
    strings, objects whose keys differ. *)
Fixpoint well_formed (v : value) : bool :=
  match v with
  | VUndef => false
  | VNull | VBool _ => true
  | VNum n => safe_integer n
  | VStr s => Utf8.well_formed s
  | VArr l => forallb well_formed l
  | VObj kvs =>
      bool_decide (NoDup (map fst kvs))
      && forallb (fun kv => Utf8.well_formed (fst kv) && well_formed (snd kv))
           kvs
  end.

(** The members of an object as [stringify] writes them. *)
Fixpoint members_text (kvs : list (jsstring * value)) : list (list Z) :=
  match kvs with
  | [] => []
  | (k, VUndef) :: rest => members_text rest
  | (k, v) :: rest => (quote k ++ 58 :: stringify v) :: members_text rest
  end.

(** The depth of calls that reading a value back takes. *)
Fixpoint size (v : value) : nat :=
  match v with
  | VArr l => S (list_sum (map (fun v => S (size v)) l))
  | VObj kvs => S (list_sum (map (fun kv => S (size (snd kv))) kvs))
  | _ => 1
  end.

(** The first character of a value's text: it is no whitespace and it
    closes nothing. *)
Definition starts_value (c : Z) : Prop :=
  c = 110 \/ c = 116 \/ c = 102 \/ c = 34 \/ c = 91 \/ c = 123 \/ c = 45
  \/ 48 <= c <= 57.

(** [v] is read back from its text, whatever follows the text. *)
Definition reads_back (v : value) : Prop :=
  well_formed v = true ->
  forall fuel rest,
    (size v <= fuel)%nat -> follows_value rest ->
    parse_value fuel (stringify v ++ rest) = Some (v, rest).

Definition is_ascii (c : Z) : Prop := 0 <= c < 128.

(** *** Reading back what was written *)

Lemma stringify_object kvs :
  stringify (VObj kvs) = 123 :: join (members_text kvs) ++ [125].
Proof.
  reflexivity.
Qed.

Lemma skip_whitespace_head c rest :
  is_whitespace c = false -> skip_whitespace (c :: rest) = c :: rest.
Proof. intros H. cbn [skip_whitespace]. now rewrite H. Qed.

Lemma starts_value_spec c :
  starts_value c ->
  is_whitespace c = false /\ c <> 93 /\ c <> 125 /\ c <> 44.
Proof.
  unfold starts_value, is_whitespace. intros H.
  split; [decide_cmp; reflexivity | lia].
Qed.

Lemma number_to_string_head n :
  safe_integer n = true ->
  exists c tl, number_to_string n = c :: tl /\ (c = 45 \/ 48 <= c <= 57).
Proof.
  unfold safe_integer. intros (Hlo & Hhi)%andb_prop.
  apply Z.ltb_lt in Hlo, Hhi.
  assert (2 ^ 53 < 10 ^ 21) by reflexivity.
  unfold number_to_string.
  destruct (Z.eqb_spec n 0); [exists 48, []; split; [reflexivity | lia]|].
  destruct (Z.ltb_spec n 0).
  - eexists _, _. split; [reflexivity | now left].
  - destruct (digits_spec 21 n ltac:(lia)) as (_ & (c & run & E & Hc) & _).
    exists c, run. split; [assumption | lia].
Qed.

Lemma stringify_head v :
  well_formed v = true ->
  exists c tl, stringify v = c :: tl /\ starts_value c.
Proof.
  unfold starts_value.
  destruct v as [| |[|]|n|s|l|kvs]; cbn [well_formed stringify]; intros H;
    try discriminate H;
    try (eexists _, _; split; [reflexivity | lia]);
    try (exists 110, (lit "ull"); split; [reflexivity | lia]);
    try (exists 116, (lit "rue"); split; [reflexivity | lia]);
    try (exists 102, (lit "alse"); split; [reflexivity | lia]).
  destruct (number_to_string_head n H) as (c & tl & E & Hc).
  exists c, tl. split; [assumption | lia].
Qed.

Lemma expect_app word rest : expect word (word ++ rest) = Some rest.
Proof.
  induction word as [|w word IH]; [now destruct rest|].
  cbn [app expect]. now rewrite Z.eqb_refl.
Qed.

Lemma well_formed_nonneg s :
  Utf8.well_formed s = true -> Forall (fun c => 0 <= c) s.
Proof.
  induction s as [|u rest IH IH'] using Utf8.list_ind_pairs; intros H;
    [constructor|].
  apply Utf8.well_formed_cons in H
    as [(v & rest' & -> & Hu & Hv & Hwf) | (Hu & Hwf)].
  - constructor; [lia|]. constructor; [lia|]. now apply IH'.
  - constructor; [lia|]. now apply IH.
Qed.

Lemma set_property_new kvs k v :
  k ∉ map fst kvs -> set_property kvs k v = kvs ++ [(k, v)].
Proof.
  induction kvs as [|[k' v'] kvs IH]; intros H; [reflexivity|].
  cbn [set_property]. cbn [map fst] in H.
  apply not_elem_of_cons in H as (Hne & H).
  rewrite bool_decide_eq_false_2 by congruence.
  now rewrite IH.
Qed.

Lemma build_object_from acc kvs :
  NoDup (map fst (acc ++ kvs)) ->
  fold_left (fun kvs kv => set_property kvs (fst kv) (snd kv)) kvs acc
  = acc ++ kvs.
Proof.
  revert acc. induction kvs as [|[k v] kvs IH]; intros acc H.
  - now rewrite app_nil_r.
  - cbn [fold_left fst snd].
    rewrite set_property_new.
    + rewrite IH; rewrite <- app_assoc; [reflexivity | assumption].
    + rewrite map_app in H. apply NoDup_app in H as (_ & H & _).
      intros Hin. apply (H k Hin). cbn [map fst]. apply list_elem_of_here.
Qed.

(** An object whose keys differ is built as its members stand. *)
Lemma build_object_nodup kvs :
  NoDup (map fst kvs) -> build_object kvs = kvs.
Proof. intros H. now apply (build_object_from [] kvs). Qed.

(** One step of [parse_value], of [parse_elements], of [parse_members]. *)
Lemma parse_value_step fuel s :
  parse_value (S fuel) s
  = ltac:(let t := eval cbn [parse_value] in (parse_value (S fuel) s) in
          exact t).
Proof. reflexivity. Qed.

Lemma parse_elements_step fuel s :
  parse_elements (S fuel) s
  = ltac:(let t := eval cbn [parse_elements] in (parse_elements (S fuel) s) in
          exact t).
Proof. reflexivity. Qed.

Lemma parse_members_step fuel s :
  parse_members (S fuel) s
  = ltac:(let t := eval cbn [parse_members] in (parse_members (S fuel) s) in
          exact t).
Proof. reflexivity. Qed.

Lemma list_sum_map_cons {A : Type} (f : A -> nat) (x : A) (l : list A) :
  list_sum (map f (x :: l)) = (f x + list_sum (map f l))%nat.
Proof. reflexivity. Qed.

Lemma join_cons t texts :
  texts <> [] -> join (t :: texts) = t ++ 44 :: join texts.
Proof. destruct texts; [easy | reflexivity]. Qed.

Lemma parse_elements_join l :
  l <> [] -> Forall reads_back l -> forallb well_formed l = true ->
  forall fuel rest,
    (list_sum (map (fun v => S (size v)) l) <= fuel)%nat ->
    parse_elements fuel (join (map stringify l) ++ 93 :: rest) = Some (l, rest).
Proof.
  intros Hne HP. induction HP as [|v l Hv _ IH]; [easy|].
  intros Hwf fuel rest Hfuel. cbn [forallb] in Hwf.
  apply andb_prop in Hwf as (Hwfv & Hwfl).
  rewrite list_sum_map_cons in Hfuel.
  destruct fuel as [|fuel]; [lia|]. rewrite parse_elements_step.
  destruct l as [|v' l].
  - cbn [map join].
    rewrite (Hv Hwfv fuel (93 :: rest)) by (try lia; right; now left).
    rewrite skip_whitespace_head by reflexivity. now decide_cmp.
  - change (map stringify (v :: v' :: l))
      with (stringify v :: map stringify (v' :: l)).
    rewrite join_cons, <- app_assoc by easy. cbn [app].
    rewrite (Hv Hwfv fuel) by (try lia; now left).
    rewrite skip_whitespace_head by reflexivity. decide_cmp.
    rewrite IH; [reflexivity | easy | assumption | lia].
Qed.

Lemma members_text_cons k v rest :
  well_formed v = true ->
  members_text ((k, v) :: rest)
  = (quote k ++ 58 :: stringify v) :: members_text rest.
Proof. destruct v; intros H; try discriminate H; reflexivity. Qed.

Lemma parse_quote k rest :
  Utf8.well_formed k = true ->
  parse_string (tail (quote k) ++ rest) = Some (k, rest).
Proof.
  intros H. unfold quote. cbn [tail]. rewrite <- app_assoc. cbn [app].
  apply parse_string_quote. now apply well_formed_nonneg.
Qed.

Lemma parse_members_join kvs :
  kvs <> [] -> Forall (fun kv => reads_back (snd kv)) kvs ->
  forallb (fun kv => Utf8.well_formed (fst kv) && well_formed (snd kv)) kvs
    = true ->
  forall fuel rest,
    (list_sum (map (fun kv => S (size (snd kv))) kvs) <= fuel)%nat ->
    parse_members fuel (join (members_text kvs) ++ 125 :: rest)
    = Some (kvs, rest).
Proof.
  intros Hne HP. induction HP as [|[k v] kvs Hv _ IH]; [easy|].
  intros Hwf fuel rest Hfuel. cbn [forallb fst snd] in Hwf.
  apply andb_prop in Hwf as (Hwfkv & Hwfl).
  apply andb_prop in Hwfkv as (Hwfk & Hwfv).
  rewrite list_sum_map_cons in Hfuel. cbn [snd] in Hfuel, Hv.
  destruct fuel as [|fuel]; [lia|]. rewrite parse_members_step.
  rewrite members_text_cons by assumption.
  destruct kvs as [|[k' v'] kvs].
  - cbn [members_text join]. rewrite <- app_assoc.
    change (quote k) with (34 :: tail (quote k)). cbn [app].
    rewrite skip_whitespace_head by reflexivity. decide_cmp.
    rewrite parse_quote by assumption.
    rewrite skip_whitespace_head by reflexivity. decide_cmp.
    rewrite (Hv Hwfv fuel (125 :: rest)) by (try lia; right; now right).
    rewrite skip_whitespace_head by reflexivity. now decide_cmp.
  - cbn [forallb fst snd] in Hwfl.
    pose proof Hwfl as Hwfl'.
    apply andb_prop in Hwfl' as (Hwfkv' & _).
    apply andb_prop in Hwfkv' as (_ & Hwfv').
    assert (Hmembers : members_text ((k', v') :: kvs) <> [])
      by now rewrite members_text_cons.
    rewrite join_cons, <- !app_assoc by assumption.
    change (quote k) with (34 :: tail (quote k)). cbn [app].
    rewrite skip_whitespace_head by reflexivity. decide_cmp.
    rewrite parse_quote by assumption.
    rewrite skip_whitespace_head by reflexivity. decide_cmp.
    rewrite (Hv Hwfv fuel) by (try lia; now left).
    rewrite skip_whitespace_head by reflexivity. decide_cmp.
    rewrite IH; [reflexivity | easy | assumption | lia].
Qed.

Lemma join_head t texts c tl :
  t = c :: tl -> exists tl', join (t :: texts) = c :: tl'.
Proof.
  intros ->. destruct texts as [|t' texts]; eexists; reflexivity.
Qed.

(** Every well-formed value is read back from its text. *)
Lemma parse_value_stringify v : reads_back v.
Proof.
  induction v as [| |b|n|s|l IH|kvs IH] using value_ind;
    intros Hwf fuel rest Hfuel Hrest;
    (destruct fuel as [|fuel]; [cbn [size] in Hfuel; lia|]).
  - discriminate Hwf.
  - rewrite parse_value_step. cbn [stringify].
    change (lit "null") with (110 :: lit "ull"). cbn [app].
    rewrite skip_whitespace_head by reflexivity. decide_cmp.
    now rewrite expect_app.
  - rewrite parse_value_step. destruct b; cbn [stringify].
    + change (lit "true") with (116 :: lit "rue"). cbn [app].
      rewrite skip_whitespace_head by reflexivity. decide_cmp.
      now rewrite expect_app.
    + change (lit "false") with (102 :: lit "alse"). cbn [app].
      rewrite skip_whitespace_head by reflexivity. decide_cmp.
      now rewrite expect_app.
  - rewrite parse_value_step. cbn [stringify well_formed] in *.
    destruct (number_to_string_head n Hwf) as (c & tl & E & Hc).
    pose proof (parse_number_to_string n rest Hwf Hrest) as Hn.
    rewrite E in *. cbn [app] in *.
    rewrite skip_whitespace_head
      by (unfold is_whitespace; decide_cmp; reflexivity).
    decide_cmp. now rewrite Hn.
  - rewrite parse_value_step. cbn [stringify well_formed] in *.
    change (quote s) with (34 :: tail (quote s)). cbn [app].
    rewrite skip_whitespace_head by reflexivity. decide_cmp.
    now rewrite parse_quote.
  - rewrite parse_value_step. cbn [stringify well_formed size] in *.
    cbn [app]. rewrite skip_whitespace_head by reflexivity. decide_cmp.
    destruct l as [|v l].
    + cbn [map join app]. rewrite skip_whitespace_head by reflexivity.
      now decide_cmp.
    + assert (Hwfv : well_formed v = true)
        by (cbn [forallb] in Hwf; now apply andb_prop in Hwf).
      destruct (stringify_head v Hwfv) as (c & tl & E & Hc).
      destruct (join_head _ (map stringify l) _ _ E) as (tl' & Ej).
      apply starts_value_spec in Hc as (Hws & H93 & _).
      rewrite <- app_assoc. cbn [app].
      change (map stringify (v :: l)) with (stringify v :: map stringify l).
      rewrite Ej. cbn [app]. rewrite skip_whitespace_head by assumption.
      decide_cmp. rewrite app_comm_cons, <- Ej.
      change (stringify v :: map stringify l) with (map stringify (v :: l)).
      now rewrite parse_elements_join by (easy || lia).
  - rewrite parse_value_step. rewrite stringify_object.
    cbn [well_formed size] in *. apply andb_prop in Hwf as (Hnd & Hwf).
    apply bool_decide_eq_true in Hnd.
    cbn [app]. rewrite skip_whitespace_head by reflexivity. decide_cmp.
    destruct kvs as [|[k v] kvs].
    + cbn [members_text join app]. rewrite skip_whitespace_head by reflexivity.
      now decide_cmp.
    + assert (Hwfv : well_formed v = true).
      { cbn [forallb fst snd] in Hwf. apply andb_prop in Hwf as (Hkv & _).
        now apply andb_prop in Hkv. }
      assert (Ej : exists tl, join (members_text ((k, v) :: kvs)) = 34 :: tl).
      { rewrite members_text_cons by assumption.
        apply (join_head _ _ _ (tail (quote k) ++ 58 :: stringify v)).
        reflexivity. }
      destruct Ej as (tl & Ej).
      rewrite <- app_assoc. cbn [app]. rewrite Ej. cbn [app].
      rewrite skip_whitespace_head by reflexivity. decide_cmp.
      rewrite app_comm_cons, <- Ej.
      rewrite parse_members_join
        by (easy || (apply Nat.succ_le_mono; exact Hfuel)).
      now rewrite build_object_nodup.
Qed.

(** The text of a value is at least as long as reading it back is deep. *)
Lemma size_le_length v :
  well_formed v = true -> (size v <= length (stringify v))%nat.
Proof.
  induction v as [| |b|n|s|l IH|kvs IH] using value_ind; intros Hwf.
  - discriminate Hwf.
  - cbn. lia.
  - destruct b; cbn; lia.
  - destruct (number_to_string_head n Hwf) as (c & tl & E & _).
    cbn [stringify size]. rewrite E. cbn [length]. lia.
  - cbn [stringify size]. unfold quote. cbn [length]. lia.
  - cbn [stringify size well_formed length] in *. rewrite length_app.
    cbn [length]. apply le_n_S.
    induction IH as [|v l Hv _ IHl]; [cbn; lia|].
    cbn [forallb] in Hwf. apply andb_prop in Hwf as (Hwfv & Hwfl).
    rewrite list_sum_map_cons. specialize (Hv Hwfv). specialize (IHl Hwfl).
    destruct l as [|v' l].
    + cbn [map join list_sum fold_right] in *. lia.
    + change (map stringify (v :: v' :: l))
        with (stringify v :: map stringify (v' :: l)).
      rewrite join_cons by easy. rewrite length_app. cbn [length]. lia.
  - rewrite stringify_object.
    cbn [size well_formed length] in *. rewrite length_app.
    cbn [length]. apply le_n_S. apply andb_prop in Hwf as (_ & Hwf).
    induction IH as [|[k v] kvs Hv _ IHl]; [cbn; lia|].
    cbn [forallb fst snd] in Hwf. apply andb_prop in Hwf as (Hkv & Hwfl).
    apply andb_prop in Hkv as (_ & Hwfv).
    rewrite list_sum_map_cons. cbn [snd] in *.
    specialize (Hv Hwfv). specialize (IHl Hwfl).
    rewrite members_text_cons by assumption.
    destruct kvs as [|[k' v'] kvs].
    + cbn [members_text map join list_sum fold_right] in *.
      rewrite length_app.
      cbn [length]. lia.
    + assert (Hmembers : members_text ((k', v') :: kvs) <> []).
      { cbn [forallb fst snd] in Hwfl. apply andb_prop in Hwfl as (Hkv' & _).
        apply andb_prop in Hkv' as (_ & Hwfv').
        now rewrite members_text_cons. }
      rewrite join_cons by assumption. rewrite !length_app. cbn [length].
      lia.
Qed.

(** [JSON.parse(JSON.stringify(v))] is [v]. *)
Lemma parse_stringify v :
  well_formed v = true -> parse (stringify v) = Ok v.
Proof.
  intros Hwf. unfold parse.
  pose proof (parse_value_stringify v Hwf (S (length (stringify v))) []
                ltac:(pose proof (size_le_length v Hwf); lia) I) as H.
  rewrite app_nil_r in H. now rewrite H.
Qed.

(** *** The text is a well-formed string *)

Lemma well_formed_cons_ascii c s :
  is_ascii c -> Utf8.well_formed s = true -> Utf8.well_formed (c :: s) = true.
Proof.
  intros Hc Hs. apply (Utf8.well_formed_app [c] s); [|assumption].
  apply Utf8.well_formed_ascii. now constructor.
Qed.

Lemma digits_ascii fuel n :
  0 < n < 10 ^ Z.of_nat fuel -> Forall is_ascii (digits fuel n).
Proof.
  intros Hn. destruct (digits_spec fuel n Hn) as (Hd & _).
  eapply Forall_impl; [exact Hd|].
  intros c (H1 & H2)%andb_prop. apply Z.leb_le in H1, H2.
  unfold is_ascii. lia.
Qed.

Lemma number_to_string_ascii n :
  safe_integer n = true -> Forall is_ascii (number_to_string n).
Proof.
  unfold safe_integer. intros (Hlo & Hhi)%andb_prop.
  apply Z.ltb_lt in Hlo, Hhi.
  assert (2 ^ 53 < 10 ^ 21) by reflexivity.
  unfold number_to_string.
  destruct (Z.eqb_spec n 0); cbn [negb];
    [repeat constructor; unfold is_ascii; lia|].
  destruct (Z.ltb_spec n 0); cbn [negb].
  - constructor; [unfold is_ascii; lia|]. apply digits_ascii. lia.
  - apply digits_ascii. lia.
Qed.

Lemma hex_digit_ascii n : 0 <= n < 16 -> is_ascii (hex_digit n).
Proof.
  intros H. unfold hex_digit, is_ascii. destruct (Z.ltb_spec n 10); lia.
Qed.

(** A code unit is written as itself, or as ASCII characters. *)
Lemma quote_unit_cases c :
  0 <= c -> quote_unit c = [c] \/ (c < 128 /\ Forall is_ascii (quote_unit c)).
Proof.
  intros Hc. unfold quote_unit.
  assert (Hhi : is_ascii (hex_digit (c / 16)) \/ 32 <= c).
  { destruct (Z.ltb_spec c 32); [left | now right].
    apply hex_digit_ascii. Z.div_mod_to_equations. lia. }
  assert (Hlo : is_ascii (hex_digit (c mod 16)))
    by (apply hex_digit_ascii; Z.div_mod_to_equations; lia).
  repeat match goal with
         | |- context [?a =? ?b] => destruct (Z.eqb_spec a b); cbn [negb]
         | |- context [?a <? ?b] => destruct (Z.ltb_spec a b); cbn [negb]
         end;
    try (now left);
    (right; split; [lia|]);
    repeat (constructor; [first [assumption | unfold is_ascii; lia]|]);
    try constructor.
  - destruct Hhi; [assumption | lia].
  - constructor; [assumption | constructor].
Qed.

Lemma flat_map_quote_unit_well_formed s :
  Utf8.well_formed s = true ->
  Utf8.well_formed (flat_map quote_unit s) = true.
Proof.
  induction s as [|u rest IH IH'] using Utf8.list_ind_pairs; intros H;
    [reflexivity|].
  apply Utf8.well_formed_cons in H
    as [(v & rest' & -> & Hu & Hv & Hwf) | (Hu & Hwf)].
  - cbn [flat_map].
    destruct (quote_unit_cases u) as [-> | (? & _)]; [lia| |lia].
    destruct (quote_unit_cases v) as [-> | (? & _)]; [lia| |lia].
    cbn [app Utf8.well_formed].
    rewrite (proj2 (Utf8.is_high_true u) Hu), (proj2 (Utf8.is_low_true v) Hv).
    now apply IH'.
  - cbn [flat_map].
    destruct (quote_unit_cases u) as [-> | (? & Hascii)]; [lia| |].
    + cbn [app Utf8.well_formed].
      rewrite (proj2 (Utf8.is_high_false u)), (proj2 (Utf8.is_low_false u))
        by lia.
      rewrite (IH Hwf). now decide_cmp.
    + apply Utf8.well_formed_app; [|now apply IH].
      now apply Utf8.well_formed_ascii.
Qed.

Lemma quote_well_formed s :
  Utf8.well_formed s = true -> Utf8.well_formed (quote s) = true.
Proof.
  intros H. unfold quote.
  apply well_formed_cons_ascii; [unfold is_ascii; lia|].
  apply Utf8.well_formed_app; [|reflexivity].
  now apply flat_map_quote_unit_well_formed.
Qed.

Lemma join_well_formed texts :
  Forall (fun t => Utf8.well_formed t = true) texts ->
  Utf8.well_formed (join texts) = true.
Proof.
  induction 1 as [|t texts Ht _ IH]; [reflexivity|].
  destruct texts as [|t' texts]; [assumption|].
  rewrite join_cons by easy.
  apply Utf8.well_formed_app; [assumption|].
  apply well_formed_cons_ascii; [unfold is_ascii; lia | assumption].
Qed.

(** The text of a well-formed value is a well-formed string. *)
Lemma stringify_well_formed v :
  well_formed v = true -> Utf8.well_formed (stringify v) = true.
Proof.
  induction v as [| |b|n|s|l IH|kvs IH] using value_ind; intros Hwf.
  - discriminate Hwf.
  - reflexivity.
  - now destruct b.
  - apply Utf8.well_formed_ascii. now apply number_to_string_ascii.
  - now apply quote_well_formed.
  - cbn [stringify well_formed] in *.
    apply well_formed_cons_ascii; [unfold is_ascii; lia|].
    apply Utf8.well_formed_app; [|reflexivity].
    apply join_well_formed.
    induction IH as [|v l Hv _ IHl]; [constructor|].
    cbn [forallb] in Hwf. apply andb_prop in Hwf as (Hwfv & Hwfl).
    cbn [map]. constructor; [now apply Hv | now apply IHl].
  - rewrite stringify_object. cbn [well_formed] in Hwf.
    apply andb_prop in Hwf as (_ & Hwf).
    apply well_formed_cons_ascii; [unfold is_ascii; lia|].
    apply Utf8.well_formed_app; [|reflexivity].
    apply join_well_formed.
    induction IH as [|[k v] kvs Hv _ IHl]; [constructor|].
    cbn [forallb fst snd] in Hwf. apply andb_prop in Hwf as (Hkv & Hwfl).
    apply andb_prop in Hkv as (Hwfk & Hwfv).
    rewrite members_text_cons by assumption.
    constructor; [|now apply IHl].
    apply Utf8.well_formed_app; [now apply quote_well_formed|].
    apply well_formed_cons_ascii; [unfold is_ascii; lia | now apply Hv].
Qed.

End JSON.

(** ** The catalog *)

Module Catalog.

(** Modelled from the spec: the descriptors of [src/catalog], of which the
    forges only call the accessors. A type is an [ObjectType] (a record
    shape: name, description, ordered fields, constructor from field
    values) or any other type, known by its name. *)
Record ObjectField (T : Type) : Type := mkObjectField {
  field_getName : jsstring;
  field_getDescription : value;
  field_getType : T
}.
Arguments mkObjectField {T} _ _ _.
Arguments field_getName {T} _.
Arguments field_getDescription {T} _.
Arguments field_getType {T} _.

#[local] Unset Elimination Schemes.
Inductive CatalogType : Type :=
| OtherType (name : jsstring)
| ObjectType (name : jsstring) (description : value)
             (fields : list (ObjectField CatalogType))
             (createFromFieldValues : list value -> value).
#[local] Set Elimination Schemes.

Definition type_getName (t : CatalogType) : jsstring :=
  match t with OtherType n => n | ObjectType n _ _ _ => n end.

Definition type_getFields (t : CatalogType) : list (ObjectField CatalogType) :=
  match t with OtherType _ => [] | ObjectType _ _ fs _ => fs end.

(** Modelled from the spec: a named sort strategy of a paginator. *)
Record Ordering : Type := mkOrdering { ordering_name : jsstring }.

(** A filter, or [true] for no filter. *)
Definition Condition : Type := value.

(** One element of a page. *)
Record PageValue : Type := mkPageValue {
  pv_cursor : value;
  pv_value : value
}.

Record Page : Type := mkPage {
  page_values : list PageValue;
  page_hasNext : bool;
  page_hasPrevious : bool
}.

(** The second argument of [Paginator.readPage]. *)
Record ReadPageConfig : Type := mkReadPageConfig {
  cfg_beforeCursor : value;
  cfg_afterCursor : value;
  cfg_first : value;
  cfg_last : value;
  cfg_ordering : option Ordering;
  cfg_condition : Condition
}.

(** Modelled from the spec: the paginator contract. [readPage] and [count]
    belong to the data source; [paginator_id] stands for the identity of
    the object, which [isTypeOf] compares. *)
Record Paginator : Type := mkPaginator {
  paginator_id : nat;
  paginator_getName : jsstring;
  paginator_getType : CatalogType;
  paginator_getOrderings : list Ordering;
  paginator_getDefaultOrdering : option Ordering;
  paginator_readPage : value -> ReadPageConfig -> outcome Page;
  paginator_count : value -> Condition -> outcome Z
}.

End Catalog.
Export Catalog.

(** ** The schema objects of the GraphQL library *)

Module GraphQL.

(** Objects made with [new] live in a heap; the address is the identity
    that [===] and [indexOf] compare. *)
Definition addr : Type := nat.

Inductive typeRef : Type :=
| GraphQLInt
| GraphQLBoolean
| GraphQLString
| GraphQLID
| Named (a : addr)
| GraphQLNonNull (t : typeRef)
| GraphQLList (t : typeRef).

Inductive namedType : Type :=
| GraphQLObjectType (name : jsstring) (interfaces : list addr)
                    (fields : list (jsstring * typeRef))
| GraphQLInterfaceType (name : jsstring) (fields : list (jsstring * typeRef))
| GraphQLEnumType (name : jsstring) (values : list (jsstring * Ordering))
| GraphQLScalarType (name : jsstring).

Abbreviation heap := (list namedType).

(** [new T(config)]: a fresh address, after all the earlier ones. *)
Definition new (d : namedType) (h : heap) : addr * heap :=
  (length h, h ++ [d]).

Fixpoint getNamedType (t : typeRef) : typeRef :=
  match t with
  | GraphQLNonNull t' | GraphQLList t' => getNamedType t'
  | _ => t
  end.

(** [t.getInterfaces()] and [t.name] of an object type; [None] where [t]
    is not one (the call is then a [TypeError]). *)
Definition getInterfaces (h : heap) (t : typeRef) : option (list addr) :=
  match t with
  | Named a =>
      match h !! a with
      | Some (GraphQLObjectType _ ifaces _) => Some ifaces
      | _ => None
      end
  | _ => None
  end.

Definition type_name (d : namedType) : jsstring :=
  match d with
  | GraphQLObjectType n _ _ | GraphQLInterfaceType n _
  | GraphQLEnumType n _ | GraphQLScalarType n => n
  end.

Definition typeRef_name (h : heap) (t : typeRef) : jsstring :=
  match t with
  | GraphQLInt => lit "Int"
  | GraphQLBoolean => lit "Boolean"
  | GraphQLString => lit "String"
  | GraphQLID => lit "ID"
  | Named a => match h !! a with Some d => type_name d | None => [] end
  | _ => []
  end.

(** [buildObject]: the entries of all the lists, the falsy ones left out. *)
Definition buildObject {A : Type} (entries : list (option (jsstring * A)))
  : list (jsstring * A) :=
  omap id entries.

End GraphQL.
Export GraphQL.

(** ** ConnectionForge.ts *)

Module ConnectionForge.

(** [NamespacedCursor]. A cursor the client sent back is whatever its
    token decodes to, so the three fields are values. *)
Record NamespacedCursor : Type := mkNamespacedCursor {
  paginatorName : value;
  orderingName : value;
  cursor : value
}.

(** [ConnectionArgs]; an absent [before] or [after] is [None]. *)
Record ConnectionArgs : Type := mkConnectionArgs {
  args_orderBy : option Ordering;
  args_before : option NamespacedCursor;
  args_after : option NamespacedCursor;
  args_first : value;
  args_last : value;
  args_condition : value
}.

Record ConditionConfig : Type := mkConditionConfig {
  cc_type : typeRef;
  cc_getCondition : value -> Condition
}.

(** The value of a connection type. *)
Record Connection : Type := mkConnection {
  conn_paginator : Paginator;
  conn_ordering : option Ordering;
  conn_condition : Condition;
  conn_page : Page
}.

(** The value of an edge type. *)
Record Edge : Type := mkEdge {
  edge_paginator : Paginator;
  edge_ordering : option Ordering;
  edge_cursor : value;
  edge_value : value
}.

(** [ordering ? ordering.name : null]. *)
Definition orderingName_of (ordering : option Ordering) : value :=
  match ordering with
  | Some o => VStr (ordering_name o)
  | None => VNull
  end.

(** [c && test c] for a cursor argument. *)
Definition present_and (c : option NamespacedCursor)
    (test : NamespacedCursor -> bool) : bool :=
  match c with
  | Some c' => test c'
  | None => false
  end.

(** [c && c.cursor]. *)
Definition cursor_of (c : option NamespacedCursor) : value :=
  match c with
  | Some c' => cursor c'
  | None => VUndef
  end.

Definition before_paginator_msg : jsstring :=
  lit "`before` cursor can not be used with this connection.".
Definition after_paginator_msg : jsstring :=
  lit "`after` cursor can not be used with this connection.".
Definition before_ordering_msg : jsstring :=
  lit "`before` cursor can not be used for this `orderBy` value.".
Definition after_ordering_msg : jsstring :=
  lit "`after` cursor can not be used for this `orderBy` value.".

(** The [resolve] arrow function of [createField]. The calls of
    [paginator.readPage] made so far are threaded through as [log]. *)
Definition resolve (paginator : Paginator)
    (conditionConfig : option ConditionConfig)
    (args : ConnectionArgs) (context : value) (log : list ReadPageConfig)
  : outcome Connection * list ReadPageConfig :=
  let paginatorName' := paginator_getName paginator in
  let ordering := args_orderBy args in
  let beforeCursor := args_before args in
  let afterCursor := args_after args in
  if present_and beforeCursor
       (fun c => strict_ne (paginatorName c) (VStr paginatorName'))
  then (Throw (JsError before_paginator_msg), log)
  else if present_and afterCursor
       (fun c => strict_ne (paginatorName c) (VStr paginatorName'))
  then (Throw (JsError after_paginator_msg), log)
  else if present_and beforeCursor
       (fun c => strict_ne (orderingName c) (orderingName_of ordering))
  then (Throw (JsError before_ordering_msg), log)
  else if present_and afterCursor
       (fun c => strict_ne (orderingName c) (orderingName_of ordering))
  then (Throw (JsError after_ordering_msg), log)
  else
    let condition : Condition :=
      match conditionConfig with
      | Some cc =>
          if truthy (args_condition args)
          then cc_getCondition cc (args_condition args)
          else VBool true
      | None => VBool true
      end in
    let config :=
      {| cfg_beforeCursor := cursor_of beforeCursor;
         cfg_afterCursor := cursor_of afterCursor;
         cfg_first := args_first args;
         cfg_last := args_last args;
         cfg_ordering := ordering;
         cfg_condition := condition |} in
    match paginator_readPage paginator context config with
    | Throw e => (Throw e, log ++ [config])
    | Ok page =>
        (Ok {| conn_paginator := paginator;
               conn_ordering := ordering;
               conn_condition := condition;
               conn_page := page |},
         log ++ [config])
    end.

(** The field resolvers of the connection type of [_createConnectionType]. *)
Definition connection_pageInfo (source : Connection) : Connection := source.

Definition connection_totalCount (paginator : Paginator)
    (source : Connection) (context : value) : outcome Z :=
  paginator_count paginator context (conn_condition source).

Definition connection_edges (source : Connection) : list Edge :=
  map (fun pv => {| edge_paginator := conn_paginator source;
                    edge_ordering := conn_ordering source;
                    edge_cursor := pv_cursor pv;
                    edge_value := pv_value pv |})
      (page_values (conn_page source)).

Definition connection_nodes (source : Connection) : list value :=
  map pv_value (page_values (conn_page source)).

(** The field resolvers of the edge type of [_createEdgeType]; [cursor]
    closes over the name of the paginator the type was made for. *)
Definition edge_cursor_resolve (paginator : Paginator) (source : Edge)
  : NamespacedCursor :=
  let paginatorName' := paginator_getName paginator in
  {| paginatorName := VStr paginatorName';
     orderingName := orderingName_of (edge_ordering source);
     cursor := edge_cursor source |}.

Definition edge_node_resolve (source : Edge) : value := edge_value source.

(** Reading [.cursor] of [undefined]. *)
Definition cursor_of_undefined : exn :=
  JsTypeError (lit "Cannot read property 'cursor' of undefined").

(** The field resolvers of [_pageInfoType]. *)
Definition pageInfo_hasNextPage (source : Connection) : bool :=
  page_hasNext (conn_page source).

Definition pageInfo_hasPreviousPage (source : Connection) : bool :=
  page_hasPrevious (conn_page source).

Definition pageInfo_startCursor (source : Connection)
  : outcome NamespacedCursor :=
  match index (page_values (conn_page source)) 0 with
  | None => Throw cursor_of_undefined
  | Some pv =>
      Ok {| paginatorName := VStr (paginator_getName (conn_paginator source));
            orderingName := orderingName_of (conn_ordering source);
            cursor := pv_cursor pv |}
  end.

Definition pageInfo_endCursor (source : Connection)
  : outcome NamespacedCursor :=
  let values := page_values (conn_page source) in
  match index values (Z.of_nat (length values) - 1) with
  | None => Throw cursor_of_undefined
  | Some pv =>
      Ok {| paginatorName := VStr (paginator_getName (conn_paginator source));
            orderingName := orderingName_of (conn_ordering source);
            cursor := pv_cursor pv |}
  end.

(** [_serializeCursor]: the JSON text of the array of the three fields,
    as UTF-8 bytes, in base64. *)
Definition _serializeCursor (c : NamespacedCursor) : jsstring :=
  Base64.encode
    (Utf8.encode
       (JSON.stringify (VArr [paginatorName c; orderingName c; cursor c]))).

Definition not_iterable : exn :=
  JsTypeError (lit "undefined is not a function").

(** What an array pattern takes its elements from: the elements of an
    array, the code points of a string; any other value here is not
    iterable. *)
Definition iterate (v : value) : outcome (list value) :=
  match v with
  | VArr l => Ok l
  | VStr s => Ok (map VStr (Utf8.code_points s))
  | _ => Throw not_iterable
  end.

(** [_deserializeCursor]: the first three elements of what the decoded
    text parses to, [undefined] where there are fewer. *)
Definition _deserializeCursor (serializedCursor : jsstring)
  : outcome NamespacedCursor :=
  match JSON.parse (Utf8.decode (Base64.decode serializedCursor)) with
  | Throw e => Throw e
  | Ok parsed =>
      match iterate parsed with
      | Throw e => Throw e
      | Ok elements =>
          Ok {| paginatorName := default VUndef (elements !! 0%nat);
                orderingName := default VUndef (elements !! 1%nat);
                cursor := default VUndef (elements !! 2%nat) |}
      end
  end.

(** The three functions of the scalar [_cursorType]; a literal that is
    not a string parses to [null]. *)
Inductive literal : Type :=
| StringLiteral (s : jsstring)
| OtherLiteral.

Definition cursorType_serialize (c : NamespacedCursor) : jsstring :=
  _serializeCursor c.

Definition cursorType_parseValue (s : jsstring) : outcome NamespacedCursor :=
  _deserializeCursor s.

Definition cursorType_parseLiteral (ast : literal)
  : outcome (option NamespacedCursor) :=
  match ast with
  | StringLiteral s =>
      match _deserializeCursor s with
      | Ok c => Ok (Some c)
      | Throw e => Throw e
      end
  | OtherLiteral => Ok None
  end.

(** A cursor as its type has it: the paginator name a string, the
    ordering name a string or [null], and all three values that JSON
    holds. *)
Definition well_formed_cursor (c : NamespacedCursor) : bool :=
  match paginatorName c with VStr _ => true | _ => false end
  && match orderingName c with VStr _ | VNull => true | _ => false end
  && JSON.well_formed (paginatorName c)
  && JSON.well_formed (orderingName c)
  && JSON.well_formed (cursor c).

(** The static members [_cursorType] and [_pageInfoType]: made once, when
    the class is defined. *)
Record Statics : Type := mkStatics {
  _cursorType : addr;
  _pageInfoType : addr
}.

Definition static_init (h : heap) : Statics * heap :=
  let '(cursorType, h1) := new (GraphQLScalarType (lit "Cursor")) h in
  let '(pageInfoType, h2) :=
    new (GraphQLObjectType (lit "PageInfo") []
           [ (lit "hasNextPage", GraphQLNonNull GraphQLBoolean);
             (lit "hasPreviousPage", GraphQLNonNull GraphQLBoolean);
             (lit "startCursor", Named cursorType);
             (lit "endCursor", Named cursorType) ]) h1 in
  ({| _cursorType := cursorType; _pageInfoType := pageInfoType |}, h2).

(** An instance: the two forges it is given and its two interfaces. The
    node forge is known by the interface it returns, the type forge by its
    [getOutputType]. *)
Record Forge : Type := mkForge {
  _nodeForge_getInterfaceType : addr;
  _typeForge_getOutputType : CatalogType -> typeRef;
  statics : Statics;
  _edgeInterfaceType : addr;
  _connectionInterfaceType : addr
}.

Definition constructor (nodeInterface : addr)
    (getOutputType : CatalogType -> typeRef) (st : Statics) (h : heap)
  : Forge * heap :=
  let '(edgeInterface, h1) :=
    new (GraphQLInterfaceType (lit "Edge")
           [ (lit "cursor", GraphQLNonNull (Named (_cursorType st)));
             (lit "node", Named nodeInterface) ]) h in
  let '(connectionInterface, h2) :=
    new (GraphQLInterfaceType (lit "Connection")
           [ (lit "pageInfo", GraphQLNonNull (Named (_pageInfoType st)));
             (lit "totalCount", GraphQLInt);
             (lit "edges", GraphQLList (Named edgeInterface));
             (lit "nodes", GraphQLList (Named nodeInterface)) ]) h1 in
  ({| _nodeForge_getInterfaceType := nodeInterface;
      _typeForge_getOutputType := getOutputType;
      statics := st;
      _edgeInterfaceType := edgeInterface;
      _connectionInterfaceType := connectionInterface |}, h2).

Record ArgumentConfig : Type := mkArgumentConfig {
  arg_type : typeRef;
  arg_defaultValue : option Ordering
}.

Record FieldConfig : Type := mkFieldConfig {
  fc_type : typeRef;
  fc_args : list (jsstring * ArgumentConfig);
  fc_resolve : ConnectionArgs -> value -> list ReadPageConfig ->
               outcome Connection * list ReadPageConfig
}.

Definition not_a_function : exn :=
  JsTypeError (lit "gqlPaginatorType.getInterfaces is not a function").

Definition must_implement_node : exn :=
  JsError (lit "GraphQL object type must implement the Node interface.").

Section Construction.

(** [formatName.type] and [formatName.enumValue] of [utils/formatName]. *)
Variable formatName_type : jsstring -> jsstring.
Variable formatName_enumValue : jsstring -> jsstring.

Definition _createEdgeType (this : Forge) (paginator : Paginator)
    (gqlPaginatorType : typeRef) (h : heap) : addr * heap :=
  new (GraphQLObjectType
         (formatName_type (typeRef_name h gqlPaginatorType ++ lit "-edge"))
         [_edgeInterfaceType this]
         [ (lit "cursor", GraphQLNonNull (Named (_cursorType (statics this))));
           (lit "node", gqlPaginatorType) ]) h.

Definition _createConnectionType (this : Forge) (paginator : Paginator)
    (gqlPaginatorType : typeRef) (h : heap) : addr * heap :=
  let '(gqlEdgeType, h1) := _createEdgeType this paginator gqlPaginatorType h in
  new (GraphQLObjectType
         (formatName_type (typeRef_name h1 gqlPaginatorType ++ lit "-connection"))
         [_connectionInterfaceType this]
         [ (lit "pageInfo", GraphQLNonNull (Named (_pageInfoType (statics this))));
           (lit "totalCount", GraphQLInt);
           (lit "edges", GraphQLList (Named gqlEdgeType));
           (lit "nodes", GraphQLList gqlPaginatorType) ]) h1.

Definition _createOrderByEnumType (this : Forge) (paginator : Paginator)
    (gqlType : typeRef) (h : heap) : addr * heap :=
  new (GraphQLEnumType
         (formatName_type (typeRef_name h gqlType ++ lit "-order-by"))
         (buildObject
            (map (fun ordering =>
                    Some (formatName_enumValue (ordering_name ordering), ordering))
                 (paginator_getOrderings paginator)))) h.

(** [createField]: the field descriptor, or the error thrown while the
    schema is built; the heap holds the types made so far. *)
Definition createField (this : Forge) (paginator : Paginator)
    (conditionConfig : option ConditionConfig) (h : heap)
  : outcome FieldConfig * heap :=
  let paginatorType := paginator_getType paginator in
  let gqlPaginatorType :=
    getNamedType (_typeForge_getOutputType this paginatorType) in
  match getInterfaces h gqlPaginatorType with
  | None => (Throw not_a_function, h)
  | Some interfaces =>
      if bool_decide (_nodeForge_getInterfaceType this ∈ interfaces)
      then
        let '(gqlConnectionType, h1) :=
          _createConnectionType this paginator gqlPaginatorType h in
        let '(gqlOrderByEnum, h2) :=
          _createOrderByEnumType this paginator gqlPaginatorType h1 in
        (Ok {| fc_type := Named gqlConnectionType;
               fc_args :=
                 buildObject
                   [ Some (lit "orderBy",
                           {| arg_type := Named gqlOrderByEnum;
                              arg_defaultValue :=
                                paginator_getDefaultOrdering paginator |});
                     Some (lit "before",
                           {| arg_type := Named (_cursorType (statics this));
                              arg_defaultValue := None |});
                     Some (lit "after",
                           {| arg_type := Named (_cursorType (statics this));
                              arg_defaultValue := None |});
                     Some (lit "first",
                           {| arg_type := GraphQLInt; arg_defaultValue := None |});
                     Some (lit "last",
                           {| arg_type := GraphQLInt; arg_defaultValue := None |});
                     match conditionConfig with
                     | Some cc =>
                         Some (lit "condition",
                               {| arg_type := cc_type cc;
                                  arg_defaultValue := None |})
                     | None => None
                     end ];
               fc_resolve := resolve paginator conditionConfig |}, h2)
      else (Throw must_implement_node, h)
  end.

End Construction.

(** *** Properties of what is built *)

(** What [JSON.stringify] makes of an element of an array. *)
Definition undefined_to_null (v : value) : value :=
  match v with
  | VUndef => VNull
  | _ => v
  end.

(** The characters of a token. *)
Definition is_token_char (c : Z) : bool :=
  ((65 <=? c) && (c <=? 90) || (97 <=? c) && (c <=? 122)
   || (48 <=? c) && (c <=? 57) || (c =? 43) || (c =? 47) || (c =? 61))%Z.




(** *** Inputs used by the examples *)

Definition things_type : CatalogType :=
  ObjectType (lit "thing") VUndef
    [ mkObjectField (lit "row_id") VUndef (OtherType (lit "integer"));
      mkObjectField (lit "note") VUndef (OtherType (lit "text")) ]
    VArr.

Definition row_id_ordering : Ordering := mkOrdering (lit "row_id").
Definition note_ordering : Ordering := mkOrdering (lit "note").

Definition empty_page : Page :=
  {| page_values := []; page_hasNext := false; page_hasPrevious := false |}.

Definition two_things_page : Page :=
  {| page_values := [ mkPageValue (VNum 1) (VObj [(lit "note", VStr (lit "a"))]);
                      mkPageValue (VNum 2) (VObj [(lit "note", VStr (lit "b"))]) ];
     page_hasNext := true; page_hasPrevious := false |}.

Definition things_paginator : Paginator :=
  {| paginator_id := 0;
     paginator_getName := lit "things";
     paginator_getType := things_type;
     paginator_getOrderings := [row_id_ordering; note_ordering];
     paginator_getDefaultOrdering := Some row_id_ordering;
     paginator_readPage := fun _ _ => Ok two_things_page;
     paginator_count := fun _ _ => Ok 2%Z |}.

Definition no_args : ConnectionArgs :=
  {| args_orderBy := Some row_id_ordering;
     args_before := None; args_after := None;
     args_first := VUndef; args_last := VUndef; args_condition := VUndef |}.

(** A cursor of another paginator, minted under another ordering. *)
Definition foreign_cursor : NamespacedCursor :=
  {| paginatorName := VStr (lit "people");
     orderingName := VStr (lit "note");
     cursor := VNum 7 |}.

Definition foreign_before_args : ConnectionArgs :=
  {| args_orderBy := Some row_id_ordering;
     args_before := Some foreign_cursor; args_after := None;
     args_first := VUndef; args_last := VUndef; args_condition := VUndef |}.

(** A cursor of the same paginator, minted under another ordering. *)
Definition note_cursor : NamespacedCursor :=
  {| paginatorName := VStr (lit "things");
     orderingName := VStr (lit "note");
     cursor := VNum 7 |}.

Definition note_after_args : ConnectionArgs :=
  {| args_orderBy := Some row_id_ordering;
     args_before := None; args_after := Some note_cursor;
     args_first := VUndef; args_last := VUndef; args_condition := VUndef |}.

(** A schema heap for the examples: the statics, a Node interface, a type
    [Thing] that implements it and a type [Note] that does not, and a
    connection forge. The names are left as they are. *)
Definition example_heap0 : heap :=
  snd (static_init [])
  ++ [ GraphQLInterfaceType (lit "Node")
         [(lit "__id", GraphQLNonNull GraphQLID)];
       GraphQLObjectType (lit "thing") [2%nat]
         [(lit "__id", GraphQLNonNull GraphQLID); (lit "note", GraphQLString)];
       GraphQLObjectType (lit "note") [] [(lit "text", GraphQLString)] ].

Definition example_getOutputType (t : CatalogType) : typeRef :=
  if bool_decide (type_getName t = lit "thing")
  then Named 3%nat else Named 4%nat.

Definition example_forge : Forge :=
  fst (constructor 2%nat example_getOutputType (fst (static_init []))
         example_heap0).

Definition example_heap : heap :=
  snd (constructor 2%nat example_getOutputType (fst (static_init []))
         example_heap0).

Definition notes_paginator : Paginator :=
  {| paginator_id := 1;
     paginator_getName := lit "notes";
     paginator_getType := ObjectType (lit "note") VUndef [] VArr;
     paginator_getOrderings := [];
     paginator_getDefaultOrdering := None;
     paginator_readPage := fun _ _ => Ok empty_page;
     paginator_count := fun _ _ => Ok 0%Z |}.

(** The type of the field that [createField] returned, if it did. *)
Definition created_type (r : outcome FieldConfig * heap) : option typeRef :=
  match fst r with
  | Ok f => Some (fc_type f)
  | Throw _ => None
  end.

Definition things_cursor : NamespacedCursor :=
  {| paginatorName := VStr (lit "things");
     orderingName := VStr (lit "row_id");
     cursor := VArr [VNum 42; VStr [233; 55357; 56832]%Z; VNull] |}.

(** The cursors a resolved connection hands out: the [cursor] of each of
    its edges, and [startCursor] and [endCursor] of its page info. *)
Definition minted (paginator : Paginator) (source : Connection)
    (c : NamespacedCursor) : Prop :=
  c ∈ map (edge_cursor_resolve paginator) (connection_edges source)
  \/ pageInfo_startCursor (connection_pageInfo source) = Ok c
  \/ pageInfo_endCursor (connection_pageInfo source) = Ok c.

(** *** The cursor codec *)

(** Decoding the token of three values that JSON holds gives the three
    values. *)
Lemma deserialize_serialize (c : NamespacedCursor) :
  JSON.well_formed (paginatorName c) = true ->
  JSON.well_formed (orderingName c) = true ->
  JSON.well_formed (cursor c) = true ->
  _deserializeCursor (_serializeCursor c) = Ok c.
Proof.
  intros Hp Ho Hc. unfold _deserializeCursor, _serializeCursor.
  set (v := VArr [paginatorName c; orderingName c; cursor c]).
  assert (Hv : JSON.well_formed v = true).
  { unfold v. cbn [JSON.well_formed forallb]. now rewrite Hp, Ho, Hc. }
  pose proof (JSON.stringify_well_formed v Hv) as Htext.
  rewrite Base64.base64_decode_encode by now apply Utf8.encode_bytes.
  rewrite Utf8.utf8_decode_encode by assumption.
  rewrite JSON.parse_stringify by assumption.
  unfold v. cbn [iterate]. now destruct c.
Qed.

(** C1. Deserializing the token that serializing a well-formed cursor
    gave yields the cursor: the paginator name a well-formed string, the
    ordering name one or [null], the payload any value that JSON holds
    (no [undefined], integers that a double holds exactly, well-formed
    strings, objects whose keys differ). *)
Theorem cursor_round_trip (c : NamespacedCursor) :
  well_formed_cursor c = true ->
  _deserializeCursor (_serializeCursor c) = Ok c.
Proof.
  unfold well_formed_cursor. intros H.
  apply andb_prop in H as (H & Hc). apply andb_prop in H as (H & Ho).
  apply andb_prop in H as (_ & Hp).
  now apply deserialize_serialize.
Qed.

Lemma cursor_round_trip_witness :
  _deserializeCursor (_serializeCursor things_cursor) = Ok things_cursor.
Proof.
  apply (cursor_round_trip things_cursor). vm_compute. reflexivity.
Defined.

(** The token of the example: the base64 text of
    [["things","row_id",[42,"é😀",null]]] in UTF-8. *)
Example serialize_things_cursor :
  _serializeCursor things_cursor
  = lit "WyJ0aGluZ3MiLCJyb3dfaWQiLFs0Miwiw6nwn5iAIixudWxsXV0=".
Proof. vm_compute. reflexivity. Qed.

(** What breaks the round trip: [undefined] comes back as [null], and a
    surrogate without its other half as U+FFFD. *)
Example deserialize_serialize_undefined :
  _deserializeCursor
    (_serializeCursor
       {| paginatorName := VStr (lit "things"); orderingName := VNull;
          cursor := VUndef |})
  = Ok {| paginatorName := VStr (lit "things"); orderingName := VNull;
          cursor := VNull |}.
Proof. vm_compute. reflexivity. Qed.

Example deserialize_serialize_lone_surrogate :
  _deserializeCursor
    (_serializeCursor
       {| paginatorName := VStr [55357]%Z; orderingName := VNull;
          cursor := VNum 1 |})
  = Ok {| paginatorName := VStr [65533]%Z; orderingName := VNull;
          cursor := VNum 1 |}.
Proof. vm_compute. reflexivity. Qed.

(** *** The resolver *)

Lemma strict_ne_str (a : value) (s : jsstring) :
  strict_ne a (VStr s) = true <-> a <> VStr s.
Proof.
  unfold strict_ne. rewrite negb_true_iff, <- not_true_iff_false.
  now rewrite strict_eq_str.
Qed.

Lemma strict_ne_orderingName (a : value) (o : option Ordering) :
  strict_ne a (orderingName_of o) = true <-> a <> orderingName_of o.
Proof.
  unfold strict_ne. rewrite negb_true_iff, <- not_true_iff_false.
  destruct o as [o|]; simpl orderingName_of.
  - now rewrite strict_eq_str.
  - now rewrite strict_eq_null.
Qed.

Lemma strict_ne_false_str (a : value) (s : jsstring) :
  strict_ne a (VStr s) = false <-> a = VStr s.
Proof.
  unfold strict_ne. rewrite negb_false_iff. apply strict_eq_str.
Qed.

Lemma strict_ne_false_orderingName (a : value) (o : option Ordering) :
  strict_ne a (orderingName_of o) = false <-> a = orderingName_of o.
Proof.
  unfold strict_ne. rewrite negb_false_iff.
  destruct o as [o|]; simpl orderingName_of.
  - apply strict_eq_str.
  - apply strict_eq_null.
Qed.

(** The four guards, as one case analysis: which of them fires decides
    the outcome, and only when none does is [readPage] called. *)
Lemma resolve_cases paginator conditionConfig args context log :
  let pn c := strict_ne (paginatorName c) (VStr (paginator_getName paginator)) in
  let on c := strict_ne (orderingName c) (orderingName_of (args_orderBy args)) in
  (present_and (args_before args) pn = true /\
   resolve paginator conditionConfig args context log
     = (Throw (JsError before_paginator_msg), log))
  \/ (present_and (args_before args) pn = false /\
      present_and (args_after args) pn = true /\
      resolve paginator conditionConfig args context log
        = (Throw (JsError after_paginator_msg), log))
  \/ (present_and (args_before args) pn = false /\
      present_and (args_after args) pn = false /\
      present_and (args_before args) on = true /\
      resolve paginator conditionConfig args context log
        = (Throw (JsError before_ordering_msg), log))
  \/ (present_and (args_before args) pn = false /\
      present_and (args_after args) pn = false /\
      present_and (args_before args) on = false /\
      present_and (args_after args) on = true /\
      resolve paginator conditionConfig args context log
        = (Throw (JsError after_ordering_msg), log))
  \/ (present_and (args_before args) pn = false /\
      present_and (args_after args) pn = false /\
      present_and (args_before args) on = false /\
      present_and (args_after args) on = false /\
      exists config,
        cfg_beforeCursor config = cursor_of (args_before args) /\
        cfg_afterCursor config = cursor_of (args_after args) /\
        cfg_ordering config = args_orderBy args /\
        snd (resolve paginator conditionConfig args context log)
          = log ++ [config] /\
        fst (resolve paginator conditionConfig args context log)
          = match paginator_readPage paginator context config with
            | Throw e => Throw e
            | Ok page =>
                Ok {| conn_paginator := paginator;
                      conn_ordering := args_orderBy args;
                      conn_condition := cfg_condition config;
                      conn_page := page |}
            end).
Proof.
  intros pn on. unfold resolve. fold pn. fold on.
  destruct (present_and (args_before args) pn) eqn:E1; [left; easy|].
  destruct (present_and (args_after args) pn) eqn:E2; [right; left; easy|].
  destruct (present_and (args_before args) on) eqn:E3;
    [right; right; left; easy|].
  destruct (present_and (args_after args) on) eqn:E4;
    [right; right; right; left; easy|].
  right; right; right; right. repeat (split; [reflexivity|]).
  match goal with
  | |- context [paginator_readPage _ _ ?c] => exists c
  end.
  repeat (split; [reflexivity|]).
  split; destruct (paginator_readPage _ _ _); reflexivity.
Qed.

Lemma present_and_true c test :
  present_and c test = true <-> exists c', c = Some c' /\ test c' = true.
Proof.
  destruct c as [c'|]; simpl; split.
  - intros H. exists c'. easy.
  - intros (c'' & [= <-] & H). exact H.
  - discriminate.
  - intros (c'' & H & _). discriminate H.
Qed.

Lemma present_and_false c test :
  present_and c test = false <-> forall c', c = Some c' -> test c' = false.
Proof.
  destruct c as [c'|]; simpl; split.
  - intros H c'' [= <-]. exact H.
  - intros H. now apply H.
  - intros _ c'' H. discriminate H.
  - reflexivity.
Qed.

(** C2. Resolving the connection field of a paginator with a [before] or
    [after] cursor that carries another paginator name throws the
    paginator-mismatch error, and [readPage] is not called: the log of its
    calls is returned as it was. *)
Theorem resolve_paginator_mismatch paginator conditionConfig args context log :
  (exists c, (args_before args = Some c \/ args_after args = Some c) /\
             paginatorName c <> VStr (paginator_getName paginator)) ->
  exists msg,
    (msg = before_paginator_msg \/ msg = after_paginator_msg) /\
    resolve paginator conditionConfig args context log
      = (Throw (JsError msg), log).
Proof.
  intros (c & Hc & Hne).
  destruct (resolve_cases paginator conditionConfig args context log)
    as [(_ & R) | [(_ & _ & R) | [(B & A & _) | [(B & A & _) | (B & A & _)]]]].
  - exists before_paginator_msg. split; [now left | exact R].
  - exists after_paginator_msg. split; [now right | exact R].
  - exfalso. rewrite present_and_false in B, A.
    apply strict_ne_str in Hne.
    destruct Hc as [Hc | Hc]; [apply B in Hc | apply A in Hc]; congruence.
  - exfalso. rewrite present_and_false in B, A.
    apply strict_ne_str in Hne.
    destruct Hc as [Hc | Hc]; [apply B in Hc | apply A in Hc]; congruence.
  - exfalso. rewrite present_and_false in B, A.
    apply strict_ne_str in Hne.
    destruct Hc as [Hc | Hc]; [apply B in Hc | apply A in Hc]; congruence.
Qed.

Lemma resolve_paginator_mismatch_witness :
  exists msg,
    (msg = before_paginator_msg \/ msg = after_paginator_msg) /\
    resolve things_paginator None foreign_before_args VNull []
      = (Throw (JsError msg), []).
Proof.
  apply resolve_paginator_mismatch.
  exists foreign_cursor. split; [left; reflexivity | discriminate].
Defined.

(** C3, as stated, fails: a [before] cursor of another paginator, minted
    under another ordering than the requested one, is rejected with the
    paginator-mismatch error, which comes first, and not with the
    ordering-mismatch error. *)
Lemma resolve_ordering_mismatch_counterexample :
  args_before foreign_before_args = Some foreign_cursor /\
  orderingName foreign_cursor
    <> orderingName_of (args_orderBy foreign_before_args) /\
  resolve things_paginator None foreign_before_args VNull []
    = (Throw (JsError before_paginator_msg), []) /\
  before_paginator_msg <> before_ordering_msg /\
  before_paginator_msg <> after_ordering_msg.
Proof.
  repeat split; try reflexivity; discriminate.
Qed.

(** C3, amended. When every cursor given carries the name of the field's
    paginator and a [before] or [after] cursor carries an ordering name
    other than that of the resolved [orderBy] ([null] when there is none),
    resolving throws the ordering-mismatch error and [readPage] is not
    called. *)
Theorem resolve_ordering_mismatch paginator conditionConfig args context log :
  (forall c, args_before args = Some c \/ args_after args = Some c ->
             paginatorName c = VStr (paginator_getName paginator)) ->
  (exists c, (args_before args = Some c \/ args_after args = Some c) /\
             orderingName c <> orderingName_of (args_orderBy args)) ->
  exists msg,
    (msg = before_ordering_msg \/ msg = after_ordering_msg) /\
    resolve paginator conditionConfig args context log
      = (Throw (JsError msg), log).
Proof.
  intros Hsame (c & Hc & Hne).
  destruct (resolve_cases paginator conditionConfig args context log)
    as [(B & _) | [(_ & A & _) | [(_ & _ & _ & R) | [(_ & _ & _ & _ & R)
       | (_ & _ & B & A & _)]]]].
  - exfalso. apply present_and_true in B as (c' & Hc' & T).
    apply strict_ne_str in T. apply T, Hsame. now left.
  - exfalso. apply present_and_true in A as (c' & Hc' & T).
    apply strict_ne_str in T. apply T, Hsame. now right.
  - exists before_ordering_msg. split; [now left | exact R].
  - exists after_ordering_msg. split; [now right | exact R].
  - exfalso. rewrite present_and_false in B, A.
    apply strict_ne_orderingName in Hne.
    destruct Hc as [Hc | Hc]; [apply B in Hc | apply A in Hc]; congruence.
Qed.

Lemma resolve_ordering_mismatch_witness :
  exists msg,
    (msg = before_ordering_msg \/ msg = after_ordering_msg) /\
    resolve things_paginator None note_after_args VNull []
      = (Throw (JsError msg), []).
Proof.
  apply resolve_ordering_mismatch.
  - intros c [H | H]; [discriminate H | injection H as <-; reflexivity].
  - exists note_cursor. split; [right; reflexivity | discriminate].
Defined.

(** *** Page info *)

Lemma index_0 {A : Type} (x : A) (l : list A) : index (x :: l) 0 = Some x.
Proof. reflexivity. Qed.

Lemma index_last {A : Type} (l : list A) (x : A) :
  index (l ++ [x]) (Z.of_nat (length (l ++ [x])) - 1) = Some x.
Proof.
  unfold index. rewrite length_app. simpl length.
  destruct (Z.ltb_spec (Z.of_nat (length l + 1) - 1) 0) as [H | _]; [lia|].
  replace (Z.to_nat (Z.of_nat (length l + 1) - 1)) with (length l + 0)%nat
    by lia.
  rewrite lookup_app_r by lia.
  now replace (length l + 0 - length l)%nat with 0%nat by lia.
Qed.

(** On a page with values, [startCursor] and [endCursor] are the
    namespaced cursors of its first and of its last element. *)
Lemma pageInfo_cursors_nonempty paginator ordering condition
    first middle last hasNext hasPrevious :
  let source :=
    {| conn_paginator := paginator; conn_ordering := ordering;
       conn_condition := condition;
       conn_page := {| page_values := (first :: middle) ++ [last];
                       page_hasNext := hasNext;
                       page_hasPrevious := hasPrevious |} |} in
  pageInfo_startCursor source
    = Ok {| paginatorName := VStr (paginator_getName paginator);
            orderingName := orderingName_of ordering;
            cursor := pv_cursor first |}
  /\ pageInfo_endCursor source
    = Ok {| paginatorName := VStr (paginator_getName paginator);
            orderingName := orderingName_of ordering;
            cursor := pv_cursor last |}.
Proof.
  intros source. split.
  - reflexivity.
  - unfold pageInfo_endCursor, source. cbn [conn_page page_values].
    now rewrite index_last.
Qed.

(** C6. On an empty page both resolvers read [.cursor] of [undefined],
    the element that [values[0]] and [values[values.length - 1]] give
    there: they throw a [TypeError] where an absent cursor is called for. *)
Theorem pageInfo_cursors_empty_page_throw paginator ordering condition
    hasNext hasPrevious :
  pageInfo_startCursor
    {| conn_paginator := paginator; conn_ordering := ordering;
       conn_condition := condition;
       conn_page := {| page_values := []; page_hasNext := hasNext;
                       page_hasPrevious := hasPrevious |} |}
    = Throw cursor_of_undefined
  /\ pageInfo_endCursor
    {| conn_paginator := paginator; conn_ordering := ordering;
       conn_condition := condition;
       conn_page := {| page_values := []; page_hasNext := hasNext;
                       page_hasPrevious := hasPrevious |} |}
    = Throw cursor_of_undefined.
Proof. split; reflexivity. Qed.

(** *** Cursors handed out and sent back *)

Lemma resolve_Ok paginator conditionConfig args context log source log' :
  resolve paginator conditionConfig args context log = (Ok source, log') ->
  conn_paginator source = paginator /\ conn_ordering source = args_orderBy args.
Proof.
  intros R.
  destruct (resolve_cases paginator conditionConfig args context log)
    as [(_ & R') | [(_ & _ & R') | [(_ & _ & _ & R')
       | [(_ & _ & _ & _ & R') | (_ & _ & _ & _ & config & _ & _ & _ & _ & R')]]]];
    try (rewrite R in R'; discriminate R').
  rewrite R in R'. simpl in R'.
  destruct (paginator_readPage paginator context config); [|discriminate R'].
  injection R' as ->. split; reflexivity.
Qed.

Lemma minted_names paginator source c :
  minted paginator source c ->
  paginatorName c = VStr (paginator_getName paginator)
  \/ paginatorName c = VStr (paginator_getName (conn_paginator source)).
Proof.
  intros [H | [H | H]].
  - left. apply list_elem_of_fmap in H as (e & -> & _). reflexivity.
  - right. unfold pageInfo_startCursor, connection_pageInfo in H.
    destruct (index _ _); [injection H as <-; reflexivity | discriminate H].
  - right. unfold pageInfo_endCursor, connection_pageInfo in H.
    destruct (index _ _); [injection H as <-; reflexivity | discriminate H].
Qed.

Lemma minted_ordering paginator source c :
  minted paginator source c ->
  orderingName c = orderingName_of (conn_ordering source).
Proof.
  intros [H | [H | H]].
  - apply list_elem_of_fmap in H as (e & -> & He).
    apply list_elem_of_fmap in He as (pv & -> & _). reflexivity.
  - unfold pageInfo_startCursor, connection_pageInfo in H.
    destruct (index _ _); [injection H as <-; reflexivity | discriminate H].
  - unfold pageInfo_endCursor, connection_pageInfo in H.
    destruct (index _ _); [injection H as <-; reflexivity | discriminate H].
Qed.

(** Such a cursor also comes back from its token as it was handed out,
    when the names and the payload are values that JSON holds. *)
Lemma minted_cursor_token paginator conditionConfig args context log
    source log' c :
  resolve paginator conditionConfig args context log = (Ok source, log') ->
  minted paginator source c ->
  Utf8.well_formed (paginator_getName paginator) = true ->
  JSON.well_formed (orderingName_of (args_orderBy args)) = true ->
  JSON.well_formed (cursor c) = true ->
  cursorType_parseValue (cursorType_serialize c) = Ok c.
Proof.
  intros R Hc Hname Hordering Hpayload.
  apply resolve_Ok in R as (HP & HO).
  apply deserialize_serialize; [| |assumption].
  - destruct (minted_names _ _ _ Hc) as [-> | ->]; [|rewrite HP]; assumption.
  - rewrite (minted_ordering _ _ _ Hc), HO. assumption.
Qed.

(** C10. A cursor handed out by a resolved connection (by an edge, or as
    [startCursor] or [endCursor]) carries the name of the connection's
    paginator and the name of the resolved ordering, [null] when there is
    none. Sent back as [before] or [after] to the same field under the
    same [orderBy], such cursors pass the four guards: [readPage] is
    called, with their payloads as the boundaries. *)
Theorem minted_cursor_replay paginator conditionConfig args context log
    source log' :
  resolve paginator conditionConfig args context log = (Ok source, log') ->
  (forall c, minted paginator source c ->
     paginatorName c = VStr (paginator_getName paginator) /\
     orderingName c = orderingName_of (args_orderBy args)) /\
  (forall args' context' log'',
     args_orderBy args' = args_orderBy args ->
     (forall c, args_before args' = Some c -> minted paginator source c) ->
     (forall c, args_after args' = Some c -> minted paginator source c) ->
     exists config,
       cfg_beforeCursor config = cursor_of (args_before args') /\
       cfg_afterCursor config = cursor_of (args_after args') /\
       snd (resolve paginator conditionConfig args' context' log'')
         = log'' ++ [config]).
Proof.
  intros R. apply resolve_Ok in R as (HP & HO).
  assert (Hm : forall c, minted paginator source c ->
     paginatorName c = VStr (paginator_getName paginator) /\
     orderingName c = orderingName_of (args_orderBy args)).
  { intros c Hc. split.
    - destruct (minted_names _ _ _ Hc) as [H | H]; [exact H | now rewrite <- HP].
    - rewrite <- HO. now apply minted_ordering with (paginator := paginator). }
  split; [exact Hm|].
  intros args' context' log'' Hob Hb Ha.
  destruct (resolve_cases paginator conditionConfig args' context' log'')
    as [(B & _) | [(_ & A & _) | [(_ & _ & B & _) | [(_ & _ & _ & A & _)
       | (_ & _ & _ & _ & config & C1 & C2 & _ & L & _)]]]].
  - exfalso. apply present_and_true in B as (c & Hc & T).
    apply strict_ne_str in T. apply T. now apply Hm, Hb.
  - exfalso. apply present_and_true in A as (c & Hc & T).
    apply strict_ne_str in T. apply T. now apply Hm, Ha.
  - exfalso. apply present_and_true in B as (c & Hc & T).
    apply strict_ne_orderingName in T. apply T. rewrite Hob. now apply Hm, Hb.
  - exfalso. apply present_and_true in A as (c & Hc & T).
    apply strict_ne_orderingName in T. apply T. rewrite Hob. now apply Hm, Ha.
  - exists config. easy.
Qed.

Lemma minted_cursor_replay_witness :
  (forall c, minted things_paginator
               {| conn_paginator := things_paginator;
                  conn_ordering := Some row_id_ordering;
                  conn_condition := VBool true;
                  conn_page := two_things_page |} c ->
     paginatorName c = VStr (lit "things") /\
     orderingName c = VStr (lit "row_id")) /\
  (forall args' context' log'',
     args_orderBy args' = Some row_id_ordering ->
     (forall c, args_before args' = Some c ->
        minted things_paginator
               {| conn_paginator := things_paginator;
                  conn_ordering := Some row_id_ordering;
                  conn_condition := VBool true;
                  conn_page := two_things_page |} c) ->
     (forall c, args_after args' = Some c ->
        minted things_paginator
               {| conn_paginator := things_paginator;
                  conn_ordering := Some row_id_ordering;
                  conn_condition := VBool true;
                  conn_page := two_things_page |} c) ->
     exists config,
       cfg_beforeCursor config = cursor_of (args_before args') /\
       cfg_afterCursor config = cursor_of (args_after args') /\
       snd (resolve things_paginator None args' context' log'')
         = log'' ++ [config]).
Proof.
  apply (minted_cursor_replay things_paginator None no_args VNull []
           _ [ {| cfg_beforeCursor := VUndef; cfg_afterCursor := VUndef;
                  cfg_first := VUndef; cfg_last := VUndef;
                  cfg_ordering := Some row_id_ordering;
                  cfg_condition := VBool true |} ]).
  reflexivity.
Defined.

(** *** Building the field *)

(** C9. When the object type forged for the paginator's value type does
    not list the Node interface, [createField] throws while the schema is
    built: it returns no field, and so no resolver, and makes no type. *)
Theorem createField_requires_node formatName_type formatName_enumValue
    this paginator conditionConfig h interfaces :
  getInterfaces h
    (getNamedType (_typeForge_getOutputType this (paginator_getType paginator)))
    = Some interfaces ->
  _nodeForge_getInterfaceType this ∉ interfaces ->
  createField formatName_type formatName_enumValue this paginator
    conditionConfig h
    = (Throw must_implement_node, h).
Proof.
  intros Hi Hnot. unfold createField. rewrite Hi.
  now rewrite bool_decide_eq_false_2.
Qed.

Lemma createField_requires_node_witness :
  createField id id example_forge notes_paginator None example_heap
    = (Throw must_implement_node, example_heap).
Proof.
  apply (createField_requires_node id id example_forge notes_paginator None
           example_heap []).
  - reflexivity.
  - apply not_elem_of_nil.
Defined.

(** C5, as stated, fails: the second call of [createField] for the same
    paginator returns a connection type at another address than the
    first, and both are in the heap, with their two edge types. *)
Lemma createField_twice_counterexample :
  created_type
    (createField id id example_forge things_paginator None example_heap)
    = Some (Named 8%nat)
  /\ created_type
    (createField id id example_forge things_paginator None
       (snd (createField id id example_forge things_paginator None
               example_heap)))
    = Some (Named 11%nat)
  /\ Named 8%nat <> Named 11%nat.
Proof.
  repeat split; try reflexivity; discriminate.
Qed.

Lemma getInterfaces_lookup h t interfaces :
  getInterfaces h t = Some interfaces ->
  exists a name fields,
    t = Named a /\ h !! a = Some (GraphQLObjectType name interfaces fields).
Proof.
  destruct t; simpl; try discriminate.
  destruct (h !! a) as [[name ifaces fields| | |]|] eqn:E; try discriminate.
  intros [= <-]. now exists a, name, fields.
Qed.

Lemma getInterfaces_app h h' t interfaces :
  getInterfaces h t = Some interfaces ->
  getInterfaces (h ++ h') t = Some interfaces
  /\ typeRef_name (h ++ h') t = typeRef_name h t.
Proof.
  intros H. apply getInterfaces_lookup in H as (a & name & fields & -> & E).
  simpl. rewrite (lookup_app_l_Some _ _ _ _ E), E. easy.
Qed.

(** What a call that gets past the Node check does to the heap: three new
    types, the edge type, the connection type and the enum, in this order,
    and the connection type is the one returned. *)
Lemma createField_Ok formatName_type formatName_enumValue
    this paginator conditionConfig h f h' :
  createField formatName_type formatName_enumValue this paginator
    conditionConfig h = (Ok f, h') ->
  let gqlPaginatorType :=
    getNamedType (_typeForge_getOutputType this (paginator_getType paginator)) in
  exists interfaces enum,
    getInterfaces h gqlPaginatorType = Some interfaces /\
    fc_type f = Named (S (length h)) /\
    h' = h ++ [ GraphQLObjectType
                  (formatName_type (typeRef_name h gqlPaginatorType ++ lit "-edge"))
                  [_edgeInterfaceType this]
                  [ (lit "cursor",
                     GraphQLNonNull (Named (_cursorType (statics this))));
                    (lit "node", gqlPaginatorType) ];
                GraphQLObjectType
                  (formatName_type
                     (typeRef_name h gqlPaginatorType ++ lit "-connection"))
                  [_connectionInterfaceType this]
                  [ (lit "pageInfo",
                     GraphQLNonNull (Named (_pageInfoType (statics this))));
                    (lit "totalCount", GraphQLInt);
                    (lit "edges", GraphQLList (Named (length h)));
                    (lit "nodes", GraphQLList gqlPaginatorType) ];
                enum ].
Proof.
  intros R gql. unfold createField in R. fold gql in R.
  destruct (getInterfaces h gql) as [interfaces|] eqn:Hi; [|discriminate R].
  destruct (bool_decide _); [|discriminate R].
  unfold _createConnectionType, _createEdgeType, _createOrderByEnumType, new
    in R.
  injection R as <- <-.
  exists interfaces. eexists. split; [reflexivity|]. split.
  - cbn [fc_type]. rewrite length_app. simpl. f_equal. lia.
  - rewrite <- !app_assoc. simpl. do 3 f_equal.
    destruct (getInterfaces_app h
      [GraphQLObjectType (formatName_type (typeRef_name h gql ++ lit "-edge"))
         [_edgeInterfaceType this]
         [ (lit "cursor", GraphQLNonNull (Named (_cursorType (statics this))));
           (lit "node", gql) ]] gql interfaces Hi) as (_ & ->).
    reflexivity.
Qed.

Lemma lookup_new3 {A : Type} (h : list A) (a b c : A) :
  (h ++ [a; b; c]) !! length h = Some a
  /\ (h ++ [a; b; c]) !! S (length h) = Some b.
Proof.
  split.
  - now rewrite lookup_app_r, Nat.sub_diag by lia.
  - rewrite lookup_app_r by lia.
    now replace (S (length h) - length h)%nat with 1%nat by lia.
Qed.

(** C5, amended. The construction is not memoized. Two calls of
    [createField] for one paginator, the second on the heap the first
    left, each make an edge type and a connection type of their own: the
    connection types returned are at different addresses, the second
    pair is a duplicate of the first (the same edge descriptor, a
    connection type of the same name), and both pairs stay in the heap. *)
Theorem createField_not_memoized formatName_type formatName_enumValue
    this paginator conditionConfig conditionConfig' h f1 h1 f2 h2 :
  createField formatName_type formatName_enumValue this paginator
    conditionConfig h = (Ok f1, h1) ->
  createField formatName_type formatName_enumValue this paginator
    conditionConfig' h1 = (Ok f2, h2) ->
  fc_type f1 = Named (S (length h)) /\
  fc_type f2 = Named (S (length h1)) /\
  fc_type f1 <> fc_type f2 /\
  exists edge connection1 connection2,
    h2 !! length h = Some edge /\
    h2 !! length h1 = Some edge /\
    h2 !! S (length h) = Some connection1 /\
    h2 !! S (length h1) = Some connection2 /\
    type_name connection1 = type_name connection2.
Proof.
  intros R1 R2.
  apply createField_Ok in R1 as (interfaces & enum1 & Hi & T1 & H1).
  apply createField_Ok in R2 as (interfaces' & enum2 & Hi' & T2 & H2).
  set (gql := getNamedType
                (_typeForge_getOutputType this (paginator_getType paginator)))
    in *.
  assert (Hn : typeRef_name h1 gql = typeRef_name h gql).
  { rewrite H1. now apply (getInterfaces_app h _ gql interfaces). }
  rewrite Hn in H2.
  assert (L1 : length h1 = (length h + 3)%nat).
  { rewrite H1, length_app. reflexivity. }
  split; [exact T1|]. split; [exact T2|]. split.
  { rewrite T1, T2, L1. intros [= E]. lia. }
  match type of H1 with
  | _ = _ ++ [?e; ?c1; ?o1] =>
      match type of H2 with
      | _ = _ ++ [_; ?c2; ?o2] =>
          exists e, c1, c2;
          pose proof (lookup_new3 h e c1 o1) as (A1 & B1);
          pose proof (lookup_new3 h1 e c2 o2) as (A2 & B2)
      end
  end.
  rewrite <- H1 in A1, B1. rewrite <- H2 in A2, B2.
  assert (length h < length h1)%nat by lia.
  assert (S (length h) < length h1)%nat by lia.
  rewrite H2 at 1 3. rewrite !lookup_app_l by assumption.
  easy.
Qed.

Lemma createField_not_memoized_witness :
  Named 8%nat <> Named 11%nat /\
  exists edge connection1 connection2 : namedType,
    snd (createField id id example_forge things_paginator None
           (snd (createField id id example_forge things_paginator None
                   example_heap))) !! 7%nat = Some edge /\
    snd (createField id id example_forge things_paginator None
           (snd (createField id id example_forge things_paginator None
                   example_heap))) !! 10%nat = Some edge /\
    snd (createField id id example_forge things_paginator None
           (snd (createField id id example_forge things_paginator None
                   example_heap))) !! 8%nat = Some connection1 /\
    snd (createField id id example_forge things_paginator None
           (snd (createField id id example_forge things_paginator None
                   example_heap))) !! 11%nat = Some connection2 /\
    type_name connection1 = type_name connection2.
Proof.
  exact (proj2 (proj2 (createField_not_memoized id id example_forge
           things_paginator None None example_heap _ _ _ _
           eq_refl eq_refl))).
Defined.

(** *** More on the resolver *)




(** X3. A connection that was resolved holds the page that the one call
    of [readPage] returned, and its [totalCount] asks the paginator to
    count under the condition that this call was given. *)
Theorem totalCount_under_the_condition_read paginator conditionConfig args
    context log source log' :
  resolve paginator conditionConfig args context log = (Ok source, log') ->
  exists config,
    log' = log ++ [config]
    /\ paginator_readPage paginator context config = Ok (conn_page source)
    /\ forall context',
         connection_totalCount paginator source context'
         = paginator_count paginator context' (cfg_condition config).
Proof.
  intros R.
  destruct (resolve_cases paginator conditionConfig args context log)
    as [(_ & R') | [(_ & _ & R') | [(_ & _ & _ & R')
       | [(_ & _ & _ & _ & R') | (_ & _ & _ & _ & config & _ & _ & _ & L & F)]]]];
    try (rewrite R in R'; discriminate R').
  rewrite R in L, F. cbn [fst snd] in L, F. exists config.
  destruct (paginator_readPage paginator context config) as [page|e];
    [|discriminate F].
  injection F as ->. easy.
Qed.

Lemma totalCount_under_the_condition_read_witness :
  exists config,
    [ {| cfg_beforeCursor := VUndef; cfg_afterCursor := VUndef;
         cfg_first := VUndef; cfg_last := VUndef;
         cfg_ordering := Some row_id_ordering;
         cfg_condition := VBool true |} ] = [] ++ [config]
    /\ paginator_readPage things_paginator VNull config = Ok two_things_page
    /\ forall context',
         connection_totalCount things_paginator
           {| conn_paginator := things_paginator;
              conn_ordering := Some row_id_ordering;
              conn_condition := VBool true;
              conn_page := two_things_page |} context'
         = paginator_count things_paginator context' (cfg_condition config).
Proof.
  exact (totalCount_under_the_condition_read things_paginator None no_args
           VNull [] _ _ eq_refl).
Defined.

(** X4. The edges and the nodes of a connection are those of its page, in
    the order of the page: the node of the edge at a place is the node at
    that place, the cursor of the edge is the cursor the page has there,
    and every edge carries the paginator and the ordering of the
    connection. *)
Theorem edges_follow_the_page source :
  map edge_node_resolve (connection_edges source) = connection_nodes source
  /\ map edge_cursor (connection_edges source)
     = map pv_cursor (page_values (conn_page source))
  /\ connection_nodes source = map pv_value (page_values (conn_page source))
  /\ Forall (fun e => edge_paginator e = conn_paginator source
                      /\ edge_ordering e = conn_ordering source)
       (connection_edges source).
Proof.
  unfold connection_edges, connection_nodes.
  repeat split.
  - rewrite map_map. reflexivity.
  - rewrite map_map. reflexivity.
  - apply Forall_forall. intros e (pv & -> & _)%list_elem_of_fmap. easy.
Qed.

Lemma index_length_pred {A : Type} (l : list A) :
  index l (Z.of_nat (length l) - 1) = last l.
Proof.
  unfold index. destruct l as [|x l]; [reflexivity|].
  destruct (Z.ltb_spec (Z.of_nat (length (x :: l)) - 1) 0) as [H | _];
    [cbn [length] in H; lia|].
  rewrite last_lookup. f_equal. cbn [length]. lia.
Qed.

(** X5. [startCursor] is the cursor that the edge type resolves for the
    first edge of the connection, and [endCursor] the one for the last
    edge; they throw exactly when there is no edge. *)
Theorem pageInfo_cursors_are_edge_cursors source :
  pageInfo_startCursor source
  = match head (connection_edges source) with
    | Some e => Ok (edge_cursor_resolve (conn_paginator source) e)
    | None => Throw cursor_of_undefined
    end
  /\ pageInfo_endCursor source
     = match last (connection_edges source) with
       | Some e => Ok (edge_cursor_resolve (conn_paginator source) e)
       | None => Throw cursor_of_undefined
       end.
Proof.
  unfold pageInfo_startCursor, pageInfo_endCursor, connection_edges.
  cbv zeta. rewrite index_length_pred, fmap_last. split.
  - now destruct (page_values (conn_page source)).
  - now destruct (last (page_values (conn_page source))).
Qed.

(** *** More on building the field *)


Lemma buildObject_all {A : Type} (entries : list (jsstring * A)) :
  buildObject (map Some entries) = entries.
Proof.
  unfold buildObject. induction entries as [|e entries IH]; [reflexivity|].
  cbn. f_equal. exact IH.
Qed.

(** X7. The field that [createField] returns takes the arguments
    [orderBy], [before], [after], [first] and [last], and [condition]
    after them exactly when a condition config was given. [before] and
    [after] are cursors. [orderBy] defaults to the default ordering of
    the paginator, and its type is the enum made by this call, which has
    one value for each ordering of the paginator, in their order, named
    by [formatName.enumValue]. *)
Theorem createField_arguments formatName_type formatName_enumValue
    this paginator conditionConfig h f h' :
  createField formatName_type formatName_enumValue this paginator
    conditionConfig h = (Ok f, h') ->
  map fst (fc_args f)
  = [lit "orderBy"; lit "before"; lit "after"; lit "first"; lit "last"]
    ++ match conditionConfig with Some _ => [lit "condition"] | None => [] end
  /\ (exists enum name,
        fc_args f !! 0%nat
        = Some (lit "orderBy",
                {| arg_type := Named enum;
                   arg_defaultValue := paginator_getDefaultOrdering paginator |})
        /\ h !! enum = None
        /\ h' !! enum
           = Some (GraphQLEnumType name
                     (map (fun ordering =>
                             (formatName_enumValue (ordering_name ordering),
                              ordering))
                        (paginator_getOrderings paginator))))
  /\ (forall name arg,
        (name, arg) ∈ fc_args f ->
        name = lit "before" \/ name = lit "after" ->
        arg_type arg = Named (_cursorType (statics this))).
Proof.
  intros R. unfold createField in R.
  destruct (getInterfaces h _) as [interfaces|]; [|discriminate R].
  destruct (bool_decide _); [|discriminate R].
  unfold _createConnectionType, _createEdgeType, _createOrderByEnumType, new
    in R.
  injection R as <- <-. cbn [fc_args]. split; [|split].
  - now destruct conditionConfig.
  - eexists _, _. split; [reflexivity|]. split.
    + apply lookup_ge_None. rewrite !length_app. cbn [length]. lia.
    + rewrite lookup_app_r by (rewrite !length_app; cbn [length]; lia).
      rewrite Nat.sub_diag. cbn [lookup list_lookup].
      rewrite <- (buildObject_all
                    (map (fun ordering =>
                            (formatName_enumValue (ordering_name ordering),
                             ordering))
                       (paginator_getOrderings paginator))).
      rewrite map_map. reflexivity.
  - intros name arg Hin Hname.
    destruct conditionConfig; cbn in Hin;
      repeat (apply elem_of_cons in Hin as [[= -> ->] | Hin]);
      try (apply elem_of_nil in Hin; contradiction);
      try reflexivity; destruct Hname as [H | H]; discriminate H.
Qed.

Lemma createField_arguments_witness :
  map fst
    (match fst (createField id id example_forge things_paginator None
                  example_heap) with
     | Ok f => fc_args f
     | Throw _ => []
     end)
  = [lit "orderBy"; lit "before"; lit "after"; lit "first"; lit "last"].
Proof.
  exact (proj1 (createField_arguments id id example_forge things_paginator
                  None example_heap _ _ eq_refl)).
Defined.






(** *** More on the cursor codec *)

(** X9. The decoder takes the token of any array: the first three
    elements are the three fields, further elements are passed over, and
    a field whose element is not there is [undefined]. *)
Theorem deserialize_token_of_array (l : list value) :
  JSON.well_formed (VArr l) = true ->
  _deserializeCursor
    (Base64.encode (Utf8.encode (JSON.stringify (VArr l))))
  = Ok {| paginatorName := default VUndef (l !! 0%nat);
          orderingName := default VUndef (l !! 1%nat);
          cursor := default VUndef (l !! 2%nat) |}.
Proof.
  intros Hwf. unfold _deserializeCursor.
  pose proof (JSON.stringify_well_formed (VArr l) Hwf) as Htext.
  rewrite Base64.base64_decode_encode by now apply Utf8.encode_bytes.
  rewrite Utf8.utf8_decode_encode by assumption.
  now rewrite JSON.parse_stringify by assumption.
Qed.

Lemma deserialize_token_of_array_witness :
  _deserializeCursor
    (Base64.encode
       (Utf8.encode
          (JSON.stringify
             (VArr [VStr (lit "things"); VNull; VNum 1; VNum 2]))))
  = Ok {| paginatorName := VStr (lit "things"); orderingName := VNull;
          cursor := VNum 1 |}
  /\ _deserializeCursor
       (Base64.encode
          (Utf8.encode (JSON.stringify (VArr [VStr (lit "things")]))))
     = Ok {| paginatorName := VStr (lit "things"); orderingName := VUndef;
             cursor := VUndef |}.
Proof.
  split.
  - exact (deserialize_token_of_array
             [VStr (lit "things"); VNull; VNum 1; VNum 2] eq_refl).
  - exact (deserialize_token_of_array [VStr (lit "things")] eq_refl).
Defined.

Lemma stringify_undefined_to_null v :
  JSON.stringify (undefined_to_null v) = JSON.stringify v.
Proof. now destruct v. Qed.

(** X10. A field of a cursor that is [undefined] comes back from the
    token as [null], and the other fields come back as they were: what
    was minted without an ordering has the ordering name [null] once it
    is decoded. *)
Theorem deserialize_serialize_undefined_is_null (c : NamespacedCursor) :
  JSON.well_formed (undefined_to_null (paginatorName c)) = true ->
  JSON.well_formed (undefined_to_null (orderingName c)) = true ->
  JSON.well_formed (undefined_to_null (cursor c)) = true ->
  _deserializeCursor (_serializeCursor c)
  = Ok {| paginatorName := undefined_to_null (paginatorName c);
          orderingName := undefined_to_null (orderingName c);
          cursor := undefined_to_null (cursor c) |}.
Proof.
  intros Hp Ho Hc.
  rewrite <- (deserialize_serialize
                {| paginatorName := undefined_to_null (paginatorName c);
                   orderingName := undefined_to_null (orderingName c);
                   cursor := undefined_to_null (cursor c) |})
    by assumption.
  f_equal. unfold _serializeCursor. do 2 f_equal.
  cbn [paginatorName orderingName cursor JSON.stringify map].
  now rewrite !stringify_undefined_to_null.
Qed.

Lemma deserialize_serialize_undefined_is_null_witness :
  _deserializeCursor
    (_serializeCursor
       {| paginatorName := VStr (lit "things"); orderingName := VUndef;
          cursor := VNum 7 |})
  = Ok {| paginatorName := VStr (lit "things"); orderingName := VNull;
          cursor := VNum 7 |}.
Proof.
  exact (deserialize_serialize_undefined_is_null
           {| paginatorName := VStr (lit "things"); orderingName := VUndef;
              cursor := VNum 7 |} eq_refl eq_refl eq_refl).
Defined.

(** X11. Two well-formed cursors with the same token are the same
    cursor. *)
Theorem serialize_injective (c1 c2 : NamespacedCursor) :
  well_formed_cursor c1 = true -> well_formed_cursor c2 = true ->
  _serializeCursor c1 = _serializeCursor c2 -> c1 = c2.
Proof.
  unfold well_formed_cursor. intros H1 H2 E.
  apply andb_prop in H1 as (H1 & Hc1). apply andb_prop in H1 as (H1 & Ho1).
  apply andb_prop in H1 as (_ & Hp1).
  apply andb_prop in H2 as (H2 & Hc2). apply andb_prop in H2 as (H2 & Ho2).
  apply andb_prop in H2 as (_ & Hp2).
  pose proof (deserialize_serialize c1 Hp1 Ho1 Hc1) as D1.
  pose proof (deserialize_serialize c2 Hp2 Ho2 Hc2) as D2.
  rewrite E, D2 in D1. now injection D1.
Qed.

Lemma serialize_injective_witness :
  {| paginatorName := VStr (lit "things");
     orderingName := VStr (lit "row_id");
     cursor := default VNull (Some (VNum 7)) |}
  = {| paginatorName := VStr (lit "things");
       orderingName := VStr (lit "row_id");
       cursor := VNum 7 |}.
Proof.
  apply serialize_injective; reflexivity.
Defined.

Lemma encode_sextet_token_char n :
  (0 <= n < 64)%Z -> is_token_char (Base64.encode_sextet n) = true.
Proof.
  intros H. unfold Base64.encode_sextet.
  destruct (Z.ltb_spec n 26);
    [|destruct (Z.ltb_spec n 52);
      [|destruct (Z.ltb_spec n 62); [|destruct (Z.eqb_spec n 62)]]];
    unfold is_token_char; decide_cmp; reflexivity.
Qed.

Lemma encode_token_chars bytes :
  Forall Base64.is_byte bytes ->
  Forall (fun c => is_token_char c = true) (Base64.encode bytes)
  /\ exists groups, length (Base64.encode bytes) = (4 * groups)%nat.
Proof.
  induction bytes as [|a|a b|a b c rest IH] using Base64.list_ind3;
    intros HB.
  - split; [constructor | now exists 0%nat].
  - apply Forall_cons in HB as (Ha & _).
    destruct (Base64.sextet_bounds a a a) as (B1 & B2 & _); try assumption.
    split; [|now exists 1%nat]. cbn [Base64.encode].
    repeat (constructor; [first [now apply encode_sextet_token_char
                                | reflexivity]|]).
    constructor.
  - apply Forall_cons in HB as (Ha & HB).
    apply Forall_cons in HB as (Hb & _).
    destruct (Base64.sextet_bounds a b b) as (B1 & _ & B3 & B4 & _);
      try assumption.
    split; [|now exists 1%nat]. cbn [Base64.encode].
    repeat (constructor; [first [now apply encode_sextet_token_char
                                | reflexivity]|]).
    constructor.
  - apply Forall_cons in HB as (Ha & HB).
    apply Forall_cons in HB as (Hb & HB).
    apply Forall_cons in HB as (Hc & HB).
    destruct (Base64.sextet_bounds a b c) as (B1 & _ & B3 & _ & B5 & B6);
      try assumption.
    destruct (IH HB) as (IHchars & groups & IHlength).
    split.
    + cbn [Base64.encode].
      repeat (constructor; [now apply encode_sextet_token_char|]).
      assumption.
    + exists (S groups). cbn [Base64.encode length]. lia.
Qed.

(** X12. The token of a well-formed cursor is made of letters, digits,
    [+], [/] and [=] only, in groups of four. *)
Theorem serialize_token_characters (c : NamespacedCursor) :
  well_formed_cursor c = true ->
  Forall (fun ch => is_token_char ch = true) (_serializeCursor c)
  /\ exists groups, length (_serializeCursor c) = (4 * groups)%nat.
Proof.
  unfold well_formed_cursor. intros H.
  apply andb_prop in H as (H & Hc). apply andb_prop in H as (H & Ho).
  apply andb_prop in H as (_ & Hp).
  apply encode_token_chars, Utf8.encode_bytes, JSON.stringify_well_formed.
  cbn [JSON.well_formed forallb]. now rewrite Hp, Ho, Hc.
Qed.

Lemma serialize_token_characters_witness :
  Forall (fun ch => is_token_char ch = true) (_serializeCursor things_cursor)
  /\ exists groups, length (_serializeCursor things_cursor) = (4 * groups)%nat.
Proof.
  apply (serialize_token_characters things_cursor). reflexivity.
Defined.

End ConnectionForge.

(** ** CollectionForge.ts *)

Module CollectionForge.

(** Modelled from the spec: a unique key of a collection, with the lookup
    the data source provides. [read] gives the record, or [null] when no
    record has the key; it throws when the data source fails. *)
Record CollectionKey : Type := mkCollectionKey {
  key_getName : jsstring;
  key_getType : CatalogType;
  key_read : value -> outcome value;
  key_getKeyForValue : value -> value
}.

(** Collections refer to one another through their relations, in cycles
    too, so a collection is known by a handle, which is its identity. *)
Definition handle : Type := nat.

(** Modelled from the spec: a many-to-one relation; [relation_head] is
    the collection [getHeadCollectionKey().getCollection()] gives. *)
Record Relation : Type := mkRelation {
  relation_getName : jsstring;
  relation_head : handle;
  relation_headKey : CollectionKey;
  relation_getHeadKeyFromTailValue : value -> value
}.

(** Modelled from the spec: a collection. *)
Record Collection : Type := mkCollection {
  collection_getName : jsstring;
  collection_getType : CatalogType;
  collection_getPrimaryKey : option CollectionKey;
  collection_getKeys : list CollectionKey;
  collection_getTailRelations : list Relation
}.

(** What the forge has built so far: the heap of schema types, and the
    cache of the memoized [getType], keyed by collection. *)
Record state : Type := mkState {
  st_heap : heap;
  st_cache : gmap handle addr
}.

Definition empty_state : state := {| st_heap := []; st_cache := ∅ |}.

(** [args[name]]. *)
Definition get (args : gmap jsstring value) (name : jsstring) : value :=
  default VUndef (args !! name).

Record RootFieldConfig : Type := mkRootFieldConfig {
  rf_type : typeRef;
  rf_args : list (jsstring * typeRef);
  rf_resolve : gmap jsstring value -> outcome value
}.

Section Forge.

(** The catalog. *)
Variable collections : handle -> Collection.

(** [utils/formatName] and [utils/id]. *)
Variable formatName_type : jsstring -> jsstring.
Variable formatName_field : jsstring -> jsstring.
Variable formatName_arg : jsstring -> jsstring.
Variable id_deserialize : value -> outcome (jsstring * value).

(** [this._typeForge] and [this._nodeForge]. *)
Variable getOutputType : CatalogType -> typeRef.
Variable getInputType : CatalogType -> typeRef.
Variable nodeInterface : addr.

(** The fields that the tail relations give, for [getType] at call depth
    [getType_rec]: a [map] over the relations, each step calling
    [this.getType(headCollection)] at once. *)
Fixpoint relation_fields (getType_rec : handle -> state -> option (addr * state))
    (relations : list Relation) (st : state)
  : option (list (option (jsstring * typeRef)) * state) :=
  match relations with
  | [] => Some ([], st)
  | relation :: rest =>
      match getType_rec (relation_head relation) st with
      | None => None
      | Some (a, st1) =>
          match relation_fields getType_rec rest st1 with
          | None => None
          | Some (entries, st2) =>
              Some (Some (formatName_field (relation_getName relation),
                          Named a) :: entries, st2)
          end
      end
  end.

(** Modelled from the spec: [utils/memoize], the decorator on [getType].
    The cache is looked up by the argument's identity before the body
    runs, and filled with what the body returned. *)
Definition memoize (body : handle -> state -> option (addr * state))
    (collection : handle) (st : state) : option (addr * state) :=
  match st_cache st !! collection with
  | Some a => Some (a, st)
  | None =>
      match body collection st with
      | None => None
      | Some (a, st') =>
          Some (a, {| st_heap := st_heap st';
                      st_cache := <[collection := a]> (st_cache st') |})
      end
  end.

(** [getType]. The calls nest without bound on some catalogs, so the
    depth of the calls is bounded by [fuel]: [None] is a call nested
    deeper than that, which has not returned. *)
Fixpoint getType (fuel : nat) (collection : handle) (st : state)
  : option (addr * state) :=
  match fuel with
  | O => None
  | S fuel' =>
      memoize
        (fun collection st =>
           let type := collection_getType (collections collection) in
           let primaryKey := collection_getPrimaryKey (collections collection) in
           let name := formatName_type (type_getName type) in
           let interfaces :=
             match primaryKey with Some _ => [nodeInterface] | None => [] end in
           let idField :=
             match primaryKey with
             | Some _ => [Some (lit "__id", GraphQLNonNull GraphQLID)]
             | None => []
             end in
           let basicFields :=
             map (fun field =>
                    Some (formatName_field (field_getName field),
                          getOutputType (field_getType field)))
                 (type_getFields type) in
           match relation_fields (getType fuel')
                   (collection_getTailRelations (collections collection)) st with
           | None => None
           | Some (relationFields, st') =>
               let '(a, h) :=
                 new (GraphQLObjectType name interfaces
                        (buildObject (idField ++ basicFields ++ relationFields)))
                     (st_heap st') in
               Some (a, {| st_heap := h; st_cache := st_cache st' |})
           end)
        collection st
  end.

(** The message of the error for an id of another collection. *)
Definition wrong_collection (name expected : jsstring) : exn :=
  JsError (lit "__id is for collection '" ++ name
           ++ lit "', not expected collection '" ++ expected ++ lit "'.").

(** The resolver of the field that selects by [__id]. *)
Definition byId_resolve (collection : Collection) (primaryKey : CollectionKey)
    (args : gmap jsstring value) : outcome value :=
  match id_deserialize (get args (lit "__id")) with
  | Throw e => Throw e
  | Ok (name, key) =>
      if bool_decide (name <> collection_getName collection)
      then Throw (wrong_collection name (collection_getName collection))
      else key_read primaryKey key
  end.

(** The arguments of the field that selects by [key]. *)
Definition byKey_args (key : CollectionKey) : list (jsstring * typeRef) :=
  let keyName := key_getName key in
  let keyType := key_getType key in
  match keyType with
  | ObjectType _ _ fields _ =>
      buildObject
        (map (fun field =>
                Some (formatName_arg (field_getName field),
                      getInputType (field_getType field)))
             fields)
  | OtherType _ => [(formatName_arg keyName, getInputType keyType)]
  end.

(** The value of the key that the resolver of that field reads from the
    arguments. *)
Definition byKey_keyValue (key : CollectionKey) (args : gmap jsstring value)
  : value :=
  let keyName := key_getName key in
  let keyType := key_getType key in
  match keyType with
  | ObjectType _ _ fields createFromFieldValues =>
      createFromFieldValues
        (map (fun field => get args (field_getName field)) fields)
  | OtherType _ => get args (formatName_arg keyName)
  end.

Definition byKey_resolve (key : CollectionKey) (args : gmap jsstring value)
  : outcome value :=
  key_read key (byKey_keyValue key args).

(** The entries for the keys: the body of the [for] loop, each turn
    calling [this.getType(collection)] for the type of its field. *)
Fixpoint key_entries (fuel : nat) (collection : handle)
    (keys : list CollectionKey) (st : state)
  : option (list (jsstring * RootFieldConfig) * state) :=
  match keys with
  | [] => Some ([], st)
  | key :: rest =>
      let type := collection_getType (collections collection) in
      match getType fuel collection st with
      | None => None
      | Some (a, st1) =>
          match key_entries fuel collection rest st1 with
          | None => None
          | Some (entries, st2) =>
              Some ((formatName_field
                       (type_getName type ++ lit "-by-" ++ key_getName key),
                     {| rf_type := Named a;
                        rf_args := byKey_args key;
                        rf_resolve := byKey_resolve key |}) :: entries, st2)
          end
      end
  end.

Definition createRootFieldEntries (fuel : nat) (collection : handle)
    (st : state) : option (list (jsstring * RootFieldConfig) * state) :=
  let type := collection_getType (collections collection) in
  let primaryKey := collection_getPrimaryKey (collections collection) in
  match
    match primaryKey with
    | Some primaryKey' =>
        match getType fuel collection st with
        | None => None
        | Some (a, st1) =>
            Some ([(formatName_field (type_getName type),
                    {| rf_type := Named a;
                       rf_args := [(lit "__id", GraphQLNonNull GraphQLID)];
                       rf_resolve :=
                         byId_resolve (collections collection) primaryKey' |})],
                  st1)
        end
    | None => Some ([], st)
    end
  with
  | None => None
  | Some (entries, st1) =>
      match key_entries fuel collection
              (collection_getKeys (collections collection)) st1 with
      | None => None
      | Some (entries', st2) => Some (entries ++ entries', st2)
      end
  end.

End Forge.

(** The resolver of the [__id] field of the type that [getType] makes,
    with [id.serialize] of [utils/id]. *)
Definition idField_resolve (id_serialize : jsstring * value -> value)
    (collection : Collection) (primaryKey : CollectionKey) (v : value)
  : value :=
  id_serialize (collection_getName collection,
                key_getKeyForValue primaryKey v).

(** *** Inputs used by the examples *)

Definition integer_key (name : string) : CollectionKey :=
  {| key_getName := lit name;
     key_getType := OtherType (lit "integer");
     key_read := fun _ => Ok VNull;
     key_getKeyForValue := fun v => v |}.

Definition person_type : CatalogType :=
  ObjectType (lit "person") VUndef
    [ mkObjectField (lit "id") VUndef (OtherType (lit "integer"));
      mkObjectField (lit "latest_post_id") VUndef (OtherType (lit "integer")) ]
    VArr.

Definition post_type : CatalogType :=
  ObjectType (lit "post") VUndef
    [ mkObjectField (lit "id") VUndef (OtherType (lit "integer"));
      mkObjectField (lit "author_id") VUndef (OtherType (lit "integer")) ]
    VArr.

Definition post_handle : handle := 0%nat.
Definition person_handle : handle := 1%nat.

(** A post has an author, a person; a person has a latest post. *)
Definition author_relation : Relation :=
  {| relation_getName := lit "author";
     relation_head := person_handle;
     relation_headKey := integer_key "id";
     relation_getHeadKeyFromTailValue := fun v => v |}.

Definition latest_post_relation : Relation :=
  {| relation_getName := lit "latest_post";
     relation_head := post_handle;
     relation_headKey := integer_key "id";
     relation_getHeadKeyFromTailValue := fun v => v |}.

Definition post_collection (relations : list Relation) : Collection :=
  {| collection_getName := lit "post";
     collection_getType := post_type;
     collection_getPrimaryKey := Some (integer_key "id");
     collection_getKeys := [integer_key "id"];
     collection_getTailRelations := relations |}.

Definition person_collection (relations : list Relation) : Collection :=
  {| collection_getName := lit "person";
     collection_getType := person_type;
     collection_getPrimaryKey := Some (integer_key "id");
     collection_getKeys := [integer_key "id"];
     collection_getTailRelations := relations |}.

(** Posts refer to people and people to posts. *)
Definition cyclic_collections (c : handle) : Collection :=
  match c with
  | O => post_collection [author_relation]
  | _ => person_collection [latest_post_relation]
  end.

(** Posts refer to people only. *)
Definition acyclic_collections (c : handle) : Collection :=
  match c with
  | O => post_collection [author_relation]
  | _ => person_collection []
  end.

Definition scalar_type (t : CatalogType) : typeRef :=
  if bool_decide (type_getName t = lit "integer") then GraphQLInt
  else GraphQLString.

(** An id decoder for the examples: the pair of a name and a key. *)
Definition pair_deserialize (v : value) : outcome (jsstring * value) :=
  match v with
  | VArr [VStr name; key] => Ok (name, key)
  | _ => Throw (JsSyntaxError (lit "Unexpected token"))
  end.

(** An [__id] of the post with key 7, and one of a person. *)
Definition post_7_args : gmap jsstring value :=
  <[lit "__id" := VArr [VStr (lit "post"); VNum 7]]> ∅.

Definition person_7_args : gmap jsstring value :=
  <[lit "__id" := VArr [VStr (lit "person"); VNum 7]]> ∅.

(** A formatter for the examples, which turns [a_thing_id] into
    [aThingId], as the argument names of the fixtures are. *)
Fixpoint camelCase (s : jsstring) : jsstring :=
  match s with
  | [] => []
  | c :: rest =>
      if (c =? 95)%Z
      then match rest with
           | [] => []
           | d :: rest' =>
               (if ((97 <=? d) && (d <=? 122))%Z then (d - 32)%Z else d)
               :: camelCase rest'
           end
      else c :: camelCase rest
  end.

(** The key of the relation between two things: the pair of their ids.
    One record has the key (8, 9). *)
Definition thing_pair_type : CatalogType :=
  ObjectType (lit "relation_pkey") VUndef
    [ mkObjectField (lit "a_thing_id") VUndef (OtherType (lit "integer"));
      mkObjectField (lit "b_thing_id") VUndef (OtherType (lit "integer")) ]
    VArr.

Definition relation_8_9 : value :=
  VObj [(lit "a_thing_id", VNum 8); (lit "b_thing_id", VNum 9)].

Definition thing_pair_key : CollectionKey :=
  {| key_getName := lit "pkey";
     key_getType := thing_pair_type;
     key_read := fun k =>
       match k with
       | VArr [VNum 8; VNum 9] => Ok relation_8_9
       | _ => Ok VNull
       end;
     key_getKeyForValue := fun v =>
       match v with
       | VObj [(_, a); (_, b)] => VArr [a; b]
       | _ => VUndef
       end |}.

(** The arguments of a request that gives 8 and 9 under the names the
    field declares. *)
Definition args_8_9 : gmap jsstring value :=
  <[lit "aThingId" := VNum 8]> (<[lit "bThingId" := VNum 9]> ∅).

(** The arguments a request gives: values under the declared names. *)
Definition request_args (names : list jsstring) (values : list value)
  : gmap jsstring value :=
  list_to_map (zip names values).

(** An id encoder for the examples, which [pair_deserialize] reads. *)
Definition pair_serialize (p : jsstring * value) : value :=
  VArr [VStr (fst p); snd p].

(** The collection of the relations between two things. *)
Definition relation_collection : Collection :=
  {| collection_getName := lit "relation";
     collection_getType :=
       ObjectType (lit "relation") VUndef
         [ mkObjectField (lit "a_thing_id") VUndef (OtherType (lit "integer"));
           mkObjectField (lit "b_thing_id") VUndef (OtherType (lit "integer")) ]
         VArr;
     collection_getPrimaryKey := Some thing_pair_key;
     collection_getKeys := [thing_pair_key];
     collection_getTailRelations := [] |}.

(** *** getType *)

(** The collections below which the relations do not go round: all the
    heads of the tail relations are such collections. *)
Inductive acyclic_below (collections : handle -> Collection) : handle -> Prop :=
| acyclic_below_intro (c : handle) :
    (forall relation,
       relation ∈ collection_getTailRelations (collections c) ->
       acyclic_below collections (relation_head relation)) ->
    acyclic_below collections c.

Definition cache_acyclic (collections : handle -> Collection) (st : state)
  : Prop :=
  forall c, is_Some (st_cache st !! c) -> acyclic_below collections c.

(** One state of the forge comes after another: the types that were
    there are there, at their addresses, and so are the entries of the
    cache. *)
Definition grows (st st' : state) : Prop :=
  (exists made, st_heap st' = st_heap st ++ made)
  /\ st_cache st ⊆ st_cache st'.

(** One collection is reached from another along the tail relations. *)
Inductive reaches (collections : handle -> Collection) : handle -> handle -> Prop :=
| reaches_here (c : handle) : reaches collections c c
| reaches_further (c : handle) (relation : Relation) (x : handle) :
    relation ∈ collection_getTailRelations (collections c) ->
    reaches collections (relation_head relation) x ->
    reaches collections c x.

(** The type that [getType] has built for a collection, at an address of
    the heap: an object type with the formatted name of the collection's
    type, the Node interface where there is a primary key, and the fields
    [__id] (where there is a primary key), then one for each field of the
    collection's type, then one for each tail relation, of the type that
    the cache holds for the head collection. *)
Definition built_for (collections : handle -> Collection)
    (formatName_type formatName_field : jsstring -> jsstring)
    (getOutputType : CatalogType -> typeRef) (nodeInterface : nat)
    (st : state) (c : handle) (a : nat) : Prop :=
  let type := collection_getType (collections c) in
  let primaryKey := collection_getPrimaryKey (collections c) in
  exists relationFields,
    st_heap st !! a
    = Some (GraphQLObjectType (formatName_type (type_getName type))
              (match primaryKey with Some _ => [nodeInterface] | None => [] end)
              (match primaryKey with
               | Some _ => [(lit "__id", GraphQLNonNull GraphQLID)]
               | None => []
               end
               ++ map (fun field =>
                         (formatName_field (field_getName field),
                          getOutputType (field_getType field)))
                    (type_getFields type)
               ++ relationFields))
    /\ Forall2
         (fun relation f =>
            exists a' : nat,
              f = (formatName_field (relation_getName relation), Named a')
              /\ st_cache st !! relation_head relation = Some a')
         (collection_getTailRelations (collections c)) relationFields.

(** The cache holds, for collections below which the relations do not go
    round, the types built for them, one type for one collection. *)
Definition sound (collections : handle -> Collection)
    (formatName_type formatName_field : jsstring -> jsstring)
    (getOutputType : CatalogType -> typeRef) (nodeInterface : nat)
    (st : state) : Prop :=
  cache_acyclic collections st
  /\ (forall (c : handle) (a : nat),
        st_cache st !! c = Some a ->
        built_for collections formatName_type formatName_field getOutputType
          nodeInterface st c a)
  /\ (forall (c1 c2 : handle) (a : nat),
        st_cache st !! c1 = Some a -> st_cache st !! c2 = Some a -> c1 = c2).

Section GetType.

Variable collections : handle -> Collection.
Variable formatName_type : jsstring -> jsstring.
Variable formatName_field : jsstring -> jsstring.
Variable getOutputType : CatalogType -> typeRef.
Variable nodeInterface : addr.

Local Abbreviation getType' :=
  (getType collections formatName_type formatName_field getOutputType
     nodeInterface).

Lemma relation_fields_acyclic (rec : handle -> state -> option (addr * state)) :
  (forall c st a st',
     cache_acyclic collections st -> rec c st = Some (a, st') ->
     acyclic_below collections c /\ cache_acyclic collections st') ->
  forall relations st entries st',
    cache_acyclic collections st ->
    relation_fields formatName_field rec relations st = Some (entries, st') ->
    (forall relation, relation ∈ relations ->
       acyclic_below collections (relation_head relation))
    /\ cache_acyclic collections st'.
Proof.
  intros Hrec relations.
  induction relations as [|relation rest IH]; intros st entries st' Hst R.
  - injection R as <- <-. split; [|assumption].
    intros relation H. now apply elem_of_nil in H.
  - simpl in R.
    destruct (rec (relation_head relation) st) as [[a st1]|] eqn:E;
      [|discriminate R].
    destruct (relation_fields formatName_field rec rest st1)
      as [[entries' st2]|] eqn:E'; [|discriminate R].
    injection R as <- <-.
    destruct (Hrec _ _ _ _ Hst E) as (Hhead & Hst1).
    destruct (IH _ _ _ Hst1 E') as (Hrest & Hst2).
    split; [|assumption].
    intros relation' [-> | H]%elem_of_cons; [assumption | now apply Hrest].
Qed.

(** A call of [getType] that returns was made for a collection below
    which the relations do not go round. *)
Lemma getType_returns_acyclic fuel :
  forall c st a st',
    cache_acyclic collections st ->
    getType' fuel c st = Some (a, st') ->
    acyclic_below collections c /\ cache_acyclic collections st'.
Proof.
  induction fuel as [|fuel IH]; intros c st a st' Hst R; [discriminate R|].
  simpl in R. unfold memoize in R.
  destruct (st_cache st !! c) as [a'|] eqn:Hc.
  - injection R as <- <-. split; [|assumption]. apply Hst. now rewrite Hc.
  - destruct (relation_fields formatName_field (getType' fuel)
                (collection_getTailRelations (collections c)) st)
      as [[entries st1]|] eqn:E; [|discriminate R].
    simpl in R. injection R as <- <-.
    destruct (relation_fields_acyclic _ IH _ _ _ _ Hst E) as (Hrel & Hst1).
    assert (Hacyc : acyclic_below collections c) by now constructor.
    split; [assumption|].
    intros c' Hc'. simpl in Hc'.
    destruct (decide (c = c')) as [<- | Hne]; [assumption|].
    rewrite lookup_insert_ne in Hc' by assumption. now apply Hst1.
Qed.

(** What [getType] returned is in the cache, and every later call for
    the same collection returns it, making nothing. *)
Lemma getType_memoized fuel c st a st' :
  getType' fuel c st = Some (a, st') ->
  st_cache st' !! c = Some a
  /\ forall fuel', getType' (S fuel') c st' = Some (a, st').
Proof.
  intros R.
  assert (H : st_cache st' !! c = Some a).
  { destruct fuel as [|fuel]; [discriminate R|].
    simpl in R. unfold memoize in R.
    destruct (st_cache st !! c) as [a'|] eqn:Hc.
    - now injection R as <- <-.
    - destruct (relation_fields _ _ _ _) as [[entries st1]|];
        [|discriminate R].
      simpl in R. injection R as <- <-. simpl. apply lookup_insert_eq. }
  split; [assumption|].
  intros fuel'. simpl. unfold memoize. now rewrite H.
Qed.

End GetType.

Lemma cyclic_not_acyclic c : ~ acyclic_below cyclic_collections c.
Proof.
  intros H. induction H as [c _ IH].
  destruct c as [|c]; simpl in IH.
  - apply (IH author_relation). apply list_elem_of_singleton. reflexivity.
  - apply (IH latest_post_relation). apply list_elem_of_singleton. reflexivity.
Qed.

(** C4. On the catalog where posts refer to people and people to posts,
    the call of [getType] for posts, on a forge that has built nothing,
    returns at no depth of calls: building the fields of either type
    calls [getType] for the other before its own type is made and
    cached. *)
Theorem getType_cycle_never_returns fuel :
  getType cyclic_collections id id scalar_type 0%nat fuel post_handle
    empty_state = None.
Proof.
  destruct (getType cyclic_collections id id scalar_type 0%nat fuel
              post_handle empty_state) as [[a st']|] eqn:R; [|reflexivity].
  exfalso. apply (cyclic_not_acyclic post_handle).
  refine (proj1 (getType_returns_acyclic _ _ _ _ _ _ _ _ _ _ _ R)).
  intros c [a' Hc]. simpl in Hc. now rewrite lookup_empty in Hc.
Qed.

(** Where the relations do not go round, the call returns, the head
    collection's type is made first, and a second call gives the same
    type. *)
Example getType_acyclic_example :
  exists st,
    getType acyclic_collections id id scalar_type 0%nat 2 post_handle
      empty_state = Some (1%nat, st)
    /\ st_cache st !! person_handle = Some 0%nat
    /\ getType acyclic_collections id id scalar_type 0%nat 1 post_handle st
       = Some (1%nat, st).
Proof.
  eexists. split; [reflexivity|]. split; reflexivity.
Qed.

Section GetTypeReturns.

Variable collections : handle -> Collection.
Variable formatName_type : jsstring -> jsstring.
Variable formatName_field : jsstring -> jsstring.
Variable getOutputType : CatalogType -> typeRef.
Variable nodeInterface : addr.

Local Abbreviation getType' :=
  (getType collections formatName_type formatName_field getOutputType
     nodeInterface).

Lemma relation_fields_mono
    (rec1 rec2 : handle -> state -> option (addr * state)) :
  (forall c st r, rec1 c st = Some r -> rec2 c st = Some r) ->
  forall relations st r,
    relation_fields formatName_field rec1 relations st = Some r ->
    relation_fields formatName_field rec2 relations st = Some r.
Proof.
  intros Hrec relations.
  induction relations as [|relation rest IH]; intros st r R; [exact R|].
  simpl in *.
  destruct (rec1 (relation_head relation) st) as [[a st1]|] eqn:E;
    [|discriminate R].
  rewrite (Hrec _ _ _ E).
  destruct (relation_fields formatName_field rec1 rest st1) as [[es st2]|]
    eqn:E'; [|discriminate R].
  now rewrite (IH _ _ E').
Qed.

(** A call that returns within some depth returns the same within any
    greater depth. *)
Lemma getType_fuel_mono fuel :
  forall fuel' c st r,
    (fuel <= fuel')%nat ->
    getType' fuel c st = Some r -> getType' fuel' c st = Some r.
Proof.
  induction fuel as [|fuel IH]; intros fuel' c st r Hle R; [discriminate R|].
  destruct fuel' as [|fuel']; [lia|].
  simpl in *. unfold memoize in *.
  destruct (st_cache st !! c); [exact R|].
  destruct (relation_fields formatName_field (getType' fuel)
              (collection_getTailRelations (collections c)) st)
    as [[entries st1]|] eqn:E; [|discriminate R].
  assert (Hle' : (fuel <= fuel')%nat) by lia.
  rewrite (relation_fields_mono (getType' fuel) (getType' fuel')
             (fun c st r => IH fuel' c st r Hle') _ _ _ E).
  exact R.
Qed.

Lemma relation_fields_returns relations :
  (forall relation, relation ∈ relations ->
     forall st, exists fuel r, getType' fuel (relation_head relation) st = Some r) ->
  forall st, exists fuel r,
    relation_fields formatName_field (getType' fuel) relations st = Some r.
Proof.
  induction relations as [|relation rest IH]; intros Hheads st.
  - exists 0%nat. eexists. reflexivity.
  - assert (Hhead : relation ∈ relation :: rest) by apply list_elem_of_here.
    destruct (Hheads relation Hhead st) as (fuel1 & [a st1] & R1).
    assert (Hrest : forall r, r ∈ rest ->
              forall st, exists fuel r', getType' fuel (relation_head r) st = Some r').
    { intros r Hr. apply Hheads. now apply list_elem_of_further. }
    destruct (IH Hrest st1) as (fuel2 & [entries st2] & R2).
    assert (H1 : (fuel1 <= Nat.max fuel1 fuel2)%nat) by lia.
    assert (H2 : (fuel2 <= Nat.max fuel1 fuel2)%nat) by lia.
    exists (Nat.max fuel1 fuel2). eexists. simpl.
    rewrite (getType_fuel_mono fuel1 (Nat.max fuel1 fuel2) _ _ _ H1 R1).
    rewrite (relation_fields_mono (getType' fuel2)
               (getType' (Nat.max fuel1 fuel2))
               (fun c st r => getType_fuel_mono fuel2 _ c st r H2)
               _ _ _ R2).
    reflexivity.
Qed.

(** Below a collection where the relations do not go round, [getType]
    returns, whatever has been built before. *)
Lemma getType_acyclic_returns c :
  acyclic_below collections c ->
  forall st, exists fuel r, getType' fuel c st = Some r.
Proof.
  induction 1 as [c _ IH]. intros st.
  destruct (relation_fields_returns _ IH st) as (fuel & [entries st1] & R).
  exists (S fuel). simpl. unfold memoize.
  destruct (st_cache st !! c); [eexists; reflexivity|].
  rewrite R. simpl. eexists. reflexivity.
Qed.

End GetTypeReturns.

(** *** Root fields *)

Section RootFields.

Variable collections : handle -> Collection.
Variable formatName_type : jsstring -> jsstring.
Variable formatName_field : jsstring -> jsstring.
Variable formatName_arg : jsstring -> jsstring.
Variable id_deserialize : value -> outcome (jsstring * value).
Variable getOutputType : CatalogType -> typeRef.
Variable getInputType : CatalogType -> typeRef.
Variable nodeInterface : addr.

Local Abbreviation getType' :=
  (getType collections formatName_type formatName_field getOutputType
     nodeInterface).
Local Abbreviation key_entries' :=
  (key_entries collections formatName_type formatName_field formatName_arg
     getOutputType getInputType nodeInterface).
Local Abbreviation createRootFieldEntries' :=
  (createRootFieldEntries collections formatName_type formatName_field
     formatName_arg id_deserialize getOutputType getInputType nodeInterface).

(** Once the type of the collection is in the cache, the loop over the
    keys returns and leaves the forge as it is. *)
Lemma key_entries_cached fuel collection keys st a :
  st_cache st !! collection = Some a ->
  exists entries,
    key_entries' (S fuel) collection keys st = Some (entries, st).
Proof.
  intros Hc. induction keys as [|key keys (entries & IH)].
  - now exists [].
  - cbn [key_entries]. cbn [getType]. unfold memoize at 1. rewrite Hc.
    rewrite IH. eexists. reflexivity.
Qed.

Lemma key_entries_returns collection keys st :
  (exists fuel r, getType' fuel collection st = Some r) ->
  exists fuel r, key_entries' fuel collection keys st = Some r.
Proof.
  intros (fuel & [a st1] & R).
  destruct keys as [|key keys]; [exists 0%nat; eexists; reflexivity|].
  assert (Hle : (fuel <= S fuel)%nat) by lia.
  pose proof (getType_fuel_mono _ _ _ _ _ _ _ _ _ _ Hle R) as R'.
  destruct (getType_memoized _ _ _ _ _ _ _ _ _ _ R) as (Hc & _).
  destruct (key_entries_cached fuel collection keys st1 a Hc) as (entries & E).
  exists (S fuel). eexists. cbn [key_entries].
  rewrite R'. rewrite E. reflexivity.
Qed.

(** Below a collection where the relations do not go round, the root
    fields are made, whatever has been built before. *)
Lemma createRootFieldEntries_returns collection st :
  acyclic_below collections collection ->
  exists fuel r, createRootFieldEntries' fuel collection st = Some r.
Proof.
  intros Hacyclic. unfold createRootFieldEntries.
  pose proof (getType_acyclic_returns collections formatName_type
                formatName_field getOutputType nodeInterface collection
                Hacyclic) as Hreturns.
  destruct (collection_getPrimaryKey (collections collection))
    as [primaryKey|].
  - destruct (Hreturns st) as (fuel & [a st1] & R).
    assert (Hle : (fuel <= S fuel)%nat) by lia.
    pose proof (getType_fuel_mono _ _ _ _ _ _ _ _ _ _ Hle R) as R'.
    destruct (getType_memoized _ _ _ _ _ _ _ _ _ _ R) as (Hc & _).
    destruct (key_entries_cached fuel collection
                (collection_getKeys (collections collection)) st1 a Hc)
      as (entries & E).
    exists (S fuel). eexists. rewrite R', E. reflexivity.
  - destruct (key_entries_returns collection
                (collection_getKeys (collections collection)) st
                (Hreturns st)) as (fuel & [entries st1] & E).
    exists fuel. eexists. rewrite E. reflexivity.
Qed.

End RootFields.

(** C7. For a collection with a primary key, the first root field made is
    the one that selects by [__id]. Its resolver decodes the argument;
    with the name of another collection in the id it throws the error
    that names both collections, and with the collection's own name it
    returns what [primaryKey.read(key)] gives, which is [null], and no
    error, when [read] finds no record. *)
Theorem root_field_by_id collections formatName_type formatName_field
    formatName_arg id_deserialize getOutputType getInputType nodeInterface
    collection primaryKey :
  collection_getPrimaryKey (collections collection) = Some primaryKey ->
  (forall fuel st entries st',
     createRootFieldEntries collections formatName_type formatName_field
       formatName_arg id_deserialize getOutputType getInputType
       nodeInterface fuel collection st = Some (entries, st') ->
     exists a rest,
       entries
       = (formatName_field
            (type_getName (collection_getType (collections collection))),
          {| rf_type := Named a;
             rf_args := [(lit "__id", GraphQLNonNull GraphQLID)];
             rf_resolve :=
               byId_resolve id_deserialize (collections collection)
                 primaryKey |}) :: rest)
  /\ forall args name key,
       id_deserialize (get args (lit "__id")) = Ok (name, key) ->
       (name <> collection_getName (collections collection) ->
        byId_resolve id_deserialize (collections collection) primaryKey args
        = Throw (wrong_collection name
                   (collection_getName (collections collection))))
       /\ (name = collection_getName (collections collection) ->
           byId_resolve id_deserialize (collections collection) primaryKey
             args
           = key_read primaryKey key
           /\ (key_read primaryKey key = Ok VNull ->
               byId_resolve id_deserialize (collections collection)
                 primaryKey args
               = Ok VNull)).
Proof.
  intros Hpk. split.
  - intros fuel st entries st' R.
    unfold createRootFieldEntries in R. rewrite Hpk in R.
    destruct (getType _ _ _ _ _ fuel collection st) as [[a st1]|];
      [|discriminate R].
    destruct (key_entries _ _ _ _ _ _ _ _ _ _ st1) as [[entries' st2]|];
      [|discriminate R].
    injection R as <- <-. eexists _, _. reflexivity.
  - intros args name key D. unfold byId_resolve. rewrite D. split.
    + intros Hne. now rewrite bool_decide_eq_true_2.
    + intros ->. rewrite bool_decide_eq_false_2 by (intros H; now apply H).
      split; [reflexivity | trivial].
Qed.

Lemma root_field_by_id_witness :
  (exists field rest,
     default []
       (fst <$> createRootFieldEntries acyclic_collections id id id
                  pair_deserialize scalar_type scalar_type 0%nat
                  2 post_handle empty_state)
     = (lit "post", field) :: rest
     /\ rf_resolve field post_7_args = Ok VNull
     /\ rf_resolve field person_7_args
        = Throw (wrong_collection (lit "person") (lit "post")))
  /\ byId_resolve pair_deserialize (acyclic_collections post_handle)
       (integer_key "id") post_7_args
     = Ok VNull
  /\ byId_resolve pair_deserialize (acyclic_collections post_handle)
       (integer_key "id") person_7_args
     = Throw (wrong_collection (lit "person") (lit "post")).
Proof.
  pose proof (root_field_by_id acyclic_collections id id id pair_deserialize
                scalar_type scalar_type 0%nat post_handle (integer_key "id")
                eq_refl) as (Hentries & Hresolve).
  destruct (Hresolve post_7_args (lit "post") (VNum 7) eq_refl)
    as (_ & Hsame).
  destruct (Hresolve person_7_args (lit "person") (VNum 7) eq_refl)
    as (Hother & _).
  destruct (Hsame eq_refl) as (_ & Hnull).
  assert (Hne : lit "person" <> lit "post") by discriminate.
  split; [|split; [exact (Hnull eq_refl) | exact (Hother Hne)]].
  destruct (Hentries 2%nat empty_state _ _ eq_refl) as (a & rest & E).
  eexists _, rest. split; [exact (f_equal _ E)|].
  split; [exact (Hnull eq_refl) | exact (Hother Hne)].
Defined.

(** C8. With a formatter that changes the names of the key's fields, the
    field declares one argument for each component, under the formatted
    name, but its resolver reads the arguments under the unformatted
    names: it rebuilds the key from [undefined] twice where the request
    gave 8 and 9, and finds no record where the record of the key (8, 9)
    is there. The branch for a key that is not composite reads the
    argument under the name it declared. *)
Theorem composite_key_read_under_other_names :
  byKey_args camelCase scalar_type thing_pair_key
    = [(lit "aThingId", GraphQLInt); (lit "bThingId", GraphQLInt)]
  /\ byKey_keyValue camelCase thing_pair_key args_8_9
     = VArr [VUndef; VUndef]
  /\ byKey_resolve camelCase thing_pair_key args_8_9 = Ok VNull
  /\ key_read thing_pair_key (VArr [VNum 8; VNum 9]) = Ok relation_8_9
  /\ key_getKeyForValue thing_pair_key relation_8_9 = VArr [VNum 8; VNum 9]
  /\ byKey_args camelCase scalar_type (integer_key "row_id")
     = [(lit "rowId", GraphQLInt)]
  /\ byKey_keyValue camelCase (integer_key "row_id")
       (<[lit "rowId" := VNum 8]> ∅) = VNum 8.
Proof.
  repeat split; vm_compute; reflexivity.
Qed.

Lemma request_args_dom names values name :
  name ∉ names -> get (request_args names values) name = VUndef.
Proof.
  intros Hnot. unfold get, request_args.
  rewrite (not_elem_of_list_to_map_1 (zip names values) name); [reflexivity|].
  intros H. apply Hnot.
  apply list_elem_of_fmap in H as ([n v] & -> & H).
  now apply elem_of_zip_l in H.
Qed.

(** Whatever the formatter: a component whose own name is not among the
    declared names is read as [undefined], whatever the request gave. *)
Lemma composite_key_component_undefined formatName_arg name description
    fields createFromFieldValues key values i field :
  key_getType key = ObjectType name description fields createFromFieldValues ->
  fields !! i = Some field ->
  field_getName field ∉ map (fun f => formatName_arg (field_getName f)) fields ->
  exists read,
    byKey_keyValue formatName_arg key
      (request_args (map (fun f => formatName_arg (field_getName f)) fields)
         values)
      = createFromFieldValues read
    /\ read !! i = Some VUndef.
Proof.
  intros Ht Hi Hnot. unfold byKey_keyValue. rewrite Ht.
  eexists. split; [reflexivity|].
  rewrite list_lookup_fmap, Hi. simpl. f_equal.
  now apply request_args_dom.
Qed.

(** Where the formatter leaves the names of the components as they are,
    and the names differ from one another, the resolver rebuilds the key
    from the values the request gave. *)
Lemma composite_key_unformatted formatName_arg name description
    fields createFromFieldValues key values :
  key_getType key = ObjectType name description fields createFromFieldValues ->
  (forall f, f ∈ fields -> formatName_arg (field_getName f) = field_getName f) ->
  NoDup (map field_getName fields) ->
  length values = length fields ->
  byKey_keyValue formatName_arg key
    (request_args (map (fun f => formatName_arg (field_getName f)) fields)
       values)
    = createFromFieldValues values.
Proof.
  intros Ht Hid Hnd Hlen. unfold byKey_keyValue. rewrite Ht. f_equal.
  assert (Hnames : map (fun f => formatName_arg (field_getName f)) fields
                   = map field_getName fields).
  { apply map_ext_in. intros f Hf. apply Hid. now apply list_elem_of_In. }
  rewrite Hnames. clear Ht Hid Hnames.
  revert values Hlen Hnd.
  induction fields as [|f fields IH]; intros [|v values] Hlen Hnd;
    try discriminate Hlen; [reflexivity|].
  simpl in *. apply NoDup_cons in Hnd as (Hf & Hnd).
  unfold get at 1, request_args. simpl. rewrite lookup_insert_eq. simpl.
  f_equal. etransitivity; [|apply (IH values); auto; lia].
  apply map_ext_in. intros g Hg.
  unfold get, request_args. simpl.
  rewrite lookup_insert_ne; [reflexivity|].
  intros E. apply Hf. rewrite E. apply list_elem_of_In, in_map. exact Hg.
Qed.

(** *** More on getType *)

(** X13. On a forge that has built nothing, [getType] returns for a
    collection, at some depth of calls, exactly when the tail relations
    below the collection do not go round. *)
Theorem getType_returns_iff_acyclic collections formatName_type
    formatName_field getOutputType nodeInterface collection :
  (exists fuel r,
     getType collections formatName_type formatName_field getOutputType
       nodeInterface fuel collection empty_state = Some r)
  <-> acyclic_below collections collection.
Proof.
  split.
  - intros (fuel & [a st'] & R).
    refine (proj1 (getType_returns_acyclic _ _ _ _ _ _ _ _ _ _ _ R)).
    intros c [a' Hc]. simpl in Hc. now rewrite lookup_empty in Hc.
  - intros H. now apply getType_acyclic_returns.
Qed.

Lemma grows_refl st : grows st st.
Proof. split; [exists []; now rewrite app_nil_r | reflexivity]. Qed.

Lemma grows_trans st1 st2 st3 : grows st1 st2 -> grows st2 st3 -> grows st1 st3.
Proof.
  intros ((m1 & H1) & C1) ((m2 & H2) & C2). split.
  - exists (m1 ++ m2). now rewrite H2, H1, app_assoc.
  - now transitivity (st_cache st2).
Qed.

Lemma grows_heap st st' (a : nat) d :
  grows st st' -> st_heap st !! a = Some d -> st_heap st' !! a = Some d.
Proof.
  intros ((made & ->) & _) H. apply lookup_app_l_Some. exact H.
Qed.

Lemma grows_cache st st' (c : handle) (a : addr) :
  grows st st' -> st_cache st !! c = Some a -> st_cache st' !! c = Some a.
Proof.
  intros (_ & Hsub) H. exact (lookup_weaken _ _ _ _ H Hsub).
Qed.

Section Grows.

Variable collections : handle -> Collection.
Variable formatName_type : jsstring -> jsstring.
Variable formatName_field : jsstring -> jsstring.
Variable getOutputType : CatalogType -> typeRef.
Variable nodeInterface : addr.

Local Abbreviation getType' :=
  (getType collections formatName_type formatName_field getOutputType
     nodeInterface).

Lemma relation_fields_grows (rec : handle -> state -> option (addr * state)) :
  (forall c st a st', rec c st = Some (a, st') -> grows st st') ->
  forall relations st entries st',
    relation_fields formatName_field rec relations st = Some (entries, st') ->
    grows st st'.
Proof.
  intros Hrec relations.
  induction relations as [|relation rest IH]; intros st entries st' R.
  - injection R as <- <-. apply grows_refl.
  - simpl in R.
    destruct (rec (relation_head relation) st) as [[a st1]|] eqn:E;
      [|discriminate R].
    destruct (relation_fields formatName_field rec rest st1)
      as [[entries' st2]|] eqn:E'; [|discriminate R].
    injection R as <- <-.
    eapply grows_trans; [exact (Hrec _ _ _ _ E) | exact (IH _ _ _ E')].
Qed.

Lemma getType_grows fuel :
  forall c st a st', getType' fuel c st = Some (a, st') -> grows st st'.
Proof.
  induction fuel as [|fuel IH]; intros c st a st' R; [discriminate R|].
  simpl in R. unfold memoize in R.
  destruct (st_cache st !! c) as [a'|] eqn:Hc.
  - injection R as <- <-. apply grows_refl.
  - destruct (relation_fields formatName_field (getType' fuel)
                (collection_getTailRelations (collections c)) st)
      as [[entries st1]|] eqn:E; [|discriminate R].
    simpl in R. injection R as <- <-.
    destruct (relation_fields_grows _ IH _ _ _ _ E) as ((made & Hh) & Hcache).
    split; simpl.
    + eexists. rewrite Hh, <- app_assoc. reflexivity.
    + apply map_subseteq_spec. intros c0 a0 H0.
      destruct (decide (c = c0)) as [<- | Hne]; [congruence|].
      rewrite lookup_insert_ne by assumption.
      exact (lookup_weaken _ _ _ _ H0 Hcache).
Qed.

End Grows.

(** X14. [getType] is memoized for good: when a call has returned, the
    types built before it are still at their addresses, and a later call
    returns, and builds nothing, for the collection of the call and for
    every collection that had its type before, with the type it had. *)
Theorem getType_same_type_again collections formatName_type formatName_field
    getOutputType nodeInterface fuel collection st a st' :
  getType collections formatName_type formatName_field getOutputType
    nodeInterface fuel collection st = Some (a, st') ->
  (forall fuel',
     getType collections formatName_type formatName_field getOutputType
       nodeInterface (S fuel') collection st' = Some (a, st'))
  /\ (forall (a0 : nat) d,
        st_heap st !! a0 = Some d -> st_heap st' !! a0 = Some d)
  /\ (forall c0 a0 fuel',
        st_cache st !! c0 = Some a0 ->
        getType collections formatName_type formatName_field getOutputType
          nodeInterface (S fuel') c0 st' = Some (a0, st')).
Proof.
  intros R.
  pose proof (getType_grows _ _ _ _ _ _ _ _ _ _ R) as Hgrows.
  split; [exact (proj2 (getType_memoized _ _ _ _ _ _ _ _ _ _ R))|].
  split.
  - intros a0 d. now apply grows_heap.
  - intros c0 a0 fuel' H0. simpl. unfold memoize.
    now rewrite (grows_cache _ _ _ _ Hgrows H0).
Qed.

Lemma getType_same_type_again_witness :
  let st' :=
    default empty_state
      (snd <$> getType acyclic_collections id id scalar_type 0%nat 2
                 post_handle empty_state) in
  getType acyclic_collections id id scalar_type 0%nat 1 post_handle st'
  = Some (1%nat, st')
  /\ getType acyclic_collections id id scalar_type 0%nat 1 person_handle st'
     = Some (0%nat, st').
Proof.
  pose proof (getType_same_type_again acyclic_collections id id scalar_type
                0%nat 2 post_handle empty_state _ _ eq_refl) as (Hsame & _).
  pose proof (getType_same_type_again acyclic_collections id id scalar_type
                0%nat 1 post_handle _ _ _ (Hsame 0%nat)) as (_ & _ & Hold).
  split; [exact (Hsame 0%nat) | exact (Hold person_handle 0%nat 0%nat eq_refl)].
Defined.

Lemma reaches_relation collections c x relation :
  reaches collections c x ->
  relation ∈ collection_getTailRelations (collections x) ->
  reaches collections c (relation_head relation).
Proof.
  induction 1 as [c | c r x Hr _ IH]; intros Hrel.
  - eapply reaches_further; [exact Hrel | apply reaches_here].
  - eapply reaches_further; [exact Hr | now apply IH].
Qed.

Lemma reaches_last collections c x :
  reaches collections c x ->
  c = x
  \/ exists y relation,
       reaches collections c y
       /\ relation ∈ collection_getTailRelations (collections y)
       /\ relation_head relation = x.
Proof.
  induction 1 as [c | c r x Hr Hreach IH]; [now left|]. right.
  destruct IH as [E | (y & r' & Hy & Hr' & E)].
  - exists c, r. split; [apply reaches_here | now split].
  - exists y, r'. split; [|now split].
    eapply reaches_further; [exact Hr | exact Hy].
Qed.

(** Where the relations do not go round, no relation leads back to a
    collection from what is reached from it. *)
Lemma acyclic_no_way_back collections c :
  acyclic_below collections c ->
  forall y relation,
    reaches collections c y ->
    relation ∈ collection_getTailRelations (collections y) ->
    relation_head relation <> c.
Proof.
  induction 1 as [c _ IH]. intros y relation Hreach Hrel Hhead.
  destruct Hreach as [c | c r0 y Hr0 Hreach0].
  - refine (IH relation Hrel c relation _ Hrel eq_refl).
    rewrite Hhead. apply reaches_here.
  - refine (IH r0 Hr0 c r0 _ Hr0 eq_refl).
    rewrite <- Hhead. eapply reaches_relation; [exact Hreach0 | exact Hrel].
Qed.

Lemma acyclic_not_reached collections c relation :
  acyclic_below collections c ->
  relation ∈ collection_getTailRelations (collections c) ->
  ~ reaches collections (relation_head relation) c.
Proof.
  intros Hacyclic Hrel Hreach.
  destruct (reaches_last _ _ _ Hreach) as [E | (y & r' & Hy & Hr' & E)].
  - exact (acyclic_no_way_back _ _ Hacyclic c relation
             (reaches_here _ _) Hrel E).
  - refine (acyclic_no_way_back _ _ Hacyclic y r' _ Hr' E).
    eapply reaches_further; [exact Hrel | exact Hy].
Qed.

Section Sound.

Variable collections : handle -> Collection.
Variable formatName_type : jsstring -> jsstring.
Variable formatName_field : jsstring -> jsstring.
Variable getOutputType : CatalogType -> typeRef.
Variable nodeInterface : addr.

Local Abbreviation getType' :=
  (getType collections formatName_type formatName_field getOutputType
     nodeInterface).
Local Abbreviation built_for' :=
  (built_for collections formatName_type formatName_field getOutputType
     nodeInterface).
Local Abbreviation sound' :=
  (sound collections formatName_type formatName_field getOutputType
     nodeInterface).

Lemma sound_empty : sound' empty_state.
Proof.
  split; [|split].
  - intros c [a H]. simpl in H. now rewrite lookup_empty in H.
  - intros c a H. simpl in H. now rewrite lookup_empty in H.
  - intros c1 c2 a H. simpl in H. now rewrite lookup_empty in H.
Qed.

Lemma built_for_grows st st' c (a : nat) :
  grows st st' -> built_for' st c a -> built_for' st' c a.
Proof.
  intros Hgrows (relationFields & Hd & Hrel). exists relationFields. split.
  - exact (grows_heap _ _ _ _ Hgrows Hd).
  - eapply Forall2_impl; [exact Hrel|].
    intros relation f (a' & -> & Hc). exists a'. split; [reflexivity|].
    exact (grows_cache _ _ _ _ Hgrows Hc).
Qed.

(** The entries that a call adds to the cache are for collections
    reached from the collection of the call. *)
Lemma relation_fields_reached (rec : handle -> state -> option (addr * state)) :
  (forall c st a st' x,
     rec c st = Some (a, st') -> is_Some (st_cache st' !! x) ->
     is_Some (st_cache st !! x) \/ reaches collections c x) ->
  forall relations st entries st' x,
    relation_fields formatName_field rec relations st = Some (entries, st') ->
    is_Some (st_cache st' !! x) ->
    is_Some (st_cache st !! x)
    \/ exists relation,
         relation ∈ relations
         /\ reaches collections (relation_head relation) x.
Proof.
  intros Hrec relations.
  induction relations as [|relation rest IH]; intros st entries st' x R Hx.
  - injection R as <- <-. now left.
  - simpl in R.
    destruct (rec (relation_head relation) st) as [[a st1]|] eqn:E;
      [|discriminate R].
    destruct (relation_fields formatName_field rec rest st1)
      as [[entries' st2]|] eqn:E'; [|discriminate R].
    injection R as <- <-.
    destruct (IH _ _ _ _ E' Hx) as [H1 | (r & Hr & Hreach)].
    + destruct (Hrec _ _ _ _ _ E H1) as [H0 | Hreach]; [now left|].
      right. exists relation. split; [apply list_elem_of_here | exact Hreach].
    + right. exists r. split; [now apply list_elem_of_further | exact Hreach].
Qed.

Lemma getType_reached fuel :
  forall c st a st' x,
    getType' fuel c st = Some (a, st') -> is_Some (st_cache st' !! x) ->
    is_Some (st_cache st !! x) \/ reaches collections c x.
Proof.
  induction fuel as [|fuel IH]; intros c st a st' x R Hx; [discriminate R|].
  simpl in R. unfold memoize in R.
  destruct (st_cache st !! c) as [a'|] eqn:Hc.
  - injection R as <- <-. now left.
  - destruct (relation_fields formatName_field (getType' fuel)
                (collection_getTailRelations (collections c)) st)
      as [[entries st1]|] eqn:E; [|discriminate R].
    simpl in R. injection R as <- <-. simpl in Hx.
    destruct (decide (c = x)) as [<- | Hne]; [right; apply reaches_here|].
    rewrite lookup_insert_ne in Hx by assumption.
    destruct (relation_fields_reached _ IH _ _ _ _ _ E Hx)
      as [H0 | (r & Hr & Hreach)]; [now left|].
    right. eapply reaches_further; [exact Hr | exact Hreach].
Qed.

Lemma relation_fields_sound (rec : handle -> state -> option (addr * state)) :
  (forall c st a st',
     sound' st -> rec c st = Some (a, st') ->
     sound' st' /\ grows st st' /\ st_cache st' !! c = Some a) ->
  forall relations st entries st',
    sound' st ->
    relation_fields formatName_field rec relations st = Some (entries, st') ->
    sound' st' /\ grows st st'
    /\ exists relationFields,
         entries = map Some relationFields
         /\ Forall2
              (fun relation f =>
                 exists a' : nat,
                   f = (formatName_field (relation_getName relation), Named a')
                   /\ st_cache st' !! relation_head relation = Some a')
              relations relationFields.
Proof.
  intros Hrec relations.
  induction relations as [|relation rest IH]; intros st entries st' Hst R.
  - injection R as <- <-. split; [assumption|]. split; [apply grows_refl|].
    exists []. split; [reflexivity | constructor].
  - simpl in R.
    destruct (rec (relation_head relation) st) as [[a st1]|] eqn:E;
      [|discriminate R].
    destruct (relation_fields formatName_field rec rest st1)
      as [[entries' st2]|] eqn:E'; [|discriminate R].
    injection R as <- <-.
    destruct (Hrec _ _ _ _ Hst E) as (Hst1 & Hg1 & Ha).
    destruct (IH _ _ _ Hst1 E') as (Hst2 & Hg2 & fields & -> & Hfields).
    split; [assumption|]. split; [exact (grows_trans _ _ _ Hg1 Hg2)|].
    exists ((formatName_field (relation_getName relation), Named a) :: fields).
    split; [reflexivity|].
    constructor; [|exact Hfields].
    exists a. split; [reflexivity|]. exact (grows_cache _ _ _ _ Hg2 Ha).
Qed.

Lemma getType_sound fuel :
  forall c st a st',
    sound' st -> getType' fuel c st = Some (a, st') ->
    sound' st' /\ grows st st' /\ st_cache st' !! c = Some a.
Proof.
  induction fuel as [|fuel IH]; intros c st a st' Hst R; [discriminate R|].
  pose proof (getType_returns_acyclic _ _ _ _ _ _ _ _ _ _ (proj1 Hst) R)
    as (Hacyclic & Hacyclic').
  pose proof (proj1 (getType_memoized _ _ _ _ _ _ _ _ _ _ R)) as Hcached.
  pose proof (getType_grows _ _ _ _ _ _ _ _ _ _ R) as Hgrows.
  split; [|now split].
  simpl in R. unfold memoize in R.
  destruct (st_cache st !! c) as [a'|] eqn:Hc.
  { now injection R as <- <-. }
  destruct (relation_fields formatName_field (getType' fuel)
              (collection_getTailRelations (collections c)) st)
    as [[entries st1]|] eqn:E; [|discriminate R].
  destruct (relation_fields_sound _ IH _ _ _ _ Hst E)
    as (Hst1 & Hg1 & fields & -> & Hfields).
  assert (Hc1 : st_cache st1 !! c = None).
  { destruct (st_cache st1 !! c) as [a1|] eqn:Hc1; [|reflexivity]. exfalso.
    destruct (relation_fields_reached _ (getType_reached fuel) _ _ _ _ c E)
      as [[a0 H0] | (r & Hr & Hreach)].
    - now rewrite Hc1.
    - congruence.
    - exact (acyclic_not_reached _ _ _ Hacyclic Hr Hreach). }
  simpl in R. injection R as <- <-.
  set (st' := {| st_heap := st_heap st1 ++ _; st_cache := _ |}) in *.
  assert (Hg' : grows st1 st').
  { split; [eexists; reflexivity|]. simpl. now apply insert_subseteq. }
  destruct Hst1 as (_ & Hbuilt1 & Hinj1).
  split; [assumption|]. split.
  - intros c0 a0 H0. simpl in H0.
    destruct (decide (c = c0)) as [<- | Hne].
    + rewrite lookup_insert_eq in H0. injection H0 as <-.
      exists fields. split.
      * simpl. rewrite lookup_app_r by reflexivity.
        rewrite Nat.sub_diag. simpl. unfold buildObject.
        rewrite !omap_app.
        repeat f_equal.
        -- now destruct (collection_getPrimaryKey (collections c)).
        -- etransitivity;
             [|apply (ConnectionForge.buildObject_all
                        (map (fun field =>
                                (formatName_field (field_getName field),
                                 getOutputType (field_getType field)))
                           (type_getFields
                              (collection_getType (collections c)))))].
           unfold buildObject. now rewrite map_map.
        -- exact (ConnectionForge.buildObject_all fields).
      * eapply Forall2_impl; [exact Hfields|].
        intros relation f (a' & -> & Hrel). exists a'.
        split; [reflexivity|]. exact (grows_cache _ _ _ _ Hg' Hrel).
    + rewrite lookup_insert_ne in H0 by assumption.
      exact (built_for_grows _ _ _ _ Hg' (Hbuilt1 _ _ H0)).
  - assert (Hfresh : forall c0, st_cache st1 !! c0 <> Some (length (st_heap st1))).
    { intros c0 H0. destruct (Hbuilt1 _ _ H0) as (fs & Hd & _).
      apply lookup_lt_Some in Hd. lia. }
    intros c1 c2 a0 H1 H2. simpl in H1, H2.
    destruct (decide (c = c1)) as [<- | Hne1];
      destruct (decide (c = c2)) as [<- | Hne2]; try reflexivity.
    + rewrite lookup_insert_eq in H1. injection H1 as <-.
      rewrite lookup_insert_ne in H2 by assumption. now apply Hfresh in H2.
    + rewrite lookup_insert_eq in H2. injection H2 as <-.
      rewrite lookup_insert_ne in H1 by assumption. now apply Hfresh in H1.
    + rewrite lookup_insert_ne in H1, H2 by assumption.
      exact (Hinj1 _ _ _ H1 H2).
Qed.

End Sound.

(** X15. On a forge whose cache is sound, which the forge that has built
    nothing is, a call of [getType] that returns leaves the cache sound,
    and returns the address of the type built for the collection: the
    object type named after the collection's type, with the Node
    interface and the [__id] field where the collection has a primary
    key, a field for each field of the collection's type, and a field for
    each tail relation whose type is the very type that [getType] gives
    for the head collection. No two collections share a type. *)
Theorem getType_builds_the_type_of_the_collection collections formatName_type
    formatName_field getOutputType nodeInterface fuel collection st a st' :
  sound collections formatName_type formatName_field getOutputType
    nodeInterface st ->
  getType collections formatName_type formatName_field getOutputType
    nodeInterface fuel collection st = Some (a, st') ->
  sound collections formatName_type formatName_field getOutputType
    nodeInterface st'
  /\ built_for collections formatName_type formatName_field getOutputType
       nodeInterface st' collection a
  /\ forall other fuel' b st'',
       getType collections formatName_type formatName_field getOutputType
         nodeInterface fuel' other st' = Some (b, st'') ->
       other <> collection -> b <> a.
Proof.
  intros Hst R.
  destruct (getType_sound _ _ _ _ _ _ _ _ _ _ Hst R) as (Hst' & _ & Hc).
  split; [assumption|]. split; [exact (proj1 (proj2 Hst') _ _ Hc)|].
  intros other fuel' b st'' R' Hne ->.
  destruct (getType_sound _ _ _ _ _ _ _ _ _ _ Hst' R')
    as ((_ & _ & Hinj) & Hg & Hother).
  apply Hne. apply (Hinj other collection a Hother).
  exact (grows_cache _ _ _ _ Hg Hc).
Qed.

Lemma getType_builds_the_type_of_the_collection_witness :
  let st' :=
    default empty_state
      (snd <$> getType acyclic_collections id id scalar_type 0%nat 2
                 post_handle empty_state) in
  sound acyclic_collections id id scalar_type 0%nat st'
  /\ built_for acyclic_collections id id scalar_type 0%nat st' post_handle 1
  /\ st_heap st' !! 1%nat
     = Some (GraphQLObjectType (lit "post") [0%nat]
               [(lit "__id", GraphQLNonNull GraphQLID);
                (lit "id", GraphQLInt); (lit "author_id", GraphQLInt);
                (lit "author", Named 0)]).
Proof.
  pose proof (getType_builds_the_type_of_the_collection acyclic_collections
                id id scalar_type 0%nat 2 post_handle empty_state _ _
                (sound_empty _ _ _ _ _) eq_refl) as (Hsound & Hbuilt & _).
  split; [exact Hsound|]. split; [exact Hbuilt | reflexivity].
Defined.

(** *** More on the root fields *)

Section RootFieldsShape.

Variable collections : handle -> Collection.
Variable formatName_type : jsstring -> jsstring.
Variable formatName_field : jsstring -> jsstring.
Variable formatName_arg : jsstring -> jsstring.
Variable getOutputType : CatalogType -> typeRef.
Variable getInputType : CatalogType -> typeRef.
Variable nodeInterface : addr.

Local Abbreviation getType' :=
  (getType collections formatName_type formatName_field getOutputType
     nodeInterface).
Local Abbreviation key_entries' :=
  (key_entries collections formatName_type formatName_field formatName_arg
     getOutputType getInputType nodeInterface).

(** The entry that the loop makes for one key, with the type at [a]. *)
Local Abbreviation key_entry collection a :=
  (fun key =>
     (formatName_field
        (type_getName (collection_getType (collections collection))
         ++ lit "-by-" ++ key_getName key),
      {| rf_type := Named a;
         rf_args := byKey_args formatName_arg getInputType key;
         rf_resolve := byKey_resolve formatName_arg key |})).

Lemma key_entries_cached_shape fuel collection keys st (a : addr) entries st' :
  st_cache st !! collection = Some a ->
  key_entries' fuel collection keys st = Some (entries, st') ->
  entries = map (key_entry collection a) keys /\ st' = st.
Proof.
  intros Hc. revert entries.
  induction keys as [|key keys IH]; intros entries R.
  - now injection R as <- <-.
  - cbn [key_entries] in R.
    destruct fuel as [|fuel]; [discriminate R|].
    cbn [getType] in R. unfold memoize at 1 in R. rewrite Hc in R.
    destruct (key_entries' (S fuel) collection keys st)
      as [[entries' st2]|] eqn:E; [|discriminate R].
    injection R as <- <-.
    destruct (IH _ eq_refl) as (-> & ->). now split.
Qed.

Lemma key_entries_shape fuel collection keys st entries st' :
  keys <> [] ->
  key_entries' fuel collection keys st = Some (entries, st') ->
  exists a : nat,
    getType' fuel collection st = Some (a, st')
    /\ entries = map (key_entry collection a) keys.
Proof.
  intros Hkeys R. destruct keys as [|key keys]; [contradiction|].
  cbn [key_entries] in R.
  destruct (getType' fuel collection st) as [[a st1]|] eqn:G;
    [|discriminate R].
  destruct (key_entries' fuel collection keys st1)
    as [[entries' st2]|] eqn:E; [|discriminate R].
  injection R as <- <-.
  destruct (key_entries_cached_shape _ _ _ _ a _ _
              (proj1 (getType_memoized _ _ _ _ _ _ _ _ _ _ G)) E)
    as (-> & ->).
  exists a. now split.
Qed.

End RootFieldsShape.

(** X16. The root fields that [createRootFieldEntries] makes for a
    collection are the field that selects by [__id], where the collection
    has a primary key, and after it one field for each key, in the order
    of the keys, named after the collection's type and the key. All of
    them have one and the same type, and where there is any field, that
    type is the one [getType] gives for the collection on the forge as the
    call left it. *)
Theorem root_fields_share_the_type_of_the_collection collections
    formatName_type formatName_field formatName_arg id_deserialize
    getOutputType getInputType nodeInterface fuel collection st entries st' :
  createRootFieldEntries collections formatName_type formatName_field
    formatName_arg id_deserialize getOutputType getInputType nodeInterface
    fuel collection st = Some (entries, st') ->
  let type := collection_getType (collections collection) in
  exists a : nat,
    entries
    = match collection_getPrimaryKey (collections collection) with
      | Some primaryKey =>
          [(formatName_field (type_getName type),
            {| rf_type := Named a;
               rf_args := [(lit "__id", GraphQLNonNull GraphQLID)];
               rf_resolve :=
                 byId_resolve id_deserialize (collections collection)
                   primaryKey |})]
      | None => []
      end
      ++ map (fun key =>
                (formatName_field
                   (type_getName type ++ lit "-by-" ++ key_getName key),
                 {| rf_type := Named a;
                    rf_args := byKey_args formatName_arg getInputType key;
                    rf_resolve := byKey_resolve formatName_arg key |}))
           (collection_getKeys (collections collection))
    /\ (entries <> [] ->
        forall fuel',
          getType collections formatName_type formatName_field getOutputType
            nodeInterface (S fuel') collection st' = Some (a, st')).
Proof.
  intros R type. unfold createRootFieldEntries in R. fold type in R.
  destruct (collection_getPrimaryKey (collections collection))
    as [primaryKey|].
  - destruct (getType _ _ _ _ _ fuel collection st) as [[a st1]|] eqn:G;
      [|discriminate R].
    destruct (key_entries _ _ _ _ _ _ _ fuel collection _ st1)
      as [[entries' st2]|] eqn:E; [|discriminate R].
    injection R as <- <-.
    destruct (getType_memoized _ _ _ _ _ _ _ _ _ _ G) as (Hc & Hagain).
    destruct (key_entries_cached_shape _ _ _ _ _ _ _ _ _ _ _ a _ _ Hc E)
      as (-> & ->).
    exists a. split; [reflexivity|]. intros _. exact Hagain.
  - destruct (key_entries _ _ _ _ _ _ _ fuel collection _ st)
      as [[entries' st2]|] eqn:E; [|discriminate R].
    injection R as <- <-.
    destruct (collection_getKeys (collections collection)) as [|key keys] eqn:K.
    + injection E as <- <-. exists 0%nat. split; [reflexivity|].
      intros H. now contradiction H.
    + assert (Hkeys : key :: keys <> []) by discriminate.
      destruct (key_entries_shape _ _ _ _ _ _ _ _ _ _ _ _ _ Hkeys E)
        as (a & G & ->).
      exists a. split; [reflexivity|]. intros _.
      exact (proj2 (getType_memoized _ _ _ _ _ _ _ _ _ _ G)).
Qed.

Lemma root_fields_share_the_type_of_the_collection_witness :
  let result :=
    createRootFieldEntries acyclic_collections id id id pair_deserialize
      scalar_type scalar_type 0%nat 2 post_handle empty_state in
  map fst (default [] (fst <$> result)) = [lit "post"; lit "post-by-id"]
  /\ map (fun e => rf_type (snd e)) (default [] (fst <$> result))
     = [Named 1; Named 1]
  /\ getType acyclic_collections id id scalar_type 0%nat 1 post_handle
       (default empty_state (snd <$> result))
     = Some (1%nat, default empty_state (snd <$> result)).
Proof.
  destruct (root_fields_share_the_type_of_the_collection acyclic_collections
              id id id pair_deserialize scalar_type scalar_type 0%nat 2
              post_handle empty_state _ _ eq_refl) as (a & E & Hsame).
  assert (Ha : a = 1%nat) by (now injection E as <-).
  subst a. split; [reflexivity|]. split; [reflexivity|].
  refine (Hsame _ 0%nat). discriminate.
Defined.

(** *** More on the keys *)

Lemma buildObject_map {A B : Type} (g : A -> jsstring * B) (l : list A) :
  buildObject (map (fun x => Some (g x)) l) = map g l.
Proof.
  unfold buildObject. induction l as [|x l IH]; [reflexivity|].
  cbn. f_equal. exact IH.
Qed.

(** X17. The field that selects by a composite key works where
    [formatName.arg] leaves the names of the key's fields as they are
    (and no two fields have one name): from a request that gives a value
    to each declared argument, the resolver reads the record whose key is
    made of these values, in the order of the fields. *)
Theorem composite_key_read_when_names_are_kept formatName_arg getInputType
    name description fields createFromFieldValues key values :
  key_getType key = ObjectType name description fields createFromFieldValues ->
  (forall f, f ∈ fields -> formatName_arg (field_getName f) = field_getName f) ->
  NoDup (map field_getName fields) ->
  length values = length fields ->
  byKey_resolve formatName_arg key
    (request_args (map fst (byKey_args formatName_arg getInputType key)) values)
  = key_read key (createFromFieldValues values).
Proof.
  intros Ht Hid Hnd Hlen. unfold byKey_resolve. f_equal.
  assert (Hargs : map fst (byKey_args formatName_arg getInputType key)
                  = map (fun f => formatName_arg (field_getName f)) fields).
  { unfold byKey_args. rewrite Ht.
    rewrite (buildObject_map
               (fun f => (formatName_arg (field_getName f),
                          getInputType (field_getType f)))).
    now rewrite map_map. }
  rewrite Hargs.
  exact (composite_key_unformatted _ _ _ _ _ _ _ Ht Hid Hnd Hlen).
Qed.

Lemma composite_key_read_when_names_are_kept_witness :
  byKey_resolve id thing_pair_key
    (request_args (map fst (byKey_args id scalar_type thing_pair_key))
       [VNum 8; VNum 9])
  = key_read thing_pair_key (VArr [VNum 8; VNum 9]).
Proof.
  refine (composite_key_read_when_names_are_kept id scalar_type _ _ _ VArr
            thing_pair_key [VNum 8; VNum 9] eq_refl _ _ eq_refl).
  - intros f _. reflexivity.
  - repeat (apply NoDup_cons; split;
            [intros H;
             repeat (apply elem_of_cons in H as [H | H]; [discriminate H|]);
             now apply elem_of_nil in H |]).
    apply NoDup_nil. exact I.
Defined.

(** X18. Whatever [formatName.arg] is: a field of a composite key whose
    own name is not among the names of the declared arguments is read as
    [undefined] from every request that gives values to the declared
    arguments only, so the key that is looked up has [undefined] in its
    place. *)
Theorem composite_key_component_lost formatName_arg getInputType name
    description fields createFromFieldValues key values i field :
  key_getType key = ObjectType name description fields createFromFieldValues ->
  fields !! i = Some field ->
  field_getName field ∉ map fst (byKey_args formatName_arg getInputType key) ->
  exists read,
    byKey_resolve formatName_arg key
      (request_args (map fst (byKey_args formatName_arg getInputType key))
         values)
    = key_read key (createFromFieldValues read)
    /\ length read = length fields
    /\ read !! i = Some VUndef.
Proof.
  intros Ht Hi Hnot. unfold byKey_resolve, byKey_keyValue. rewrite Ht.
  eexists. split; [reflexivity|]. split; [apply length_map|].
  rewrite list_lookup_fmap, Hi. simpl. f_equal.
  now apply request_args_dom.
Qed.

Lemma composite_key_component_lost_witness :
  exists read,
    byKey_resolve camelCase thing_pair_key
      (request_args (map fst (byKey_args camelCase scalar_type thing_pair_key))
         [VNum 8; VNum 9])
    = key_read thing_pair_key (VArr read)
    /\ length read = 2%nat
    /\ read !! 0%nat = Some VUndef.
Proof.
  refine (composite_key_component_lost camelCase scalar_type _ _ _ VArr
            thing_pair_key [VNum 8; VNum 9] 0%nat _ eq_refl eq_refl _).
  intros H.
  repeat (apply elem_of_cons in H as [H | H]; [discriminate H|]).
  now apply elem_of_nil in H.
Defined.

(** [args[name]] of the arguments that hold one value. *)
Lemma get_singleton name v : get (<[name := v]> ∅) name = v.
Proof. unfold get. now rewrite lookup_insert_eq. Qed.

(** X19. The [__id] that the [__id] field of a collection's type gives for
    a value selects that value again: where [id.deserialize] reads back
    what [id.serialize] wrote for it, and the primary key reads the value
    under the key that [getKeyForValue] gives, the root field that selects
    by [__id] returns the value. The root field of a collection of another
    name throws on that id, with the error that names both. *)
Theorem id_of_a_value_selects_it id_serialize id_deserialize collection
    primaryKey v :
  id_deserialize (idField_resolve id_serialize collection primaryKey v)
  = Ok (collection_getName collection, key_getKeyForValue primaryKey v) ->
  key_read primaryKey (key_getKeyForValue primaryKey v) = Ok v ->
  byId_resolve id_deserialize collection primaryKey
    (<[lit "__id" := idField_resolve id_serialize collection primaryKey v]> ∅)
  = Ok v
  /\ forall other otherKey,
       collection_getName other <> collection_getName collection ->
       byId_resolve id_deserialize other otherKey
         (<[lit "__id" := idField_resolve id_serialize collection primaryKey v]>
            ∅)
       = Throw (wrong_collection (collection_getName collection)
                  (collection_getName other)).
Proof.
  intros Hid Hread. unfold byId_resolve. rewrite get_singleton, Hid. split.
  - rewrite bool_decide_eq_false_2 by (intros H; now apply H). exact Hread.
  - intros other otherKey Hne.
    rewrite bool_decide_eq_true_2 by (intros H; now apply Hne). reflexivity.
Qed.

Lemma id_of_a_value_selects_it_witness :
  byId_resolve pair_deserialize relation_collection thing_pair_key
    (<[lit "__id" := idField_resolve pair_serialize relation_collection
                       thing_pair_key relation_8_9]> ∅)
  = Ok relation_8_9
  /\ byId_resolve pair_deserialize (acyclic_collections post_handle)
       (integer_key "id")
       (<[lit "__id" := idField_resolve pair_serialize relation_collection
                          thing_pair_key relation_8_9]> ∅)
     = Throw (wrong_collection (lit "relation") (lit "post")).
Proof.
  destruct (id_of_a_value_selects_it pair_serialize pair_deserialize
              relation_collection thing_pair_key relation_8_9
              eq_refl eq_refl) as (Hsame & Hother).
  split; [exact Hsame|].
  apply (Hother (acyclic_collections post_handle) (integer_key "id")).
  discriminate.
Defined.

End CollectionForge.

(** ** The fixture that creates the kitchen sink schema

    [src/postgres/__tests__/fixtures/createKitchenSinkPGSchema.ts]. The
    function is asynchronous; the calls modelled here are awaited one after
    the other, so each runs to its end before the next begins. *)

Module KitchenSinkSchema.

(** What a call does to the world outside, in the order it does it. *)
Inductive event : Type :=
| ReadFile (path : jsstring)
| GetTestPGClient
| Query (sql : jsstring) (succeeded : bool)
| ConsoleError (message : jsstring) (error : exn).

(** Modelled from the spec: the client that [getTestPGClient] gives. *)
Record Client : Type := mkClient {
  client_query : jsstring -> outcome value
}.

(** The world that a call finds: the file system and the database. *)
Record world : Type := mkWorld {
  readFile : jsstring -> outcome jsstring;
  getTestPGClient : outcome Client
}.

(** The variable [created] of the module, and the events so far. *)
Record module_state : Type := mkModuleState {
  created : bool;
  events : list event
}.

Definition initial : module_state := {| created := false; events := [] |}.

Definition schema_path : jsstring := lit "kitchen-sink-schema.sql".

Definition createKitchenSinkSchema (w : world) (st : module_state)
  : outcome value * module_state :=
  if created st then (Ok VUndef, st)
  else
    let log1 := events st ++ [ReadFile schema_path] in
    match readFile w schema_path with
    | Throw error => (Throw error, {| created := created st; events := log1 |})
    | Ok testSchema =>
        let log2 := log1 ++ [GetTestPGClient] in
        match getTestPGClient w with
        | Throw error =>
            (Throw error, {| created := created st; events := log2 |})
        | Ok client =>
            match client_query client testSchema with
            | Throw error =>
                (Throw error,
                 {| created := created st;
                    events :=
                      log2 ++ [Query testSchema false;
                               ConsoleError
                                 (lit "Failed to execute kitchen sink SQL:")
                                 error] |})
            | Ok _ =>
                (Ok VUndef,
                 {| created := true;
                    events := log2 ++ [Query testSchema true] |})
            end
        end
    end.

(** Calls one after the other, each in the world it finds. *)
Definition calls (worlds : list world) (st : module_state) : module_state :=
  fold_left (fun st w => snd (createKitchenSinkSchema w st)) worlds st.

(** The queries that went through. *)
Definition succeeded (e : event) : bool :=
  match e with Query _ true => true | _ => false end.

(** A world for the examples: the file is there, and the database takes
    the SQL or refuses it. *)
Definition world_where_query (result : outcome value) : world :=
  {| readFile := fun _ => Ok (lit "create schema a;");
     getTestPGClient := Ok {| client_query := fun _ => result |} |}.

Definition refused : exn := JsError (lit "syntax error at or near").

(** The count that the calls keep: one query has gone through where
    [created] is set, and none where it is not. *)
Definition counted (st : module_state) : Prop :=
  length (filter succeeded (events st)) = (if created st then 1 else 0)%nat.

Lemma call_counted w st :
  counted st -> counted (snd (createKitchenSinkSchema w st)).
Proof.
  unfold counted, createKitchenSinkSchema. intros H.
  destruct (created st) eqn:C; [simpl; now rewrite C|].
  destruct (readFile w schema_path) as [testSchema|error]; simpl;
    [destruct (getTestPGClient w) as [client|error]; simpl;
     [destruct (client_query client testSchema) as [v|error]; simpl|]|];
    rewrite ?filter_app, ?length_app, H; reflexivity.
Qed.

Lemma calls_counted worlds :
  forall st, counted st -> counted (calls worlds st).
Proof.
  induction worlds as [|w worlds IH]; intros st H; [exact H|].
  apply (IH (snd (createKitchenSinkSchema w st))). now apply call_counted.
Qed.

Lemma calls_when_created worlds st :
  created st = true -> calls worlds st = st.
Proof.
  intros C. induction worlds as [|w worlds IH]; [reflexivity|].
  unfold calls in *. simpl. unfold createKitchenSinkSchema at 2.
  rewrite C. exact IH.
Qed.

(** X20. However many times the function is called, one call after the
    other, and whatever each call finds: the SQL of the schema is run
    with success at most once, [created] is set exactly when it has been,
    and from then on the calls return at once: they read no file, ask for
    no client and run no query. *)
Theorem schema_is_created_at_most_once worlds :
  let st := calls worlds initial in
  length (filter succeeded (events st)) = (if created st then 1 else 0)%nat
  /\ (created st = true ->
      forall more,
        calls more st = st
        /\ forall w, createKitchenSinkSchema w st = (Ok VUndef, st)).
Proof.
  split.
  - apply calls_counted. reflexivity.
  - intros C more. split; [now apply calls_when_created|].
    intros w. unfold createKitchenSinkSchema. now rewrite C.
Qed.

(** X21. A call that throws has not set [created], and what it throws is
    the error of the step that failed: of reading the file, of getting
    the client, or of the query, which alone is logged to the console
    first. The next call starts over, with reading the file. *)
Theorem failed_call_is_tried_again w st error st' :
  createKitchenSinkSchema w st = (Throw error, st') ->
  created st = false /\ created st' = false
  /\ (readFile w schema_path = Throw error
      \/ exists testSchema,
           readFile w schema_path = Ok testSchema
           /\ (getTestPGClient w = Throw error
               \/ exists client,
                    getTestPGClient w = Ok client
                    /\ client_query client testSchema = Throw error
                    /\ last (events st')
                       = Some (ConsoleError
                                 (lit "Failed to execute kitchen sink SQL:")
                                 error)))
  /\ forall w', exists rest,
       events (snd (createKitchenSinkSchema w' st'))
       = events st' ++ ReadFile schema_path :: rest.
Proof.
  intros R.
  assert (H : created st = false /\ created st' = false
              /\ (readFile w schema_path = Throw error
                  \/ exists testSchema,
                       readFile w schema_path = Ok testSchema
                       /\ (getTestPGClient w = Throw error
                           \/ exists client,
                                getTestPGClient w = Ok client
                                /\ client_query client testSchema = Throw error
                                /\ last (events st')
                                   = Some (ConsoleError
                                             (lit "Failed to execute kitchen sink SQL:")
                                             error)))).
  { unfold createKitchenSinkSchema in R.
    destruct (created st) eqn:C; [discriminate R|].
    destruct (readFile w schema_path) as [testSchema|e] eqn:F.
    - destruct (getTestPGClient w) as [client|e] eqn:G.
      + destruct (client_query client testSchema) as [v|e] eqn:Q;
          [discriminate R|].
        injection R as <- <-. repeat split. right. exists testSchema.
        split; [reflexivity|]. right. exists client.
        split; [reflexivity|]. split; [exact Q|].
        simpl. rewrite !last_app. reflexivity.
      + injection R as <- <-. repeat split. right. exists testSchema.
        split; [reflexivity|]. now left.
    - injection R as <- <-. repeat split. now left. }
  destruct H as (C & C' & H). repeat split; try assumption.
  intros w'. unfold createKitchenSinkSchema. rewrite C'.
  destruct (readFile w' schema_path) as [testSchema|e]; simpl.
  - destruct (getTestPGClient w') as [client|e]; simpl.
    + destruct (client_query client testSchema) as [v|e]; simpl;
        rewrite <- !app_assoc; eexists; reflexivity.
    + rewrite <- !app_assoc. eexists. reflexivity.
  - eexists. reflexivity.
Qed.

Lemma failed_call_is_tried_again_witness :
  let st' := snd (createKitchenSinkSchema (world_where_query (Throw refused))
                    initial) in
  created st' = false
  /\ last (events st')
     = Some (ConsoleError (lit "Failed to execute kitchen sink SQL:") refused)
  /\ exists rest,
       events (snd (createKitchenSinkSchema
                      (world_where_query (Ok VUndef)) st'))
       = events st' ++ ReadFile schema_path :: rest.
Proof.
  destruct (failed_call_is_tried_again (world_where_query (Throw refused))
              initial refused _ eq_refl) as (_ & C & _ & Hnext).
  split; [exact C|]. split; [reflexivity|].
  exact (Hnext (world_where_query (Ok VUndef))).
Defined.

End KitchenSinkSchema.
